(** * Articulated model animation and camera choreography

    A shallow embedding of the viewer engine of the site
    (client/src/components/FetchHeroViewer.tsx and its sibling variants,
    client/src/pages/FetchDemo.tsx): the keyframe clip runner, the
    pointer-driven head follow, the shared model preload, and the
    timers and animation frames of the inactivity reset.

    Numbers.  A JavaScript [number] is modelled as an exact rational or
    [NaN].  Rounding, overflow and the infinities of IEEE-754 doubles are
    outside this model: arithmetic on finite values is exact. *)

From stdpp Require Import base numbers option list gmap strings sets fin_sets.
From Stdlib Require Import QArith Qcanon Lqa Sorted.

Local Open Scope Qc_scope.
#[local] Set Warnings "-clear-no-such-hyp".  (* stdpp solvers on Rocq 9.3 *)

(** ** Rationals: bridge from [Qc] to [Q] for arithmetic goals *)

Ltac qc2q :=
  unfold Qcdiv, Qcminus, Qcle, Qclt, Qcplus, Qcmult, Qcopp, Q2Qc in *;
  simpl this in *;
  repeat match goal with
         | H : context [Qred ?q] |- _ => rewrite (Qred_correct q) in H
         | |- context [Qred ?q] => rewrite (Qred_correct q)
         end.

(** Decimal literal [n / d] as a canonical rational. *)
Definition dec (n : Z) (d : positive) : Qc := Q2Qc (n # d).

(** Truncation toward zero, the integer quotient used by [%]. *)
Definition Qctrunc (q : Qc) : Z := Z.quot (Qnum q) (Zpos (Qden q)).

(** ** JavaScript numbers *)

Inductive number : Type :=
  | Fin (q : Qc)
  | NaN.

Global Instance number_eq_dec : EqDecision number.
Proof. solve_decision. Defined.

Definition num_lift2 (f : Qc → Qc → Qc) (a b : number) : number :=
  match a, b with
  | Fin x, Fin y => Fin (f x y)
  | _, _ => NaN
  end.

Definition nadd : number → number → number := num_lift2 Qcplus.
Definition nsub : number → number → number := num_lift2 Qcminus.
Definition nmul : number → number → number := num_lift2 Qcmult.

(** [a / b].  In JavaScript a zero divisor gives an infinity (or [NaN] for
    [0 / 0]); this model has no infinities and answers [NaN] there.  Every
    division of the modelled code has a divisor that is floored away from
    zero or a non-zero constant (see [span_positive]). *)
Definition ndiv (a b : number) : number :=
  match a, b with
  | Fin x, Fin y => if decide (y = 0) then NaN else Fin (x / y)
  | _, _ => NaN
  end.

(** [a % b]: the remainder has the sign of the dividend, the quotient is
    truncated; a zero divisor gives [NaN]. *)
Definition nrem (a b : number) : number :=
  match a, b with
  | Fin x, Fin y =>
      if decide (y = 0) then NaN else Fin (x - y * Qc_of_Z (Qctrunc (x / y)))
  | _, _ => NaN
  end.

(** [Math.min] and [Math.max]: [NaN] if either argument is [NaN]. *)
Definition Math_min (a b : number) : number :=
  match a, b with
  | Fin x, Fin y => Fin (if decide (x ≤ y) then x else y)
  | _, _ => NaN
  end.

Definition Math_max (a b : number) : number :=
  match a, b with
  | Fin x, Fin y => Fin (if decide (x ≤ y) then y else x)
  | _, _ => NaN
  end.

(** Comparisons: any comparison with [NaN] is false. *)
Definition nle (a b : number) : bool :=
  match a, b with
  | Fin x, Fin y => bool_decide (x ≤ y)
  | _, _ => false
  end.

Definition nge (a b : number) : bool := nle b a.

Declare Scope num_scope.
Delimit Scope num_scope with num.
Bind Scope num_scope with number.
Infix "+" := nadd : num_scope.
Infix "-" := nsub : num_scope.
Infix "*" := nmul : num_scope.
Infix "/" := ndiv : num_scope.
Infix "%%" := nrem (at level 40, left associativity) : num_scope.
Notation "0" := (Fin 0) : num_scope.
Notation "1" := (Fin 1) : num_scope.

(** ** three.js MathUtils (as used by the viewer) *)

Module MathUtils.

(** [lerp(x, y, t) = (1 - t) * x + t * y] *)
Definition lerp (x y t : number) : number := ((1 - t) * x + t * y)%num.

(** [clamp(value, min, max) = Math.max(min, Math.min(max, value))] *)
Definition clamp (value lo hi : number) : number :=
  Math_max lo (Math_min hi value).

End MathUtils.

(** ** Keyframes and clips *)

Record Keyframe : Type := mkKeyframe {
  time : Qc;
  joints : gmap string Qc
}.

Record Clip : Type := mkClip {
  name : string;
  loop : option bool;          (* [loop?: boolean] *)
  frames : list Keyframe
}.

Global Instance Keyframe_eq_dec : EqDecision Keyframe.
Proof. solve_decision. Defined.
Global Instance Clip_eq_dec : EqDecision Clip.
Proof. solve_decision. Defined.

(** Truthiness of the optional [loop] flag. *)
Definition looping (c : Clip) : bool := default false (loop c).

(** A joint handle of the registry: whether [setJointValue] is a function
    and the optional [jointValue] field.  [setJointValue] is the registry's
    set operation; limit handling of the loader library is outside the
    model. *)
Record URDFJoint : Type := mkJoint {
  setJointValue_is_function : bool;
  jointValue : option number
}.

Global Instance URDFJoint_eq_dec : EqDecision URDFJoint.
Proof. solve_decision. Defined.

Definition setJointValue (j : URDFJoint) (v : number) : URDFJoint :=
  {| setJointValue_is_function := setJointValue_is_function j;
     jointValue := Some v |}.

Record Playback : Type := mkPlayback {
  clip : Clip;
  start : Qc
}.

Record HeadTarget : Type := mkHeadTarget {
  hx : number;
  hy : number;
  active : bool
}.

(** The refs shared by the viewer and its [ClipRunner]. *)
Record Refs : Type := mkRefs {
  robotRef : option nat;                   (* the scene id of the clone *)
  jointMapRef : gmap string URDFJoint;
  clipRef : option Playback;
  headTargetRef : HeadTarget
}.

Global Instance Playback_eq_dec : EqDecision Playback.
Proof. solve_decision. Defined.
Global Instance HeadTarget_eq_dec : EqDecision HeadTarget.
Proof. solve_decision. Defined.
Global Instance Refs_eq_dec : EqDecision Refs.
Proof. solve_decision. Defined.

Definition set_clipRef (c : option Playback) (s : Refs) : Refs :=
  {| robotRef := robotRef s; jointMapRef := jointMapRef s;
     clipRef := c; headTargetRef := headTargetRef s |}.

Definition set_jointMap (m : gmap string URDFJoint) (s : Refs) : Refs :=
  {| robotRef := robotRef s; jointMapRef := m;
     clipRef := clipRef s; headTargetRef := headTargetRef s |}.

(** ** The clip runner (the [useFrame] callback of [ClipRunner]) *)

(** The [for] loop: the first adjacent pair [(a, b)] with
    [t >= a.time && t <= b.time]. *)
Fixpoint find_bracket (t : number) (fs : list Keyframe)
  : option (Keyframe * Keyframe) :=
  match fs with
  | a :: (b :: _) as rest =>
      if nge t (Fin (time a)) && nle t (Fin (time b)) then Some (a, b)
      else find_bracket t rest
  | _ => None
  end.

(** [f1] and [f2] start as the first and last keyframe and are replaced by
    the first bracketing pair, if any. *)
Definition bracket (t : number) (first_kf last_kf : Keyframe)
    (fs : list Keyframe) : Keyframe * Keyframe :=
  default (first_kf, last_kf) (find_bracket t fs).

Definition epsilon : Qc := dec 1 1000.

Definition span_of (f1 f2 : Keyframe) : number :=
  Math_max (Fin epsilon) (Fin (time f2) - Fin (time f1))%num.

Definition alpha_of (t : number) (f1 f2 : Keyframe) : number :=
  Math_min 1%num (Math_max 0%num ((t - Fin (time f1)) / span_of f1 f2)%num).

(** [f.joints[name] ?? 0] *)
Definition joint_or_zero (f : Keyframe) (nm : string) : number :=
  Fin (default 0 (joints f !! nm)).

(** The value the runner computes for joint [nm]. *)
Definition sample_value (f1 f2 : Keyframe) (alpha : number) (nm : string)
  : number :=
  MathUtils.lerp (joint_or_zero f1 nm) (joint_or_zero f2 nm) alpha.

(** Body of [jointNames.forEach]: joints that are absent from the registry
    or have no [setJointValue] are skipped. *)
Definition write_joint (f1 f2 : Keyframe) (alpha : number) (nm : string)
    (reg : gmap string URDFJoint) : gmap string URDFJoint :=
  match reg !! nm with
  | Some j =>
      if setJointValue_is_function j
      then <[nm := setJointValue j (sample_value f1 f2 alpha nm)]> reg
      else reg
  | None => reg
  end.

(** [new Set([...Object.keys(f1.joints), ...Object.keys(f2.joints)])] *)
Definition jointNames (f1 f2 : Keyframe) : gset string :=
  dom (joints f1) ∪ dom (joints f2).

Definition write_joints (f1 f2 : Keyframe) (alpha : number)
    (reg : gmap string URDFJoint) : gmap string URDFJoint :=
  set_fold (write_joint f1 f2 alpha) reg (jointNames f1 f2).

(** Effective time: [clip.loop ? elapsed % duration : Math.min(elapsed, duration)] *)
Definition effective_time (c : Clip) (elapsed duration : number) : number :=
  if looping c then (elapsed %% duration)%num else Math_min elapsed duration.

(** [!clip.loop && elapsed >= duration] *)
Definition finished (c : Clip) (elapsed duration : number) : bool :=
  negb (looping c) && nge elapsed duration.

(** One frame of clip playback at time [now] (seconds).  [None] is the
    [TypeError] raised by reading [.time] of a keyframe of an empty
    [frames] array. *)
Definition clipStep (now : Qc) (s : Refs) : option Refs :=
  match robotRef s, clipRef s with
  | Some _, Some pb =>
      let c := clip pb in
      let elapsed := (Fin now - Fin (start pb))%num in
      last_kf ← last (frames c);
      let duration := Fin (time last_kf) in
      let t := effective_time c elapsed duration in
      if finished c elapsed duration then Some (set_clipRef None s)
      else
        first_kf ← head (frames c);
        let '(f1, f2) := bracket t first_kf last_kf (frames c) in
        let alpha := alpha_of t f1 f2 in
        Some (set_jointMap (write_joints f1 f2 alpha (jointMapRef s)) s)
  | _, _ => Some s
  end.


(** ** Head follow (the tail of the [useFrame] callback)

    [DEG2RAD] is three.js's constant [Math.PI / 180]; it is irrational and
    is taken as a parameter. *)

Section HeadFollow.
Variable DEG2RAD : Qc.

Definition degToRad (degrees : number) : number :=
  (degrees * Fin DEG2RAD)%num.

(** One head joint: [range] is 50 for pan and 30 for tilt. *)
Definition follow (nm : string) (coord : number) (range smoothing : Qc)
    (reg : gmap string URDFJoint) : gmap string URDFJoint :=
  match reg !! nm with
  | Some j =>
      if setJointValue_is_function j then
        let target := MathUtils.clamp coord (Fin (-1)) 1%num in
        let desired := degToRad (target * Fin range)%num in
        let current := default 0%num (jointValue j) in
        <[nm := setJointValue j
                  (MathUtils.lerp current desired (Fin smoothing))]> reg
      else reg
  | None => reg
  end.

Definition headFollow (smoothing : Qc) (s : Refs) : Refs :=
  let ht := headTargetRef s in
  let reg1 :=
    follow "head_pan_joint" (if active ht then hx ht else 0%num)
           (Qc_of_Z 50) smoothing (jointMapRef s) in
  let reg2 :=
    follow "head_tilt_joint" (if active ht then hy ht else 0%num)
           (Qc_of_Z 30) smoothing reg1 in
  set_jointMap reg2 s.

(** The joint part of the frame callback: clip playback, then head
    follow when [enableInteraction] holds. *)
Definition useFrame_follow (enableInteraction : bool) (smoothing : Qc)
    (now : Qc) (s : Refs) : option Refs :=
  s1 ← clipStep now s;
  Some (if enableInteraction then headFollow smoothing s1 else s1).

(** The hero viewer (FetchHeroViewer.tsx) gates head follow by its
    [enableInteraction] prop and smooths with 0.12. *)
Definition useFrame_hero (enableInteraction : bool)
  : Qc → Refs → option Refs :=
  useFrame_follow enableInteraction (dec 12 100).

(** The always-on variant follows on every frame and smooths with 0.25. *)
Definition useFrame_alwayson : Qc → Refs → option Refs :=
  useFrame_follow true (dec 25 100).

(** Successive frames at the given times. *)
Fixpoint run_frames (frame : Qc → Refs → option Refs) (nows : list Qc)
    (s : Refs) : option Refs :=
  match nows with
  | [] => Some s
  | now :: rest => s1 ← frame now s; run_frames frame rest s1
  end.

End HeadFollow.

(** The variants without head follow (FetchDemo.tsx and the plain viewer)
    run [clipStep] alone. *)
Definition useFrame_plain : Qc → Refs → option Refs := clipStep.

(** ** three.js vectors *)

Module Vector3.

Record t : Type := mk { x : Qc; y : Qc; z : Qc }.

Global Instance eq_dec : EqDecision t.
Proof. solve_decision. Defined.

Definition add (a b : t) : t := mk (x a + x b) (y a + y b) (z a + z b).

(** [lerpVectors(v1, v2, alpha)]: [v1 + (v2 - v1) * alpha], per component. *)
Definition lerpVectors (v1 v2 : t) (alpha : Qc) : t :=
  mk (x v1 + (x v2 - x v1) * alpha)
     (y v1 + (y v2 - y v1) * alpha)
     (z v1 + (z v2 - z v1) * alpha).

Definition lengthSq (v : t) : Qc := x v * x v + y v * y v + z v * z v.

End Vector3.

Definition Qcmin (a b : Qc) : Qc := if decide (a ≤ b) then a else b.
Definition Qcmax (a b : Qc) : Qc := if decide (a ≤ b) then b else a.

(** The easing of the camera animations:
    [t < 0.5 ? 2 * t * t : -1 + (4 - 2 * t) * t]. *)
Definition eased (t : Qc) : Qc :=
  if decide (t < dec 1 2) then 2 * t * t else -1 + (Qc_of_Z 4 - 2 * t) * t.

(** ** The model preload: the module variable [fetchPreload] *)

(** A loaded robot: its joint map ([robot.joints], possibly missing) and the
    bounding box three.js computes for it. *)
Record URDFRobot : Type := mkRobot {
  robot_joints : option (gmap string URDFJoint);
  box_center : Vector3.t;
  box_size : Vector3.t
}.

Inductive PromiseState : Type :=
  | Pending
  | Fulfilled (value : option URDFRobot)
  | Rejected.

(** One invocation of [loader.load(urdfUrl, ...)], with the loader's
    [workingPath]. *)
Record LoadCall : Type := mkLoadCall {
  load_urdfUrl : string;
  load_workingPath : string
}.

Record Preload : Type := mkPreload {
  fetchPreload : option positive;            (* handle of the stored promise *)
  promises : gmap positive PromiseState;
  loader_loads : list (positive * LoadCall); (* loads started, with the
                                                promise their callbacks settle *)
  next_promise : positive
}.

Definition Preload_init : Preload :=
  {| fetchPreload := None; promises := ∅; loader_loads := [];
     next_promise := 1%positive |}.

(** [ensureFetchPreload(assetsBase, urdfUrl)]: returns the stored promise if
    there is one; otherwise creates the promise, starts the load and stores
    the promise. *)
Definition ensureFetchPreload (assetsBase urdfUrl : string) (st : Preload)
  : positive * Preload :=
  match fetchPreload st with
  | Some p => (p, st)
  | None =>
      let p := next_promise st in
      (p, {| fetchPreload := Some p;
             promises := <[p := Pending]> (promises st);
             loader_loads := loader_loads st ++ [(p, mkLoadCall urdfUrl assetsBase)];
             next_promise := Pos.succ p |})
  end.

(** [resolve(value)] of promise [p]; settling twice has no effect. *)
Definition resolve (p : positive) (value : option URDFRobot) (st : Preload)
  : Preload :=
  match promises st !! p with
  | Some Pending =>
      {| fetchPreload := fetchPreload st;
         promises := <[p := Fulfilled value]> (promises st);
         loader_loads := loader_loads st;
         next_promise := next_promise st |}
  | _ => st
  end.

(** How a load ends: the loader calls [onLoad(robot)] or [onError]. *)
Inductive LoaderResult : Type :=
  | Loaded (robot : URDFRobot)
  | Failed.

(** The two callbacks passed to [loader.load]:
    [(robot) => resolve(robot)] and [() => resolve(null)]. *)
Definition loader_callback (p : positive) (r : LoaderResult) (st : Preload)
  : Preload :=
  match r with
  | Loaded robot => resolve p (Some robot) st
  | Failed => resolve p None st
  end.

Inductive CacheEvent : Type :=
  | Ensure (assetsBase urdfUrl : string)
  | LoaderDone (p : positive) (r : LoaderResult).

(** One event; an [Ensure] yields the promise handed to the caller.  The
    loader only calls back for a load that was started. *)
Definition cache_step (ev : CacheEvent) (st : Preload)
  : option positive * Preload :=
  match ev with
  | Ensure assetsBase urdfUrl =>
      let '(p, st') := ensureFetchPreload assetsBase urdfUrl st in (Some p, st')
  | LoaderDone p r =>
      if bool_decide (p ∈ (loader_loads st).*1)
      then (None, loader_callback p r st)
      else (None, st)
  end.

(** A sequence of events: the promises handed out, in call order, and the
    final state. *)
Fixpoint cache_run (evs : list CacheEvent) (st : Preload)
  : list positive * Preload :=
  match evs with
  | [] => ([], st)
  | ev :: rest =>
      let '(r, st1) := cache_step ev st in
      let '(rs, st2) := cache_run rest st1 in
      (from_option (λ p, [p]) [] r ++ rs, st2)
  end.

(** The value a caller's [.then] callback receives, once settled. *)
Definition settled_value (st : Preload) (p : positive)
  : option (option URDFRobot) :=
  match promises st !! p with
  | Some (Fulfilled value) => Some value
  | _ => None
  end.

(** ** The hero viewer: timers, animation frames and effects
    (FetchHeroViewer.tsx)

    Renderer-only effects (materials, shadows, the floor position, the
    projection matrix, [lookAt]) and the intro camera drift that runs while
    interaction is disabled are left out; [controls.update()] belongs to the
    orbit controls.  React's own teardown is not modelled beyond the
    cleanup functions the effects return. *)

(** Callbacks passed to [setTimeout]. *)
Inductive TimerCallback : Type :=
  | ResetView        (* [resetView], armed by [resetTimer] *)
  | WaveComplete.    (* [() => onWaveComplete?.()], armed by [onReady] *)

(** The variables captured by [animate] in [smoothReset]. *)
Record AnimateClosure : Type := mkAnimate {
  startPos : Vector3.t;
  endPos : Vector3.t;
  startTarget : Vector3.t;
  endTarget : Vector3.t;
  anim_start : Qc
}.

Inductive HostCall : Type :=
  | OnLoaded
  | OnWaveComplete.

Global Instance TimerCallback_eq_dec : EqDecision TimerCallback.
Proof. solve_decision. Defined.
Global Instance AnimateClosure_eq_dec : EqDecision AnimateClosure.
Proof. solve_decision. Defined.
Global Instance HostCall_eq_dec : EqDecision HostCall.
Proof. solve_decision. Defined.

Record Viewer : Type := mkViewer {
  enableInteraction : bool;   (* the prop, as captured at mount *)
  mounted : bool;   (* the component is mounted (the render loop runs) *)
  refs : Refs;   (* robotRef, jointMapRef, clipRef, headTargetRef *)
  camera_position : Vector3.t;   (* camera.position *)
  controls_target : Vector3.t;   (* controls.target *)
  cameraRef : bool;   (* cameraRef.current is set *)
  controlsRef : bool;   (* controlsRef.current is set *)
  defaultCamPosRef : option Vector3.t;
  defaultTargetRef : Vector3.t;
  resetAnimRef : option positive;   (* handle of the pending reset frame *)
  timeout : option positive;   (* [let timeout] of the inactivity effect *)
  pointer_listeners : bool;   (* the five listeners on the container *)
  mouse_listeners : bool;   (* mousemove, mouseleave, blur on window *)
  scene : list nat;   (* objects added to the scene *)
  next_object : nat;   (* identity of the next clone *)
  timers : gmap positive (TimerCallback * Qc);   (* pending setTimeout callbacks, with their delay *)
  animation_frames : gmap positive AnimateClosure;   (* pending requestAnimationFrame callbacks *)
  next_handle : positive;   (* next timer or frame handle *)
  host_calls : list HostCall   (* calls made to the host page, oldest first *)
}.

Definition set_refs (a : Refs) (v : Viewer) : Viewer :=
  {| enableInteraction := enableInteraction v; mounted := mounted v;
     refs := a; camera_position := camera_position v;
     controls_target := controls_target v; cameraRef := cameraRef v;
     controlsRef := controlsRef v; defaultCamPosRef := defaultCamPosRef v;
     defaultTargetRef := defaultTargetRef v; resetAnimRef := resetAnimRef v;
     timeout := timeout v; pointer_listeners := pointer_listeners v;
     mouse_listeners := mouse_listeners v; scene := scene v;
     next_object := next_object v; timers := timers v;
     animation_frames := animation_frames v; next_handle := next_handle v;
     host_calls := host_calls v |}.

Definition set_camera_position (a : Vector3.t) (v : Viewer) : Viewer :=
  {| enableInteraction := enableInteraction v; mounted := mounted v;
     refs := refs v; camera_position := a;
     controls_target := controls_target v; cameraRef := cameraRef v;
     controlsRef := controlsRef v; defaultCamPosRef := defaultCamPosRef v;
     defaultTargetRef := defaultTargetRef v; resetAnimRef := resetAnimRef v;
     timeout := timeout v; pointer_listeners := pointer_listeners v;
     mouse_listeners := mouse_listeners v; scene := scene v;
     next_object := next_object v; timers := timers v;
     animation_frames := animation_frames v; next_handle := next_handle v;
     host_calls := host_calls v |}.

Definition set_controls_target (a : Vector3.t) (v : Viewer) : Viewer :=
  {| enableInteraction := enableInteraction v; mounted := mounted v;
     refs := refs v; camera_position := camera_position v;
     controls_target := a; cameraRef := cameraRef v;
     controlsRef := controlsRef v; defaultCamPosRef := defaultCamPosRef v;
     defaultTargetRef := defaultTargetRef v; resetAnimRef := resetAnimRef v;
     timeout := timeout v; pointer_listeners := pointer_listeners v;
     mouse_listeners := mouse_listeners v; scene := scene v;
     next_object := next_object v; timers := timers v;
     animation_frames := animation_frames v; next_handle := next_handle v;
     host_calls := host_calls v |}.

Definition set_cameraRef (a : bool) (v : Viewer) : Viewer :=
  {| enableInteraction := enableInteraction v; mounted := mounted v;
     refs := refs v; camera_position := camera_position v;
     controls_target := controls_target v; cameraRef := a;
     controlsRef := controlsRef v; defaultCamPosRef := defaultCamPosRef v;
     defaultTargetRef := defaultTargetRef v; resetAnimRef := resetAnimRef v;
     timeout := timeout v; pointer_listeners := pointer_listeners v;
     mouse_listeners := mouse_listeners v; scene := scene v;
     next_object := next_object v; timers := timers v;
     animation_frames := animation_frames v; next_handle := next_handle v;
     host_calls := host_calls v |}.

Definition set_controlsRef (a : bool) (v : Viewer) : Viewer :=
  {| enableInteraction := enableInteraction v; mounted := mounted v;
     refs := refs v; camera_position := camera_position v;
     controls_target := controls_target v; cameraRef := cameraRef v;
     controlsRef := a; defaultCamPosRef := defaultCamPosRef v;
     defaultTargetRef := defaultTargetRef v; resetAnimRef := resetAnimRef v;
     timeout := timeout v; pointer_listeners := pointer_listeners v;
     mouse_listeners := mouse_listeners v; scene := scene v;
     next_object := next_object v; timers := timers v;
     animation_frames := animation_frames v; next_handle := next_handle v;
     host_calls := host_calls v |}.

Definition set_defaultCamPosRef (a : option Vector3.t) (v : Viewer) : Viewer :=
  {| enableInteraction := enableInteraction v; mounted := mounted v;
     refs := refs v; camera_position := camera_position v;
     controls_target := controls_target v; cameraRef := cameraRef v;
     controlsRef := controlsRef v; defaultCamPosRef := a;
     defaultTargetRef := defaultTargetRef v; resetAnimRef := resetAnimRef v;
     timeout := timeout v; pointer_listeners := pointer_listeners v;
     mouse_listeners := mouse_listeners v; scene := scene v;
     next_object := next_object v; timers := timers v;
     animation_frames := animation_frames v; next_handle := next_handle v;
     host_calls := host_calls v |}.

Definition set_defaultTargetRef (a : Vector3.t) (v : Viewer) : Viewer :=
  {| enableInteraction := enableInteraction v; mounted := mounted v;
     refs := refs v; camera_position := camera_position v;
     controls_target := controls_target v; cameraRef := cameraRef v;
     controlsRef := controlsRef v; defaultCamPosRef := defaultCamPosRef v;
     defaultTargetRef := a; resetAnimRef := resetAnimRef v;
     timeout := timeout v; pointer_listeners := pointer_listeners v;
     mouse_listeners := mouse_listeners v; scene := scene v;
     next_object := next_object v; timers := timers v;
     animation_frames := animation_frames v; next_handle := next_handle v;
     host_calls := host_calls v |}.

Definition set_resetAnimRef (a : option positive) (v : Viewer) : Viewer :=
  {| enableInteraction := enableInteraction v; mounted := mounted v;
     refs := refs v; camera_position := camera_position v;
     controls_target := controls_target v; cameraRef := cameraRef v;
     controlsRef := controlsRef v; defaultCamPosRef := defaultCamPosRef v;
     defaultTargetRef := defaultTargetRef v; resetAnimRef := a;
     timeout := timeout v; pointer_listeners := pointer_listeners v;
     mouse_listeners := mouse_listeners v; scene := scene v;
     next_object := next_object v; timers := timers v;
     animation_frames := animation_frames v; next_handle := next_handle v;
     host_calls := host_calls v |}.

Definition set_timeout (a : option positive) (v : Viewer) : Viewer :=
  {| enableInteraction := enableInteraction v; mounted := mounted v;
     refs := refs v; camera_position := camera_position v;
     controls_target := controls_target v; cameraRef := cameraRef v;
     controlsRef := controlsRef v; defaultCamPosRef := defaultCamPosRef v;
     defaultTargetRef := defaultTargetRef v; resetAnimRef := resetAnimRef v;
     timeout := a; pointer_listeners := pointer_listeners v;
     mouse_listeners := mouse_listeners v; scene := scene v;
     next_object := next_object v; timers := timers v;
     animation_frames := animation_frames v; next_handle := next_handle v;
     host_calls := host_calls v |}.

Definition set_pointer_listeners (a : bool) (v : Viewer) : Viewer :=
  {| enableInteraction := enableInteraction v; mounted := mounted v;
     refs := refs v; camera_position := camera_position v;
     controls_target := controls_target v; cameraRef := cameraRef v;
     controlsRef := controlsRef v; defaultCamPosRef := defaultCamPosRef v;
     defaultTargetRef := defaultTargetRef v; resetAnimRef := resetAnimRef v;
     timeout := timeout v; pointer_listeners := a;
     mouse_listeners := mouse_listeners v; scene := scene v;
     next_object := next_object v; timers := timers v;
     animation_frames := animation_frames v; next_handle := next_handle v;
     host_calls := host_calls v |}.

Definition set_mouse_listeners (a : bool) (v : Viewer) : Viewer :=
  {| enableInteraction := enableInteraction v; mounted := mounted v;
     refs := refs v; camera_position := camera_position v;
     controls_target := controls_target v; cameraRef := cameraRef v;
     controlsRef := controlsRef v; defaultCamPosRef := defaultCamPosRef v;
     defaultTargetRef := defaultTargetRef v; resetAnimRef := resetAnimRef v;
     timeout := timeout v; pointer_listeners := pointer_listeners v;
     mouse_listeners := a; scene := scene v; next_object := next_object v;
     timers := timers v; animation_frames := animation_frames v;
     next_handle := next_handle v; host_calls := host_calls v |}.

Definition set_mounted (a : bool) (v : Viewer) : Viewer :=
  {| enableInteraction := enableInteraction v; mounted := a; refs := refs v;
     camera_position := camera_position v;
     controls_target := controls_target v; cameraRef := cameraRef v;
     controlsRef := controlsRef v; defaultCamPosRef := defaultCamPosRef v;
     defaultTargetRef := defaultTargetRef v; resetAnimRef := resetAnimRef v;
     timeout := timeout v; pointer_listeners := pointer_listeners v;
     mouse_listeners := mouse_listeners v; scene := scene v;
     next_object := next_object v; timers := timers v;
     animation_frames := animation_frames v; next_handle := next_handle v;
     host_calls := host_calls v |}.

Definition set_scene (a : list nat) (v : Viewer) : Viewer :=
  {| enableInteraction := enableInteraction v; mounted := mounted v;
     refs := refs v; camera_position := camera_position v;
     controls_target := controls_target v; cameraRef := cameraRef v;
     controlsRef := controlsRef v; defaultCamPosRef := defaultCamPosRef v;
     defaultTargetRef := defaultTargetRef v; resetAnimRef := resetAnimRef v;
     timeout := timeout v; pointer_listeners := pointer_listeners v;
     mouse_listeners := mouse_listeners v; scene := a;
     next_object := next_object v; timers := timers v;
     animation_frames := animation_frames v; next_handle := next_handle v;
     host_calls := host_calls v |}.

Definition set_next_object (a : nat) (v : Viewer) : Viewer :=
  {| enableInteraction := enableInteraction v; mounted := mounted v;
     refs := refs v; camera_position := camera_position v;
     controls_target := controls_target v; cameraRef := cameraRef v;
     controlsRef := controlsRef v; defaultCamPosRef := defaultCamPosRef v;
     defaultTargetRef := defaultTargetRef v; resetAnimRef := resetAnimRef v;
     timeout := timeout v; pointer_listeners := pointer_listeners v;
     mouse_listeners := mouse_listeners v; scene := scene v;
     next_object := a; timers := timers v;
     animation_frames := animation_frames v; next_handle := next_handle v;
     host_calls := host_calls v |}.

Definition set_timers (a : gmap positive (TimerCallback * Qc)) (v : Viewer) : Viewer :=
  {| enableInteraction := enableInteraction v; mounted := mounted v;
     refs := refs v; camera_position := camera_position v;
     controls_target := controls_target v; cameraRef := cameraRef v;
     controlsRef := controlsRef v; defaultCamPosRef := defaultCamPosRef v;
     defaultTargetRef := defaultTargetRef v; resetAnimRef := resetAnimRef v;
     timeout := timeout v; pointer_listeners := pointer_listeners v;
     mouse_listeners := mouse_listeners v; scene := scene v;
     next_object := next_object v; timers := a;
     animation_frames := animation_frames v; next_handle := next_handle v;
     host_calls := host_calls v |}.

Definition set_animation_frames (a : gmap positive AnimateClosure) (v : Viewer) : Viewer :=
  {| enableInteraction := enableInteraction v; mounted := mounted v;
     refs := refs v; camera_position := camera_position v;
     controls_target := controls_target v; cameraRef := cameraRef v;
     controlsRef := controlsRef v; defaultCamPosRef := defaultCamPosRef v;
     defaultTargetRef := defaultTargetRef v; resetAnimRef := resetAnimRef v;
     timeout := timeout v; pointer_listeners := pointer_listeners v;
     mouse_listeners := mouse_listeners v; scene := scene v;
     next_object := next_object v; timers := timers v; animation_frames := a;
     next_handle := next_handle v; host_calls := host_calls v |}.

Definition set_next_handle (a : positive) (v : Viewer) : Viewer :=
  {| enableInteraction := enableInteraction v; mounted := mounted v;
     refs := refs v; camera_position := camera_position v;
     controls_target := controls_target v; cameraRef := cameraRef v;
     controlsRef := controlsRef v; defaultCamPosRef := defaultCamPosRef v;
     defaultTargetRef := defaultTargetRef v; resetAnimRef := resetAnimRef v;
     timeout := timeout v; pointer_listeners := pointer_listeners v;
     mouse_listeners := mouse_listeners v; scene := scene v;
     next_object := next_object v; timers := timers v;
     animation_frames := animation_frames v; next_handle := a;
     host_calls := host_calls v |}.

Definition set_host_calls (a : list HostCall) (v : Viewer) : Viewer :=
  {| enableInteraction := enableInteraction v; mounted := mounted v;
     refs := refs v; camera_position := camera_position v;
     controls_target := controls_target v; cameraRef := cameraRef v;
     controlsRef := controlsRef v; defaultCamPosRef := defaultCamPosRef v;
     defaultTargetRef := defaultTargetRef v; resetAnimRef := resetAnimRef v;
     timeout := timeout v; pointer_listeners := pointer_listeners v;
     mouse_listeners := mouse_listeners v; scene := scene v;
     next_object := next_object v; timers := timers v;
     animation_frames := animation_frames v; next_handle := next_handle v;
     host_calls := a |}.

Global Instance Viewer_eq_dec : EqDecision Viewer.
Proof. solve_decision. Defined.

(** *** Browser primitives *)

Definition setTimeout (cb : TimerCallback) (delay : Qc) (v : Viewer)
  : positive * Viewer :=
  let h := next_handle v in
  (h, set_next_handle (Pos.succ h) (set_timers (<[h := (cb, delay)]> (timers v)) v)).

Definition clearTimeout (h : positive) (v : Viewer) : Viewer :=
  set_timers (delete h (timers v)) v.

Definition requestAnimationFrame (cl : AnimateClosure) (v : Viewer)
  : positive * Viewer :=
  let h := next_handle v in
  (h, set_next_handle (Pos.succ h)
        (set_animation_frames (<[h := cl]> (animation_frames v)) v)).

Definition cancelAnimationFrame (h : positive) (v : Viewer) : Viewer :=
  set_animation_frames (delete h (animation_frames v)) v.

(** *** Constants of the component *)

Definition introCamStart : Vector3.t := Vector3.mk (dec 1 2) 1 0.
Definition introCamEnd : Vector3.t := Vector3.mk 2 1 0.
Definition introCamTarget : Vector3.t := Vector3.mk 0 1 0.

Definition introPoseClip : Clip :=
  {| name := "intro-pose"; loop := None;
     frames :=
       [ mkKeyframe 0
           (<["shoulder_pan_joint" := dec 181 100]>
            (<["shoulder_lift_joint" := 2]>
            (<["elbow_flex_joint" := dec 171 100]>
            (<["wrist_flex_joint" := dec 15 10]>
            (<["wrist_roll_joint" := dec 5 100]>
            (<["torso_lift_joint" := dec 3 100]>
            (<["upperarm_roll_joint" := dec 12 100]> ∅)))))));
         mkKeyframe (dec 8 10)
           (<["shoulder_pan_joint" := dec 181 100]>
            (<["shoulder_lift_joint" := 2]>
            (<["elbow_flex_joint" := dec 171 100]>
            (<["wrist_flex_joint" := dec 15 10]>
            (<["wrist_roll_joint" := dec 5 100]>
            (<["torso_lift_joint" := dec 1 10]>
            (<["upperarm_roll_joint" := dec (-307) 100]> ∅)))))));
         mkKeyframe (Qc_of_Z 5)
           (<["shoulder_pan_joint" := dec (-3) 10]>
            (<["shoulder_lift_joint" := dec (-7) 10]>
            (<["elbow_flex_joint" := dec (-9) 10]>
            (<["wrist_flex_joint" := dec 4 10]>
            (<["wrist_roll_joint" := dec (-6) 10]>
            (<["torso_lift_joint" := dec 5 100]> ∅)))))) ] |}.

(** [nowSec()]: [performance.now() / 1000]. *)
Definition nowSec (now_ms : Qc) : Qc := now_ms / Qc_of_Z 1000.

(** [playClip(clip)] *)
Definition playClip (c : Clip) (now_ms : Qc) (v : Viewer) : Viewer :=
  set_refs (set_clipRef (Some (mkPlayback c (nowSec now_ms))) (refs v)) v.

(** *** The inactivity reset *)

Definition reset_duration : Qc := Qc_of_Z 1200.
Definition inactivity_delay : Qc := Qc_of_Z 2000.

(** The frame callback [animate(now)] of [smoothReset], for controls whose
    [update()] leaves the pose as written ([animate_with] below takes their
    answer as a parameter).  A missing camera or controls object raises a
    [TypeError], which ends the callback. *)
Definition animate (cl : AnimateClosure) (now : Qc) (v : Viewer) : Viewer :=
  let t := Qcmin 1 ((now - anim_start cl) / reset_duration) in
  let e := eased t in
  if cameraRef v then
    let v1 :=
      set_camera_position (Vector3.lerpVectors (startPos cl) (endPos cl) e) v in
    if controlsRef v then
      let v2 :=
        set_controls_target
          (Vector3.lerpVectors (startTarget cl) (endTarget cl) e) v1 in
      if decide (t < 1) then
        let '(h, v3) := requestAnimationFrame cl v2 in
        set_resetAnimRef (Some h) v3
      else set_resetAnimRef None v2
    else v1
  else v.

(** [smoothReset()], the body of [resetView]. *)
Definition smoothReset (now : Qc) (v : Viewer) : Viewer :=
  match defaultCamPosRef v with
  | Some default_pos =>
      if cameraRef v && controlsRef v then
        let v1 :=
          match resetAnimRef v with
          | Some h => cancelAnimationFrame h v
          | None => v
          end in
        let cl :=
          {| startPos := camera_position v1;
             endPos := default_pos;
             startTarget := controls_target v1;
             endTarget := defaultTargetRef v1;
             anim_start := now |} in
        let '(h, v2) := requestAnimationFrame cl v1 in
        set_resetAnimRef (Some h) v2
      else v
  | None => v
  end.

(** [resetTimer()]: clear the pending inactivity timeout and arm a new one. *)
Definition resetTimer (v : Viewer) : Viewer :=
  let v1 :=
    match timeout v with
    | Some h => clearTimeout h v
    | None => v
    end in
  let '(h, v2) := setTimeout ResetView inactivity_delay v1 in
  set_timeout (Some h) v2.

(** *** Mounting and the effects *)

(** The state after the first render and its effects: the listeners on
    [window] are registered; with interaction enabled and a container node,
    the inactivity timeout is armed and the five listeners are registered.
    (The [!enableInteraction] effect resets the clip and the head target,
    which are still in their initial state.) *)
Definition mount (enable node : bool) : Viewer :=
  let v0 :=
    {| enableInteraction := enable;
       mounted := true;
       refs := {| robotRef := None; jointMapRef := ∅; clipRef := None;
                  headTargetRef := mkHeadTarget 0%num 0%num false |};
       camera_position := Vector3.mk (dec 25 10) (dec 15 10) (dec 25 10);
       controls_target := Vector3.mk 0 0 0;
       cameraRef := false;
       controlsRef := false;
       defaultCamPosRef := None;
       defaultTargetRef := Vector3.mk 0 1 0;
       resetAnimRef := None;
       timeout := None;
       pointer_listeners := false;
       mouse_listeners := true;
       scene := [];
       next_object := 0%nat;
       timers := ∅;
       animation_frames := ∅;
       next_handle := 1%positive;
       host_calls := [] |} in
  if enable && node then set_pointer_listeners true (resetTimer v0) else v0.

(** [maxDim || 1] *)
Definition or_one (a : Qc) : Qc := if decide (a = 0) then 1 else a.

(** The camera placement computed from the bounding box in [FetchRobot]. *)
Definition fit_startPos (robot : URDFRobot) : Vector3.t :=
  let center := Vector3.add (box_center robot) (Vector3.mk 0 1 0) in
  let size := box_size robot in
  let maxDim :=
    Qcmax (Qcmax (Vector3.x size) (Vector3.y size)) (Vector3.z size) in
  let radius := Qcmax (dec 1 2) (or_one maxDim) in
  Vector3.add center (Vector3.mk 0 0 (radius * 1)).

(** The [onIntroCamera] handler of the viewer, for controls whose
    [update()] leaves the pose as written. *)
Definition onIntroCamera (v : Viewer) : Viewer :=
  let v1 := if cameraRef v then set_camera_position introCamStart v else v in
  let v2 := if controlsRef v1 then set_controls_target introCamTarget v1 else v1 in
  set_defaultCamPosRef (Some introCamEnd) (set_defaultTargetRef introCamTarget v2).

(** The [onReady] handler of the viewer: report the load, play the intro
    pose and arm the completion timeout. *)
Definition onReady (now_ms : Qc) (v : Viewer) : Viewer :=
  let v1 := set_host_calls (host_calls v ++ [OnLoaded]) v in
  let v2 := playClip introPoseClip now_ms v1 in
  let introMs :=
    default 0 (time <$> last (frames introPoseClip)) * Qc_of_Z 1000 in
  (setTimeout WaveComplete (introMs + Qc_of_Z 1000) v2).2.

(** The [.then] callback of the [FetchRobot] effect. *)
Definition onPreloaded (preloaded : option URDFRobot) (now_ms : Qc)
    (v : Viewer) : Viewer :=
  match preloaded with
  | None => v                                       (* [if (!preloaded) return] *)
  | Some template =>
      let robot := next_object v in                 (* [preloaded.clone(true)] *)
      let v1 := set_next_object (S robot) (set_scene (scene v ++ [robot]) v) in
      let v2 :=
        set_refs
          {| robotRef := Some robot;
             jointMapRef := default ∅ (robot_joints template);
             clipRef := clipRef (refs v1);
             headTargetRef := mkHeadTarget 0%num 0%num false |} v1 in
      let v3 := set_camera_position (fit_startPos template) v2 in
      onReady now_ms (onIntroCamera v3)
  end.

(** The cleanup functions returned by the effects.  React's own teardown
    (it detaches the refs of the unmounted elements, [controlsRef] among
    them) is not part of them. *)
Definition unmount (v : Viewer) : Viewer :=
  (* FetchRobot: [if (robotRef.current) scene.remove(robotRef.current)] *)
  let v1 :=
    match robotRef (refs v) with
    | Some robot => set_scene (filter (λ o, o ≠ robot) (scene v)) v
    | None => v
    end in
  (* the listeners on window *)
  let v2 := set_mouse_listeners false v1 in
  (* the inactivity effect, if it had registered *)
  let v3 :=
    if pointer_listeners v2 then
      let v' :=
        match timeout v2 with
        | Some h => clearTimeout h v2
        | None => v2
        end in
      set_pointer_listeners false v'
    else v2 in
  set_mounted false v3.

(** [window.innerWidth || 1] and the normalisation of the pointer. *)
Definition normalise (client inner : Qc) : number :=
  MathUtils.clamp (Fin (client / or_one inner * 2 - 1)) (Fin (-1)) 1%num.

Definition handleMove (clientX clientY innerWidth innerHeight : Qc)
    (v : Viewer) : Viewer :=
  if enableInteraction v then
    set_refs
      {| robotRef := robotRef (refs v);
         jointMapRef := jointMapRef (refs v);
         clipRef := clipRef (refs v);
         headTargetRef :=
           mkHeadTarget (normalise clientX innerWidth)
                        (normalise clientY innerHeight) true |} v
  else v.

Definition handleLeave (v : Viewer) : Viewer :=
  set_refs
    {| robotRef := robotRef (refs v);
       jointMapRef := jointMapRef (refs v);
       clipRef := clipRef (refs v);
       headTargetRef := mkHeadTarget 0%num 0%num false |} v.

(** The default-pose capture of the frame callback. *)
Definition captureDefaults (v : Viewer) : Viewer :=
  let v1 :=
    match defaultCamPosRef v with
    | None => set_defaultCamPosRef (Some (camera_position v)) v
    | Some _ => v
    end in
  if decide (Vector3.lengthSq (defaultTargetRef v1) = 0)
  then set_defaultTargetRef (Vector3.mk 0 1 0) v1
  else v1.

(** *** Events *)

Inductive Event : Type :=
  | CanvasCreated                      (* [onCreated]; the controls mount *)
  | Preloaded (preloaded : option URDFRobot) (now_ms : Qc)
  | PointerActivity                    (* pointermove, wheel, touchstart,
                                          pointerdown or pointerenter on the
                                          container *)
  | MouseMove (clientX clientY innerWidth innerHeight : Qc)
  | MouseLeave                         (* mouseleave or blur on window *)
  | TimerFired (h : positive) (now_ms : Qc)
  | AnimationFrame (h : positive) (now_ms : Qc)
  | RenderFrame (now_ms : Qc)          (* the [useFrame] callback *)
  | Unmount.

Section Viewer.
Variable DEG2RAD : Qc.

(** The [useFrame] callback of [ClipRunner]; a [TypeError] of the clip
    runner ends the callback before anything is written. *)
Definition renderFrame (now_ms : Qc) (v : Viewer) : Viewer :=
  match useFrame_hero DEG2RAD (enableInteraction v) (nowSec now_ms) (refs v) with
  | Some r => captureDefaults (set_refs r v)
  | None => v
  end.

Definition step (ev : Event) (v : Viewer) : Viewer :=
  match ev with
  | CanvasCreated => set_controlsRef true (set_cameraRef true v)
  | Preloaded preloaded now_ms => onPreloaded preloaded now_ms v
  | PointerActivity => if pointer_listeners v then resetTimer v else v
  | MouseMove cx cy w h =>
      if mouse_listeners v then handleMove cx cy w h v else v
  | MouseLeave => if mouse_listeners v then handleLeave v else v
  | TimerFired h now_ms =>
      match timers v !! h with
      | Some (cb, _) =>
          let v1 := set_timers (delete h (timers v)) v in
          match cb with
          | ResetView => smoothReset now_ms v1
          | WaveComplete =>
              set_host_calls (host_calls v1 ++ [OnWaveComplete]) v1
          end
      | None => v
      end
  | AnimationFrame h now_ms =>
      match animation_frames v !! h with
      | Some cl =>
          animate cl now_ms
            (set_animation_frames (delete h (animation_frames v)) v)
      | None => v
      end
  | RenderFrame now_ms => if mounted v then renderFrame now_ms v else v
  | Unmount => if mounted v then unmount v else v
  end.

Definition run (evs : list Event) (v : Viewer) : Viewer :=
  foldl (λ w ev, step ev w) v evs.

End Viewer.
(** ** Concrete data used in examples *)

Definition joint0 : URDFJoint :=
  {| setJointValue_is_function := true; jointValue := None |}.

Definition joint_at (v : number) : URDFJoint := setJointValue joint0 v.

Definition idle_target : HeadTarget := mkHeadTarget 0%num 0%num false.

(** The clip of the scenario: [a] goes from 0 at time 0 to 1 at time 1. *)
Definition ramp_clip : Clip :=
  {| name := "ramp"; loop := None;
     frames := [ mkKeyframe 0 {[ "a" := 0 ]}; mkKeyframe 1 {[ "a" := 1 ]} ] |}.

Definition ramp_refs : Refs :=
  {| robotRef := Some 0%nat;
     jointMapRef := {[ "a" := joint0 ]};
     clipRef := Some (mkPlayback ramp_clip 0);
     headTargetRef := idle_target |}.

(** The same playback after the frame at 0.5 s. *)
Definition ramp_refs_mid : Refs :=
  set_jointMap {[ "a" := joint_at (Fin (dec 1 2)) ]} ramp_refs.

(** A looping clip with a single keyframe at time 0 (duration 0). *)
Definition still_clip : Clip :=
  {| name := "still"; loop := Some true;
     frames := [ mkKeyframe 0 {[ "a" := 1 ]} ] |}.

Definition still_refs : Refs :=
  {| robotRef := Some 0%nat;
     jointMapRef := {[ "a" := joint0 ]};
     clipRef := Some (mkPlayback still_clip 0);
     headTargetRef := idle_target |}.

(** A clip whose first keyframe is at 1 s and whose last keyframe names a
    joint the first one does not. *)
Definition late_first : Keyframe := mkKeyframe 1 {[ "a" := 1 ]}.
Definition late_last : Keyframe := mkKeyframe 2 {[ "b" := Qc_of_Z 5 ]}.

Definition late_clip : Clip :=
  {| name := "late"; loop := None; frames := [ late_first; late_last ] |}.

Definition late_refs : Refs :=
  {| robotRef := Some 0%nat;
     jointMapRef := {[ "a" := joint0; "b" := joint0 ]};
     clipRef := Some (mkPlayback late_clip 0);
     headTargetRef := idle_target |}.

(** The value last written to a joint. *)
Definition joint_reading (s : Refs) (nm : string) : option number :=
  j ← jointMapRef s !! nm; jointValue j.

(** Entry of the registry after [write_joint]. *)
Definition written (f1 f2 : Keyframe) (alpha : number) (nm : string)
    (o : option URDFJoint) : option URDFJoint :=
  match o with
  | Some j =>
      if setJointValue_is_function j
      then Some (setJointValue j (sample_value f1 f2 alpha nm))
      else Some j
  | None => None
  end.

(** Keyframe times never decrease along the clip. *)
Definition times_sorted (fs : list Keyframe) : Prop :=
  StronglySorted (λ a b, time a ≤ time b) fs.

(** [clamp01] of the interpolation factor, as the specification words it. *)
Definition clamp01 (x : number) : number := Math_min 1%num (Math_max 0%num x).

(** Registry entry [nm] after a frame that samples the bracket [(f1, f2)]
    with factor [alpha]: a settable joint named by either keyframe receives
    [v]; every other entry is left as it was. *)
Definition entry_after (f1 f2 : Keyframe) (nm : string) (v : number)
    (o : option URDFJoint) : option URDFJoint :=
  match o with
  | Some j =>
      if bool_decide (nm ∈ dom (joints f1) ∪ dom (joints f2))
         && setJointValue_is_function j
      then Some (setJointValue j v)
      else Some j
  | None => None
  end.

(** The pointer held at the viewport edge. *)
Definition edge_target : HeadTarget := mkHeadTarget 1%num 1%num true.

(** The angle a head joint currently holds ([jointValue ?? 0]). *)
Definition current_angle (s : Refs) (nm : string) : number :=
  default 0%num (joint_reading s nm).

(** Exponential smoothing from [c] toward [d] with factor [k], after [n]
    frames. *)
Definition smoothed (k d c : Qc) (n : nat) : Qc := d - (1 - k) ^ n * (d - c).

(** A playback that can run next to head follow: its clip has keyframes and
    none of them names a head joint. *)
Definition playback_spares_head (o : option Playback) : Prop :=
  match o with
  | None => True
  | Some pb =>
      frames (clip pb) ≠ [] ∧
      ∀ f, f ∈ frames (clip pb) →
           joints f !! "head_pan_joint" = None ∧
           joints f !! "head_tilt_joint" = None
  end.

(** Joint [nm] is in the registry with a [setJointValue] and currently
    holds the finite angle [a]. *)
Definition holds_angle (s : Refs) (nm : string) (a : Qc) : Prop :=
  ∃ j, jointMapRef s !! nm = Some j ∧
       setJointValue_is_function j = true ∧
       default 0%num (jointValue j) = Fin a.

(** The situation of the head-follow scenario: pointer at the edge, a
    playback (if any) that leaves the head alone, and both head joints at
    finite angles. *)
Definition following_edge (s : Refs) (pan tilt : Qc) : Prop :=
  headTargetRef s = edge_target ∧
  playback_spares_head (clipRef s) ∧
  holds_angle s "head_pan_joint" pan ∧
  holds_angle s "head_tilt_joint" tilt.

(** A registry with both head joints at rest. *)
Definition head_refs : Refs :=
  {| robotRef := Some 0%nat;
     jointMapRef := {[ "head_pan_joint" := joint0; "head_tilt_joint" := joint0 ]};
     clipRef := None;
     headTargetRef := edge_target |}.

(** A rational close to [Math.PI / 180], for concrete runs. *)
Definition DEG2RAD_approx : Qc := dec 1745329 100000000.

(** The easing curve as the specification words it:
    [t < 0.5 ? 2t² : 1 − (−2t + 2)² / 2]. *)
Definition eased_spec (t : Qc) : Qc :=
  if decide (t < dec 1 2) then 2 * t ^ 2 else 1 - (-2 * t + 2) ^ 2 / 2.

(** A loaded robot with a head, for concrete runs. *)
Definition demo_robot : URDFRobot :=
  {| robot_joints :=
       Some {[ "head_pan_joint" := joint0; "head_tilt_joint" := joint0 ]};
     box_center := Vector3.mk 0 (dec 1 2) 0;
     box_size := Vector3.mk 1 1 1 |}.

(** A mounted viewer whose robot has loaded at time 0. *)
Definition loaded_viewer : Viewer :=
  run DEG2RAD_approx [CanvasCreated; Preloaded (Some demo_robot) 0]
      (mount true true).



(** The load request of the first [Ensure] of a sequence, if any. *)
Fixpoint first_request (evs : list CacheEvent) : option LoadCall :=
  match evs with
  | [] => None
  | Ensure assetsBase urdfUrl :: _ => Some (mkLoadCall urdfUrl assetsBase)
  | LoaderDone _ _ :: rest => first_request rest
  end.

(** Number of [ensureFetchPreload] calls in a sequence. *)
Fixpoint ensure_count (evs : list CacheEvent) : nat :=
  match evs with
  | [] => 0
  | Ensure _ _ :: rest => S (ensure_count rest)
  | LoaderDone _ _ :: rest => ensure_count rest
  end.

(** No promise is rejected: the executor only ever calls [resolve]. *)
Definition never_rejected (st : Preload) : Prop :=
  ∀ p, promises st !! p ≠ Some Rejected.

(** ** Further notions used to state properties of the engine *)

(** Consecutive keyframes are at least [epsilon] apart. *)
Definition times_spaced (fs : list Keyframe) : Prop :=
  ∀ i a b, fs !! i = Some a → fs !! S i = Some b → time a + epsilon ≤ time b.

(** [f1] and [f2] are neighbours in the clip, or the clip's only keyframe. *)
Definition neighbours (fs : list Keyframe) (f1 f2 : Keyframe) : Prop :=
  (∃ i, fs !! i = Some f1 ∧ fs !! S i = Some f2) ∨ (fs = [f1] ∧ f2 = f1).

(** The ramp of the scenario as a loop, playing since time 0. *)
Definition looping_ramp_clip : Clip :=
  {| name := "ramp"; loop := Some true; frames := frames ramp_clip |}.

Definition looping_ramp_refs : Refs :=
  set_clipRef (Some (mkPlayback looping_ramp_clip 0)) ramp_refs.

(** [clamp(x, -1, 1)] on rationals. *)
Definition clamp_unit (x : Qc) : Qc := Qcmax (-1) (Qcmin 1 x).

(** The angle head follow steers a joint to: the clamped pointer coordinate
    (0 while the pointer is inactive) scaled to [range] degrees. *)
Definition head_goal (DEG2RAD : Qc) (act : bool) (coord range : Qc) : Qc :=
  clamp_unit (if act then coord else 0) * range * DEG2RAD.

(** A head target with finite coordinates, a playback that leaves the head
    alone, and both head joints at finite angles. *)
Definition following (s : Refs) (x y : Qc) (act : bool) (pan tilt : Qc) : Prop :=
  headTargetRef s = mkHeadTarget (Fin x) (Fin y) act ∧
  playback_spares_head (clipRef s) ∧
  holds_angle s "head_pan_joint" pan ∧
  holds_angle s "head_tilt_joint" tilt.

(** A registry whose head joints are at 1 rad, with the pointer away. *)
Definition turned_head_refs : Refs :=
  {| robotRef := Some 0%nat;
     jointMapRef := {[ "head_pan_joint" := joint_at 1%num;
                       "head_tilt_joint" := joint_at 1%num ]};
     clipRef := None;
     headTargetRef := idle_target |}.

(** *** Invariants of the viewer's scheduling *)

(** Every pending timer and animation frame has a handle below the next
    handle to be issued. *)
Definition handles_fresh (v : Viewer) : Prop :=
  (∀ h, is_Some (timers v !! h) → (h < next_handle v)%positive) ∧
  (∀ h, is_Some (animation_frames v !! h) → (h < next_handle v)%positive).

(** A pending animation frame is the one [resetAnimRef] holds. *)
Definition single_reset_frame (v : Viewer) : Prop :=
  ∀ h, is_Some (animation_frames v !! h) → resetAnimRef v = Some h.

(** A pending inactivity timeout is the one [timeout] holds, and it is only
    pending while the listeners are registered. *)
Definition single_inactivity_timeout (v : Viewer) : Prop :=
  ∀ h d, timers v !! h = Some (ResetView, d) →
         timeout v = Some h ∧ pointer_listeners v = true.

Definition well_scheduled (v : Viewer) : Prop :=
  handles_fresh v ∧ single_reset_frame v ∧ single_inactivity_timeout v.

(** No inactivity reset is armed, pending or running. *)
Definition reset_off (v : Viewer) : Prop :=
  pointer_listeners v = false ∧
  (∀ h d, timers v !! h ≠ Some (ResetView, d)) ∧
  animation_frames v = ∅ ∧
  resetAnimRef v = None.

(** The pointer is ignored: interaction is disabled and the head target is
    at rest. *)
Definition pointer_ignored (v : Viewer) : Prop :=
  enableInteraction v = false ∧ headTargetRef (refs v) = idle_target.

(** The event delivers a loaded robot. *)
Definition loads_robot (ev : Event) : Prop :=
  ∃ r now_ms, ev = Preloaded (Some r) now_ms.

(** [lo ≤ p ≤ hi] on every axis, whichever of [a], [b] is the greater. *)
Definition within_box (a b p : Vector3.t) : Prop :=
  Qcmin (Vector3.x a) (Vector3.x b) ≤ Vector3.x p
    ∧ Vector3.x p ≤ Qcmax (Vector3.x a) (Vector3.x b) ∧
  Qcmin (Vector3.y a) (Vector3.y b) ≤ Vector3.y p
    ∧ Vector3.y p ≤ Qcmax (Vector3.y a) (Vector3.y b) ∧
  Qcmin (Vector3.z a) (Vector3.z b) ≤ Vector3.z p
    ∧ Vector3.z p ≤ Qcmax (Vector3.z a) (Vector3.z b).

(** A pointer burst on a viewer without container node. *)
Definition no_container_events : list Event :=
  [CanvasCreated; PointerActivity; TimerFired 1 (Qc_of_Z 2000);
   RenderFrame (Qc_of_Z 2016); AnimationFrame 1 (Qc_of_Z 2032); Unmount].

(** ** Public URLs (the head of every viewer module) *)

From Stdlib Require Import Ascii.

(** [b.endsWith("/")] *)
Fixpoint endsWith_slash (b : string) : bool :=
  match b with
  | EmptyString => false
  | String c rest =>
      match rest with
      | EmptyString => bool_decide (c = "/"%char)
      | String _ _ => endsWith_slash rest
      end
  end.

(** [baseUrl]: [import.meta.env?.BASE_URL || "/"], with a slash appended
    when it does not end with one.  [None] is an undefined [BASE_URL]; the
    empty string is falsy. *)
Definition baseUrl (BASE_URL : option string) : string :=
  let b :=
    match BASE_URL with
    | Some s => if decide (s = EmptyString) then "/" else s
    | None => "/"
    end in
  if endsWith_slash b then b else b +:+ "/".

(** [p.replace(/^\/+/, "")]: the leading slashes are removed. *)
Fixpoint strip_slashes (p : string) : string :=
  match p with
  | EmptyString => EmptyString
  | String c rest => if decide (c = "/"%char) then strip_slashes rest else p
  end.

Definition resolvePublic (BASE_URL : option string) (p : string) : string :=
  baseUrl BASE_URL +:+ strip_slashes p.

(** The string starts with a slash. *)
Definition starts_with_slash (p : string) : bool :=
  match p with
  | String c _ => bool_decide (c = "/"%char)
  | EmptyString => false
  end.

(** The two URLs every viewer computes. *)
Definition assetsBase (BASE_URL : option string) : string :=
  resolvePublic BASE_URL "assets/fetch/".
Definition urdfUrl (BASE_URL : option string) : string :=
  resolvePublic BASE_URL "assets/fetch/fetch.urdf".

(** ** Loading: further notions *)

(** The value the loader's callback settles the promise with. *)
Definition result_value (r : LoaderResult) : option URDFRobot :=
  match r with
  | Loaded robot => Some robot
  | Failed => None
  end.

Definition is_ensure (ev : CacheEvent) : Prop :=
  match ev with
  | Ensure _ _ => True
  | LoaderDone _ _ => False
  end.

(** A viewer unmounted before its model has loaded. *)
Definition unmounted_viewer : Viewer :=
  run DEG2RAD_approx [CanvasCreated; Unmount] (mount true true).

(** ** The orbit controls and the frames of a reset *)

(** [controlsRef.current.update()].  The orbit controls re-derive the
    camera position from the target under their own state and limits
    (damping, [maxPolarAngle], distance); they are a library outside the
    viewer.  What one call makes of the pose it finds is a parameter:
    [update pos tgt] is the camera position and the target the call leaves
    when it finds the camera at [pos] and the target at [tgt].  Every call
    has its own answer, since the controls carry state of their own. *)
Definition ControlsUpdate : Type := Vector3.t → Vector3.t → Vector3.t * Vector3.t.

(** Controls that leave the pose as they find it. *)
Definition leaves_pose : ControlsUpdate := λ pos tgt, (pos, tgt).

(** The frame callback [animate(now)] of [smoothReset] with the answer of
    [controls.update()] made explicit: the camera position is written, then
    the target, then the controls are updated, then the next frame is
    requested or [resetAnimRef] cleared.  A missing camera or controls
    object raises a [TypeError], which ends the callback. *)
Definition animate_with (update : ControlsUpdate) (cl : AnimateClosure)
    (now : Qc) (v : Viewer) : Viewer :=
  let t := Qcmin 1 ((now - anim_start cl) / reset_duration) in
  let e := eased t in
  if cameraRef v then
    let pos := Vector3.lerpVectors (startPos cl) (endPos cl) e in
    let v1 := set_camera_position pos v in
    if controlsRef v then
      let tgt := Vector3.lerpVectors (startTarget cl) (endTarget cl) e in
      let v2 :=
        set_controls_target (update pos tgt).2
          (set_camera_position (update pos tgt).1 v1) in
      if decide (t < 1) then
        let '(h, v3) := requestAnimationFrame cl v2 in
        set_resetAnimRef (Some h) v3
      else set_resetAnimRef None v2
    else v1
  else v.

(** The browser runs the animation frame [h] at [now]. *)
Definition animationFrame_with (update : ControlsUpdate) (h : positive)
    (now : Qc) (v : Viewer) : Viewer :=
  match animation_frames v !! h with
  | Some cl =>
      animate_with update cl now
        (set_animation_frames (delete h (animation_frames v)) v)
  | None => v
  end.

(** Successive animation frames of a reset: each entry is the time of a
    frame and the answer of the controls in it; the frame that runs is the
    one [resetAnimRef] names. *)
Fixpoint reset_frames (frames : list (Qc * ControlsUpdate)) (v : Viewer)
  : Viewer :=
  match frames with
  | [] => v
  | (now, update) :: rest =>
      match resetAnimRef v with
      | Some h => reset_frames rest (animationFrame_with update h now v)
      | None => v
      end
  end.

(** A reset with closure [cl] is in flight: its frame is the only one
    pending and camera and controls exist. *)
Definition in_flight (cl : AnimateClosure) (v : Viewer) : Prop :=
  ∃ h, resetAnimRef v = Some h ∧ animation_frames v = {[h := cl]} ∧
       cameraRef v = true ∧ controlsRef v = true.

(** The frames of the scenario: one at 600 ms into the reset, the last one
    at 1200 ms, the controls leaving the pose as written. *)
Definition one_early_frame : list (Qc * ControlsUpdate) :=
  [(Qc_of_Z 2600, leaves_pose)].
Definition last_frame : Qc * ControlsUpdate := (Qc_of_Z 3200, leaves_pose).

(** *** The arithmetic of a frame in binary64

    The same expressions on IEEE-754 doubles, as the program evaluates
    them. *)

From Stdlib Require Import PrimFloat.

Module F64.

(** [Math.min(a, b)] on numbers that are not [NaN]. *)
Definition min (a b : float) : float := if (b <? a)%float then b else a.

(** [t < 0.5 ? 2 * t * t : -1 + (4 - 2 * t) * t] *)
Definition eased (t : float) : float :=
  (if t <? 0.5 then 2 * t * t else -1 + (4 - 2 * t) * t)%float.

(** One component of [lerpVectors(v1, v2, alpha)]:
    [v1 + (v2 - v1) * alpha]. *)
Definition lerp (a b alpha : float) : float := (a + (b - a) * alpha)%float.

(** The component [animate(now)] writes for a reset started at [start] that
    goes from [from] to [to]. *)
Definition animate_component (from to start now : float) : float :=
  lerp from to (eased (min 1 ((now - start) / 1200)%float)).

End F64.

(** ** The demo pages (pages/FetchDemo.tsx) *)

(** One write of a pose entry:
    [const j = jointMapRef.current[name];
     if (j && typeof j.setJointValue === "function") j.setJointValue(value)]. *)
Definition set_joint (nm : string) (value : number)
    (reg : gmap string URDFJoint) : gmap string URDFJoint :=
  match reg !! nm with
  | Some j =>
      if setJointValue_is_function j
      then <[nm := setJointValue j value]> reg
      else reg
  | None => reg
  end.

(** [Object.entries(values).forEach(([name, value]) => ...)], the loop that
    applies the base pose at load and the slider values on every frame. *)
Definition applyJointValues (values : gmap string number)
    (reg : gmap string URDFJoint) : gmap string URDFJoint :=
  map_fold set_joint reg values.

(** *** The joint tweaks page *)

Module Tweaks.

(** The refs of the page's [FetchRobot] and the state of the page. *)
Record t : Type := mk {
  robotRef : option nat;
  jointMapRef : gmap string URDFJoint;
  jointNames : list string;
  jointValues : gmap string number
}.

Definition init : t :=
  {| robotRef := None; jointMapRef := ∅; jointNames := []; jointValues := ∅ |}.

(** [onJointsDetected(names)]: the names are stored and every name without
    a value gets 0; [typeof next[n] !== "number"] holds exactly for the
    names without an entry. *)
Definition onJointsDetected (names : list string) (st : t) : t :=
  {| robotRef := robotRef st;
     jointMapRef := jointMapRef st;
     jointNames := names;
     jointValues :=
       foldl (λ next n, if next !! n is Some _ then next else <[n := 0%num]> next)
             (jointValues st) names |}.

(** The [onLoad] callback of the loader: the robot is registered, the base
    pose applied and the detected joints reported.  [names] are the names of
    the joints whose [jointType] is not fixed. *)
Definition onLoad (robot : nat) (joints : option (gmap string URDFJoint))
    (basePose : option (gmap string Qc)) (names : list string) (st : t) : t :=
  let reg := default ∅ joints in
  let reg1 :=
    match basePose with
    | Some pose => applyJointValues (Fin <$> pose) reg
    | None => reg
    end in
  onJointsDetected names
    {| robotRef := Some robot; jointMapRef := reg1;
       jointNames := jointNames st; jointValues := jointValues st |}.

(** The [useFrame] callback. *)
Definition useFrame (st : t) : t :=
  match robotRef st with
  | None => st
  | Some _ =>
      {| robotRef := robotRef st;
         jointMapRef := applyJointValues (jointValues st) (jointMapRef st);
         jointNames := jointNames st;
         jointValues := jointValues st |}
  end.

(** A slider's [onChange]: [{ ...prev, [name]: parseFloat(value) }]. *)
Definition onChange (nm : string) (value : number) (st : t) : t :=
  {| robotRef := robotRef st;
     jointMapRef := jointMapRef st;
     jointNames := jointNames st;
     jointValues := <[nm := value]> (jointValues st) |}.

(** [resetJoints()] *)
Definition resetJoints (st : t) : t :=
  {| robotRef := robotRef st;
     jointMapRef := jointMapRef st;
     jointNames := jointNames st;
     jointValues := foldl (λ next n, <[n := 0%num]> next) ∅ (jointNames st) |}.

End Tweaks.

(** What a pose entry makes of a joint. *)
Definition posed (values : gmap string number) (nm : string) (j : URDFJoint)
  : URDFJoint :=
  match values !! nm with
  | Some v => if setJointValue_is_function j then setJointValue j v else j
  | None => j
  end.

(** The base pose of the demo pages and a robot with an arm and a fixed
    joint. *)
Definition demo_basePose : gmap string Qc :=
  {[ "shoulder_pan_joint" := dec 12 10; "shoulder_lift_joint" := dec (-3) 10;
     "elbow_flex_joint" := dec (-2) 10; "forearm_roll_joint" := 0;
     "wrist_flex_joint" := 0; "wrist_roll_joint" := 0 ]}.

Definition demo_joints : gmap string URDFJoint :=
  {[ "shoulder_pan_joint" := joint0; "elbow_flex_joint" := joint0;
     "base_joint" := mkJoint false None ]}.

(** ** The intro cameras *)

(** *** The drift of the hero viewer ([introCamAnimRef]) *)

Module IntroCamAnim.

Record t : Type := mk {
  active : bool;
  start : Qc;
  duration : Qc;
  from : Vector3.t;
  to : Vector3.t;
  target : Vector3.t
}.

Definition init : t :=
  {| active := false; start := 0; duration := 0;
     from := Vector3.mk 0 0 0; to := Vector3.mk 0 0 0;
     target := Vector3.mk 0 0 0 |}.

Definition set_active (b : bool) (a : t) : t :=
  {| active := b; start := start a; duration := duration a;
     from := from a; to := to a; target := target a |}.

End IntroCamAnim.

Definition introCamDuration : Qc := Qc_of_Z 3500.

(** What [onIntroCamera] stores in [introCamAnimRef] at [now_ms]. *)
Definition onIntroCamera_anim (now_ms : Qc) : IntroCamAnim.t :=
  {| IntroCamAnim.active := true;
     IntroCamAnim.start := now_ms;
     IntroCamAnim.duration := introCamDuration;
     IntroCamAnim.from := introCamStart;
     IntroCamAnim.to := introCamEnd;
     IntroCamAnim.target := introCamTarget |}.

(** The head of the hero viewer's [useFrame] callback, on the animation ref
    and the camera position.  An active animation of duration 0 makes the
    quotient infinite or [NaN] in JavaScript; that case, which no writer of
    the ref produces, is outside the model ([None]). *)
Definition introDrift (enableInteraction : bool) (now_ms : Qc)
    (a : IntroCamAnim.t) (camera : Vector3.t)
  : option (IntroCamAnim.t * Vector3.t) :=
  if negb enableInteraction && IntroCamAnim.active a then
    if decide (IntroCamAnim.duration a = 0) then None
    else
      let t :=
        Qcmin 1 ((now_ms - IntroCamAnim.start a) / IntroCamAnim.duration a) in
      let camera' :=
        Vector3.lerpVectors (IntroCamAnim.from a) (IntroCamAnim.to a)
                            (eased t) in
      Some (if decide (1 ≤ t) then IntroCamAnim.set_active false a else a,
            camera')
  else Some (a, camera).

(** *** The intro camera of the demo page *)

Module DemoCamera.

(** [cameraAnimRef] *)
Record CameraAnim : Type := mkAnim {
  start : Qc;
  duration : Qc;
  startPos : Vector3.t;
  endPos : Vector3.t;
  active : bool;
  center : Vector3.t
}.

(** The closure of a pending intro timeout. *)
Record IntroTimeout : Type := mkTimeout {
  to_startPos : Vector3.t;
  to_endPos : Vector3.t;
  to_center : Vector3.t
}.

Record t : Type := mk {
  bounds : option (Vector3.t * Qc);
  controlsRef : bool;
  introTimerRef : option positive;
  introHoldRef : option (Vector3.t * Vector3.t);   (* startPos, center *)
  cameraAnimRef : CameraAnim;
  camera_position : Vector3.t;
  controls_target : Vector3.t;
  timers : gmap positive IntroTimeout;
  next_handle : positive
}.

Definition init : t :=
  {| bounds := None; controlsRef := false; introTimerRef := None;
     introHoldRef := None;
     cameraAnimRef :=
       {| start := 0; duration := dec 25 10;
          startPos := Vector3.mk 0 0 0; endPos := Vector3.mk 0 0 0;
          active := false; center := Vector3.mk 0 0 0 |};
     camera_position := Vector3.mk (dec 25 10) (dec 15 10) (dec 25 10);
     controls_target := Vector3.mk 0 0 0;
     timers := ∅; next_handle := 1%positive |}.

(** [onBounds(center, radius)] *)
Definition onBounds (c : Vector3.t) (radius : Qc) (st : t) : t :=
  {| bounds := Some (c, radius); controlsRef := controlsRef st;
     introTimerRef := introTimerRef st; introHoldRef := introHoldRef st;
     cameraAnimRef := cameraAnimRef st;
     camera_position := camera_position st;
     controls_target := controls_target st;
     timers := timers st; next_handle := next_handle st |}.

(** [onIntroCamera({ center })]; [rendered_bounds] is the [bounds] of the
    render whose closure is called. *)
Definition onIntroCamera (c : Vector3.t)
    (rendered_bounds : option (Vector3.t * Qc)) (st : t) : t :=
  let r := from_option snd 1 rendered_bounds in
  let sp := Vector3.add c (Vector3.mk 0 0 (r * 1)) in
  let ep := Vector3.add c (Vector3.mk 0 0 (r * dec 25 10)) in
  let cleared :=
    match introTimerRef st with
    | Some h => delete h (timers st)
    | None => timers st
    end in
  let h := next_handle st in
  {| bounds := bounds st; controlsRef := controlsRef st;
     introTimerRef := Some h;
     introHoldRef := Some (sp, c);
     cameraAnimRef := cameraAnimRef st;
     camera_position := camera_position st;
     controls_target := controls_target st;
     timers := <[h := mkTimeout sp ep c]> cleared;
     next_handle := Pos.succ h |}.

(** The intro timeout fires at [now] (seconds). *)
Definition timerFired (h : positive) (now : Qc) (st : t) : t :=
  match timers st !! h with
  | Some cl =>
      {| bounds := bounds st; controlsRef := controlsRef st;
         introTimerRef := introTimerRef st;
         introHoldRef := None;
         cameraAnimRef :=
           {| start := now; duration := dec 25 10;
              startPos := to_startPos cl; endPos := to_endPos cl;
              active := true; center := to_center cl |};
         camera_position := camera_position st;
         controls_target := controls_target st;
         timers := delete h (timers st);
         next_handle := next_handle st |}
  | None => st
  end.

Definition set_pose (pos tgt : Vector3.t) (anim : CameraAnim) (st : t) : t :=
  {| bounds := bounds st; controlsRef := controlsRef st;
     introTimerRef := introTimerRef st; introHoldRef := introHoldRef st;
     cameraAnimRef := anim;
     camera_position := pos;
     controls_target := if controlsRef st then tgt else controls_target st;
     timers := timers st; next_handle := next_handle st |}.

(** The [useFrame] callback of [IntroCamera] at [now] (seconds), for
    controls whose [update()] leaves the pose as written ([useFrame_with]
    below takes their answer as a parameter).  The duration is 2.5 in every
    value the ref takes; a zero duration is outside the model ([None]). *)
Definition useFrame (now : Qc) (st : t) : option t :=
  match bounds st with
  | None => Some st
  | Some _ =>
      let anim := cameraAnimRef st in
      match active anim, introHoldRef st with
      | false, Some (sp, c) => Some (set_pose sp c anim st)
      | false, None => Some st
      | true, _ =>
          if decide (duration anim = 0) then None
          else
            let t := Qcmin 1 ((now - start anim) / duration anim) in
            let pos := Vector3.lerpVectors (startPos anim) (endPos anim) t in
            let anim' :=
              if decide (1 ≤ t)
              then {| start := start anim; duration := duration anim;
                      startPos := startPos anim; endPos := endPos anim;
                      active := false; center := center anim |}
              else anim in
            Some (set_pose pos (center anim) anim' st)
      end
  end.

(** [set_pose] with the answer of [controlsRef.current.update()], which
    the callback calls after copying the target, made explicit. *)
Definition set_pose_with (update : ControlsUpdate) (pos tgt : Vector3.t)
    (anim : CameraAnim) (st : t) : t :=
  {| bounds := bounds st; controlsRef := controlsRef st;
     introTimerRef := introTimerRef st; introHoldRef := introHoldRef st;
     cameraAnimRef := anim;
     camera_position := if controlsRef st then (update pos tgt).1 else pos;
     controls_target :=
       if controlsRef st then (update pos tgt).2 else controls_target st;
     timers := timers st; next_handle := next_handle st |}.

(** The [useFrame] callback of [IntroCamera] at [now] (seconds), with the
    answer of the controls in this frame. *)
Definition useFrame_with (update : ControlsUpdate) (now : Qc) (st : t)
  : option t :=
  match bounds st with
  | None => Some st
  | Some _ =>
      let anim := cameraAnimRef st in
      match active anim, introHoldRef st with
      | false, Some (sp, c) => Some (set_pose_with update sp c anim st)
      | false, None => Some st
      | true, _ =>
          if decide (duration anim = 0) then None
          else
            let t := Qcmin 1 ((now - start anim) / duration anim) in
            let pos := Vector3.lerpVectors (startPos anim) (endPos anim) t in
            let anim' :=
              if decide (1 ≤ t)
              then {| start := start anim; duration := duration anim;
                      startPos := startPos anim; endPos := endPos anim;
                      active := false; center := center anim |}
              else anim in
            Some (set_pose_with update pos (center anim) anim' st)
      end
  end.

Inductive Event : Type :=
  | Bounds (c : Vector3.t) (radius : Qc)
  | ControlsMounted
  | IntroCameraCall (c : Vector3.t) (rendered_bounds : option (Vector3.t * Qc))
  | TimerFired (h : positive) (now : Qc)
  | Frame (now : Qc)
  | Orbit (pos tgt : Vector3.t).     (* the user moves the camera *)

Definition step (ev : Event) (st : t) : t :=
  match ev with
  | Bounds c radius => onBounds c radius st
  | ControlsMounted =>
      {| bounds := bounds st; controlsRef := true;
         introTimerRef := introTimerRef st; introHoldRef := introHoldRef st;
         cameraAnimRef := cameraAnimRef st;
         camera_position := camera_position st;
         controls_target := controls_target st;
         timers := timers st; next_handle := next_handle st |}
  | IntroCameraCall c rb => onIntroCamera c rb st
  | TimerFired h now => timerFired h now st
  | Frame now => default st (useFrame now st)
  | Orbit pos tgt =>
      {| bounds := bounds st; controlsRef := controlsRef st;
         introTimerRef := introTimerRef st; introHoldRef := introHoldRef st;
         cameraAnimRef := cameraAnimRef st;
         camera_position := pos;
         controls_target := if controlsRef st then tgt else controls_target st;
         timers := timers st; next_handle := next_handle st |}
  end.

Definition run (evs : list Event) (st : t) : t :=
  foldl (λ s ev, step ev s) st evs.

(** The invariant of the intro timeout: a pending timeout is the one
    [introTimerRef] holds, handles are fresh, and the duration is 2.5. *)
Definition wf (st : t) : Prop :=
  (∀ h, is_Some (timers st !! h) →
        introTimerRef st = Some h ∧ (h < next_handle st)%positive) ∧
  duration (cameraAnimRef st) = dec 25 10.

End DemoCamera.



(** A camera pose the user has orbited to. *)
Definition orbit_pose : Vector3.t := Vector3.mk (Qc_of_Z 3) 2 1.

(** ** The wave auto-trigger of the demo page *)

Module WaveTrigger.

Record t : Type := mk {
  waveTriggeredRef : bool;
  cleanup : option positive;   (* the timer the last run of the effect
                                  returned a cleanup for *)
  timers : gset positive;      (* pending [playClip(clips.wave)] timeouts *)
  next_handle : positive;
  played : nat                 (* calls of [playClip(clips.wave)] made by
                                  the timeout *)
}.

Definition init : t :=
  {| waveTriggeredRef := false; cleanup := None; timers := ∅;
     next_handle := 1%positive; played := 0%nat |}.

(** The cleanup the previous run of the effect returned, if any:
    [() => clearTimeout(timer)]. *)
Definition run_cleanup (st : t) : gset positive :=
  match cleanup st with
  | Some h => timers st ∖ {[h]}
  | None => timers st
  end.

(** A run of the effect after a change of its dependencies: the cleanup of
    the run before, then the body.  [playClip] and [bounds] are the values
    of the render. *)
Definition effect (playClip bounds : bool) (st : t) : t :=
  if waveTriggeredRef st || negb playClip || negb bounds then
    {| waveTriggeredRef := waveTriggeredRef st; cleanup := None;
       timers := run_cleanup st; next_handle := next_handle st;
       played := played st |}
  else
    {| waveTriggeredRef := true; cleanup := Some (next_handle st);
       timers := {[next_handle st]} ∪ run_cleanup st;
       next_handle := Pos.succ (next_handle st);
       played := played st |}.

Definition timerFired (h : positive) (st : t) : t :=
  if decide (h ∈ timers st) then
    {| waveTriggeredRef := waveTriggeredRef st; cleanup := cleanup st;
       timers := timers st ∖ {[h]}; next_handle := next_handle st;
       played := S (played st) |}
  else st.

Definition unmount (st : t) : t :=
  {| waveTriggeredRef := waveTriggeredRef st; cleanup := None;
     timers := run_cleanup st; next_handle := next_handle st;
     played := played st |}.

Inductive Event : Type :=
  | Effect (playClip bounds : bool)
  | TimerFired (h : positive)
  | Unmount.

Definition step (ev : Event) (st : t) : t :=
  match ev with
  | Effect p b => effect p b st
  | TimerFired h => timerFired h st
  | Unmount => unmount st
  end.

Definition run (evs : list Event) (st : t) : t :=
  foldl (λ s ev, step ev s) st evs.

(** Before the trigger nothing is pending or played; a pending timeout is
    the one the cleanup holds; the timeout plays at most once. *)
Definition wf (st : t) : Prop :=
  (waveTriggeredRef st = false → timers st = ∅ ∧ played st = 0%nat) ∧
  (∀ h, h ∈ timers st → cleanup st = Some h ∧ played st = 0%nat) ∧
  (played st ≤ 1)%nat.

End WaveTrigger.

(** ** The media carousel of the home page *)

Module Carousel.

Inductive Direction : Type := Left | Right.

Record t : Type := mk {
  currentIndex : Z;
  isSliding : bool;
  direction : Direction;
  timers : gset positive;       (* pending [setIsSliding(false)] timeouts *)
  next_handle : positive
}.

Definition init : t :=
  {| currentIndex := 0; isSliding := false; direction := Right;
     timers := ∅; next_handle := 1%positive |}.

(** [goToPreviousSlide]; [len] is [media.length], [%] is the truncating
    remainder. *)
Definition goToPreviousSlide (len : Z) (st : t) : t :=
  if isSliding st then st
  else
    {| currentIndex := Z.rem (currentIndex st - 1 + len) len;
       isSliding := true; direction := Left;
       timers := {[next_handle st]} ∪ timers st;
       next_handle := Pos.succ (next_handle st) |}.

Definition goToNextSlide (len : Z) (st : t) : t :=
  if isSliding st then st
  else
    {| currentIndex := Z.rem (currentIndex st + 1) len;
       isSliding := true; direction := Right;
       timers := {[next_handle st]} ∪ timers st;
       next_handle := Pos.succ (next_handle st) |}.

(** The timeout of 800 ms: [setIsSliding(false)]. *)
Definition timerFired (h : positive) (st : t) : t :=
  if decide (h ∈ timers st) then
    {| currentIndex := currentIndex st; isSliding := false;
       direction := direction st; timers := timers st ∖ {[h]};
       next_handle := next_handle st |}
  else st.

(** A click on the dot of slide [idx]: [setCurrentIndex(idx)]. *)
Definition goTo (idx : Z) (st : t) : t :=
  {| currentIndex := idx; isSliding := isSliding st;
     direction := direction st; timers := timers st;
     next_handle := next_handle st |}.

Inductive Event : Type :=
  | Previous
  | Next
  | Dot (idx : Z)
  | TimerFired (h : positive).

(** With no media the component renders nothing, so no handler can run; a
    dot exists for the indices of [media] only. *)
Definition step (len : Z) (ev : Event) (st : t) : t :=
  if decide (len ≤ 0)%Z then st
  else
    match ev with
    | Previous => goToPreviousSlide len st
    | Next => goToNextSlide len st
    | Dot idx => if decide (0 ≤ idx < len)%Z then goTo idx st else st
    | TimerFired h => timerFired h st
    end.

Definition run (len : Z) (evs : list Event) (st : t) : t :=
  foldl (λ s ev, step len ev s) st evs.

End Carousel.

(** ** The scroll progress bar *)

(** The [handler] of [ScrollProgress]: the percentage it passes to
    [setProgress], from [doc.scrollTop], [document.body.scrollTop],
    [doc.scrollHeight] and [doc.clientHeight]. *)
Definition scroll_progress
    (doc_scrollTop body_scrollTop doc_scrollHeight doc_clientHeight : Qc) : Qc :=
  let scrollTop :=
    if decide (doc_scrollTop = 0) then body_scrollTop else doc_scrollTop in
  let scrollHeight := doc_scrollHeight - doc_clientHeight in
  if decide (0 < scrollHeight)
  then Qcmin (Qc_of_Z 100) (Qcmax 0 (scrollTop / scrollHeight * Qc_of_Z 100))
  else 0.
(** * Properties of the clip runner *)

Ltac by_compute := apply (bool_decide_unpack _); vm_compute; exact I.

Section ClipRunner.
Implicit Types (reg : gmap string URDFJoint) (nm k : string).
Implicit Types (alpha t : number) (fs : list Keyframe).

Lemma write_joint_lookup (f1 f2 : Keyframe) alpha nm reg k :
  write_joint f1 f2 alpha nm reg !! k =
    if decide (k = nm) then written f1 f2 alpha nm (reg !! k) else reg !! k.
Proof.
  unfold write_joint, written. case_decide as Hk.
  - subst k. destruct (reg !! nm) as [j|] eqn:Hj; [|by rewrite Hj].
    destruct (setJointValue_is_function j); [|by rewrite Hj].
    by rewrite lookup_insert_eq.
  - destruct (reg !! nm) as [j|]; [|done].
    destruct (setJointValue_is_function j); [|done].
    by rewrite lookup_insert_ne.
Qed.

(** The [forEach] over a set of names writes each named entry once and
    leaves every other entry alone. *)
Lemma set_fold_write_lookup (f1 f2 : Keyframe) alpha reg (X : gset string) k :
  set_fold (write_joint f1 f2 alpha) reg X !! k =
    if decide (k ∈ X) then written f1 f2 alpha k (reg !! k) else reg !! k.
Proof.
  revert k.
  refine (set_fold_ind_L
    (λ r (Y : gset string), ∀ k, r !! k =
       if decide (k ∈ Y) then written f1 f2 alpha k (reg !! k) else reg !! k)
    _ _ _ _ X).
  - intros k. by rewrite decide_False by set_solver.
  - intros x Y r Hx IH k. rewrite write_joint_lookup.
    destruct (decide (k = x)) as [->|Hne].
    + rewrite decide_True by set_solver.
      rewrite IH. by rewrite decide_False.
    + rewrite IH. destruct (decide (k ∈ Y)).
      * by rewrite decide_True by set_solver.
      * by rewrite decide_False by set_solver.
Qed.

Lemma write_joints_lookup (f1 f2 : Keyframe) alpha reg k :
  write_joints f1 f2 alpha reg !! k =
    if decide (k ∈ jointNames f1 f2)
    then written f1 f2 alpha k (reg !! k) else reg !! k.
Proof. apply set_fold_write_lookup. Qed.

Lemma write_joints_dom (f1 f2 : Keyframe) alpha reg :
  dom (write_joints f1 f2 alpha reg) = dom reg.
Proof.
  apply set_eq. intros k. rewrite !elem_of_dom, write_joints_lookup.
  case_decide; [|done]. unfold written.
  destruct (reg !! k) as [j|]; [|done].
  destruct (setJointValue_is_function j); split; eauto.
Qed.

(** The epsilon floor keeps the interpolation denominator positive. *)
Lemma span_positive (f1 f2 : Keyframe) : ∃ d, span_of f1 f2 = Fin d ∧ epsilon ≤ d ∧ 0 < d.
Proof.
  unfold span_of. simpl. eexists. split; [done|].
  assert (0 < epsilon) by done.
  case_decide as H1; split; try done.
  - by apply Qclt_le_trans with epsilon.
Qed.

(** With a finite effective time, [alpha] is a finite number of [0, 1]. *)
Lemma alpha_finite q (f1 f2 : Keyframe) :
  ∃ a, alpha_of (Fin q) f1 f2 = Fin a ∧ 0 ≤ a ≤ 1.
Proof.
  unfold alpha_of. destruct (span_positive f1 f2) as (d & -> & _ & Hd).
  simpl. rewrite decide_False by (symmetry; by apply Qclt_not_eq).
  simpl. eexists. split; [done|].
  repeat case_decide; split; try done.
  all: try (apply Qclt_le_weak; by apply Qclt_nge).
Qed.

Lemma alpha_NaN (f1 f2 : Keyframe) : alpha_of NaN f1 f2 = NaN.
Proof. done. Qed.

(** Keyframes found by the search are adjacent entries of the clip. *)
Lemma find_bracket_elem t fs a b :
  find_bracket t fs = Some (a, b) → a ∈ fs ∧ b ∈ fs.
Proof.
  induction fs as [|x fs IH]; [done|]. destruct fs as [|y fs']; [done|].
  cbn [find_bracket] in *.
  destruct (nge t (Fin (time x)) && nle t (Fin (time y))).
  - intros [= -> ->]. set_solver.
  - intros H. destruct (IH H). set_solver.
Qed.

Lemma find_bracket_brackets t fs a b :
  find_bracket t fs = Some (a, b) →
  nge t (Fin (time a)) = true ∧ nle t (Fin (time b)) = true.
Proof.
  induction fs as [|x fs IH]; [done|]. destruct fs as [|y fs']; [done|].
  cbn [find_bracket] in *.
  destruct (nge t (Fin (time x)) && nle t (Fin (time y))) eqn:E.
  - intros [= -> ->]. by apply andb_true_iff in E.
  - done.
Qed.

Lemma find_bracket_NaN fs : find_bracket NaN fs = None.
Proof.
  induction fs as [|x fs IH]; [done|]. destruct fs as [|y fs']; [done|].
  cbn [find_bracket] in *. done.
Qed.

(** Before the first keyframe of a clip with non-decreasing times no pair
    brackets the sample time. *)
Lemma find_bracket_before q fs :
  (∀ f, f ∈ fs → q < time f) → find_bracket (Fin q) fs = None.
Proof.
  induction fs as [|x fs IH]; [done|]. destruct fs as [|y fs']; [done|].
  cbn [find_bracket] in *. intros H.
  replace (nge (Fin q) (Fin (time x))) with false.
  - apply IH. intros f Hf. apply H. set_solver.
  - symmetry. apply bool_decide_eq_false_2, Qclt_not_le, H. set_solver.
Qed.

End ClipRunner.

(** ** Frames of clip playback *)

Section ClipStep.
Variables (s : Refs) (now : Qc) (pb : Playback) (oid : nat).
Variables (first_kf last_kf : Keyframe).
Hypothesis Hrobot : robotRef s = Some oid.
Hypothesis Hclip : clipRef s = Some pb.
Hypothesis Hfirst : head (frames (clip pb)) = Some first_kf.
Hypothesis Hlast : last (frames (clip pb)) = Some last_kf.

Let elapsed : number := (Fin now - Fin (start pb))%num.
Let duration : number := Fin (time last_kf).
Let t : number := effective_time (clip pb) elapsed duration.

(** A finished clip is cleared and nothing is written on that frame. *)
Lemma clipStep_finished :
  finished (clip pb) elapsed duration = true →
  clipStep now s = Some (set_clipRef None s).
Proof using Hrobot Hclip Hlast.
  unfold elapsed, duration. intros Hfin.
  unfold clipStep. rewrite Hrobot, Hclip, Hlast. simpl in *.
  by rewrite Hfin.
Qed.

(** An unfinished frame writes the joints of the bracket. *)
Lemma clipStep_running f1 f2 :
  finished (clip pb) elapsed duration = false →
  bracket t first_kf last_kf (frames (clip pb)) = (f1, f2) →
  clipStep now s =
    Some (set_jointMap
            (write_joints f1 f2 (alpha_of t f1 f2) (jointMapRef s)) s).
Proof using Hrobot Hclip Hfirst Hlast.
  unfold t, elapsed, duration. intros Hfin Hbr.
  unfold clipStep. rewrite Hrobot, Hclip, Hlast. simpl in *.
  rewrite Hfin, Hfirst. simpl. by rewrite Hbr.
Qed.

End ClipStep.

Example ramp_half : clipStep (dec 1 2) ramp_refs = Some ramp_refs_mid.
Proof. by_compute. Qed.

(** ** Arithmetic of the interpolation *)

Lemma lerp_at_0 (a b : Qc) : MathUtils.lerp (Fin a) (Fin b) 0%num = Fin a.
Proof. unfold MathUtils.lerp. simpl. f_equal. ring. Qed.

Lemma lerp_at_1 (a b : Qc) : MathUtils.lerp (Fin a) (Fin b) 1%num = Fin b.
Proof. unfold MathUtils.lerp. simpl. f_equal. ring. Qed.

Lemma lerp_NaN (a b : number) : MathUtils.lerp a b NaN = NaN.
Proof. unfold MathUtils.lerp. by destruct a, b. Qed.

Lemma Qcdiv_neg_pos (x d : Qc) : x < 0 → 0 < d → x / d < 0.
Proof.
  intros Hx Hd. unfold Qcdiv.
  rewrite <- (Qcmult_0_l (/ d)). apply Qcmult_lt_mono_pos_r; [|done].
  by apply Qcinv_pos.
Qed.

(** Before the first keyframe the clamp gives [alpha = 0]. *)
Lemma alpha_before (q : Qc) (f1 f2 : Keyframe) :
  q < time f1 → alpha_of (Fin q) f1 f2 = 0%num.
Proof.
  intros Hq. unfold alpha_of.
  destruct (span_positive f1 f2) as (d & -> & _ & Hd).
  simpl. rewrite decide_False by (symmetry; by apply Qclt_not_eq).
  simpl. assert ((q - time f1) / d < 0) as Hneg.
  { apply Qcdiv_neg_pos; [|done].
    apply (Qcplus_lt_mono_r _ _ (time f1)).
    by replace (q - time f1 + time f1) with q by ring; rewrite Qcplus_0_l. }
  rewrite (decide_False (P := 0 ≤ _)) by by apply Qclt_not_le.
  by rewrite decide_False by by apply Qclt_not_le.
Qed.

(** A remainder by zero is [NaN], whatever the dividend. *)
Lemma nrem_zero (a : number) : (a %% 0)%num = NaN.
Proof. by destruct a. Qed.

Lemma head_sorted_min (fs : list Keyframe) (f0 : Keyframe) :
  times_sorted fs → head fs = Some f0 → ∀ f, f ∈ fs → time f0 ≤ time f.
Proof.
  intros Hs Hh f Hf. destruct fs as [|x fs]; [done|].
  injection Hh as ->. apply StronglySorted_inv in Hs as [_ Hall].
  apply elem_of_cons in Hf as [->|Hin]; [apply Qcle_refl|].
  rewrite List.Forall_forall in Hall. by apply Hall, list_elem_of_In.
Qed.

(** A looping clip whose last keyframe is at time 0: the effective time is
    [NaN] on every frame, and every joint the frame writes receives [NaN]. *)
Lemma looping_zero_duration (s : Refs) (now : Qc) (pb : Playback) (oid : nat)
    (first_kf last_kf : Keyframe) :
  robotRef s = Some oid →
  clipRef s = Some pb →
  head (frames (clip pb)) = Some first_kf →
  last (frames (clip pb)) = Some last_kf →
  looping (clip pb) = true →
  time last_kf = 0 →
  ∃ s', clipStep now s = Some s' ∧
    ∀ nm, jointMapRef s' !! nm =
      entry_after first_kf last_kf nm NaN (jointMapRef s !! nm).
Proof.
  intros Hrobot Hclip Hfirst Hlast Hloop Hzero.
  pose proof (clipStep_running s now pb oid first_kf last_kf
                Hrobot Hclip Hfirst Hlast first_kf last_kf) as Hrun.
  cbv zeta in Hrun. unfold finished, effective_time in Hrun.
  rewrite Hloop, Hzero, nrem_zero in Hrun.
  unfold bracket in Hrun. rewrite find_bracket_NaN in Hrun.
  specialize (Hrun eq_refl eq_refl). rewrite alpha_NaN in Hrun.
  eexists. split; [exact Hrun|].
  intros nm. cbn [jointMapRef set_jointMap]. rewrite write_joints_lookup.
  unfold entry_after, written, jointNames, sample_value.
  rewrite lerp_NaN.
  destruct (jointMapRef s !! nm) as [j|]; [|by case_decide].
  case_decide as Hnm.
  - by rewrite bool_decide_eq_true_2.
  - by rewrite bool_decide_eq_false_2 by done.
Qed.

(** ** The remainder stays below a positive divisor *)

Lemma Qctrunc_lt (z : Qc) : z - Qc_of_Z (Qctrunc z) < 1.
Proof.
  unfold Qctrunc. destruct z as [[a b] Hc]. simpl.
  pose proof (Z.quot_rem' a (Z.pos b)) as Hqr.
  pose proof (Z.rem_bound_abs a (Z.pos b) ltac:(lia)) as Hb.
  set (n := (a ÷ Z.pos b)%Z) in *.
  qc2q. unfold Qc_of_Z. simpl.
  unfold Qlt, Qminus, Qplus, Qopp, inject_Z. simpl. lia.
Qed.

Lemma nrem_lt (x d : Qc) : 0 < d → x - d * Qc_of_Z (Qctrunc (x / d)) < d.
Proof.
  intros Hd. pose proof (Qctrunc_lt (x / d)) as H.
  assert (x = d * (x / d)) as Hx.
  { rewrite Qcmult_div_r; [done|]. symmetry. by apply Qclt_not_eq. }
  rewrite Hx at 1. clear Hx.
  generalize dependent (Qc_of_Z (Qctrunc (x / d))). intros n H.
  generalize dependent (x / d). intros z H.
  qc2q. nra.
Qed.

(** A finite effective time never lies after the last keyframe. *)
Lemma effective_time_le_duration (c : Clip) (e d q : Qc) :
  0 ≤ d → effective_time c (Fin e) (Fin d) = Fin q → q ≤ d.
Proof.
  intros Hd. unfold effective_time. destruct (looping c); simpl.
  - case_decide as Hz; [done|]. intros [= <-].
    apply Qclt_le_weak, nrem_lt.
    destruct (Qcle_lt_or_eq _ _ Hd) as [Hlt|Heq]; [done|by symmetry in Heq].
  - intros [= <-]. case_decide; [done|apply Qcle_refl].
Qed.

(** * Head follow *)

Section Smoothing.
Variables (k d c : Qc).
Hypothesis Hk0 : 0 < k.
Hypothesis Hk1 : k < 1.
Hypothesis Hcd : c ≤ d.

Lemma smoothed_0 : smoothed k d c 0 = c.
Proof. unfold smoothed. simpl. ring. Qed.

Lemma smoothed_S n :
  smoothed k d c (S n) = (1 - k) * smoothed k d c n + k * d.
Proof. unfold smoothed. simpl. ring. Qed.

Lemma one_minus_k_pos : 0 < 1 - k.
Proof using Hk1. clear Hk0 Hcd. qc2q. lra. Qed.

Lemma pow_nonneg n : 0 ≤ (1 - k) ^ n.
Proof using Hk1. apply Qcpower_pos, Qclt_le_weak, one_minus_k_pos. Qed.

Lemma pow_le_1 n : (1 - k) ^ n ≤ 1.
Proof using Hk0 Hk1.
  induction n as [|n IH]; simpl; [done|].
  pose proof (pow_nonneg n) as Hn. clear Hcd.
  generalize dependent ((1 - k) ^ n). intros r IH Hn.
  qc2q. nra.
Qed.

(** Never beyond the target. *)
Lemma smoothed_le_target n : smoothed k d c n ≤ d.
Proof using Hk1 Hcd.
  unfold smoothed. pose proof (pow_nonneg n) as Hn. clear Hk0.
  generalize dependent ((1 - k) ^ n). intros r Hn.
  qc2q. nra.
Qed.

(** Monotone toward the target. *)
Lemma smoothed_mono n : smoothed k d c n ≤ smoothed k d c (S n).
Proof using Hk0 Hk1 Hcd.
  rewrite smoothed_S. pose proof (smoothed_le_target n) as Hn.
  generalize dependent (smoothed k d c n). intros x Hn.
  qc2q. nra.
Qed.

(** Bernoulli's bound on the contraction factor. *)
Lemma pow_bernoulli n : (1 - k) ^ n * (1 + Qc_of_Z (Z.of_nat n) * k) ≤ 1.
Proof using Hk0 Hk1.
  induction n as [|n IH].
  - simpl. replace (Qc_of_Z 0) with 0 by by apply Qc_is_canon.
    ring_simplify. apply Qcle_refl.
  - assert (Qc_of_Z (Z.of_nat (S n)) = Qc_of_Z (Z.of_nat n) + 1) as ->.
    { apply Qc_is_canon. rewrite Nat2Z.inj_succ. unfold Z.succ.
      unfold Qcplus, Qc_of_Z, Q2Qc. simpl this. rewrite Qred_correct.
      rewrite inject_Z_plus. reflexivity. }
    simpl. pose proof (pow_nonneg n) as Hn.
    assert (0 ≤ Qc_of_Z (Z.of_nat n)) as Hm.
    { unfold Qcle. simpl. unfold Qle. simpl. lia. }
    clear Hcd.
    generalize dependent (Qc_of_Z (Z.of_nat n)). intros m IH Hm.
    generalize dependent ((1 - k) ^ n). intros r Hn IH.
    qc2q.
    assert (0 <= this r * ((this m + 1) * (this k * this k)))%Q
      by (apply Qmult_le_0_compat; [done | nra]).
    nra.
Qed.
End Smoothing.

Section Convergence.
Variables (k d c : Qc).
Hypothesis Hk0 : 0 < k.
Hypothesis Hk1 : k < 1.
Hypothesis Hcd : c ≤ d.

(** The distance to the target falls below every positive bound. *)
Lemma smoothed_converges (eps : Qc) :
  0 < eps → ∃ N : nat, ∀ n, (N ≤ n)%nat → d - smoothed k d c n < eps.
Proof using Hk0 Hk1 Hcd.
  intros He.
  assert (0 < k * eps) as Hke by by apply Qcmult_pos_pos.
  destruct (Qarchimedean (this ((d - c) / (k * eps)))) as [p Hp].
  exists (Pos.to_nat p). intros n Hn.
  pose proof (pow_bernoulli k Hk0 Hk1 n) as Hb.
  pose proof (pow_nonneg k Hk1 n) as Hr.
  assert ((d - c) / (k * eps) < Qc_of_Z (Z.of_nat n)) as Hm.
  { unfold Qclt. eapply Qlt_le_trans; [exact Hp|].
    simpl. unfold Qle. simpl. lia. }
  apply (Qcmult_lt_mono_pos_r _ _ (k * eps)) in Hm; [|done].
  rewrite (Qcmult_comm (_ / _)), Qcmult_div_r in Hm
    by (symmetry; by apply Qclt_not_eq).
  unfold smoothed.
  generalize dependent (Qc_of_Z (Z.of_nat n)). intros m Hb Hm.
  generalize dependent ((1 - k) ^ n). intros r Hb Hr.
  clear Hp p Hn. qc2q.
  assert (0 <= this r * (this d - this c))%Q
    by (apply Qmult_le_0_compat; [done | lra]).
  assert (0 <= this k * this eps)%Q by lra.
  destruct (Qlt_le_dec (this d - (this d - this r * (this d - this c)))
                       (this eps)) as [Hlt|Hge]; [exact Hlt|].
  exfalso.
  assert (0 <= this m)%Q by nra.
  assert (0 <= (this r * (this d - this c) - this eps)
               * (this m * this k))%Q by nra.
  nra.
Qed.
End Convergence.

Lemma smoothed_shift (k d c : Qc) (n : nat) :
  smoothed k d ((1 - k) * c + k * d) n = smoothed k d c (S n).
Proof. unfold smoothed. simpl. ring. Qed.

Section HeadFrames.
Variables (DEG2RAD k : Qc).

Lemma follow_lookup nm coord range (reg : gmap string URDFJoint) n :
  follow DEG2RAD nm coord range k reg !! n =
    if decide (n = nm) then
      match reg !! n with
      | Some j =>
          if setJointValue_is_function j then
            Some (setJointValue j
                    (MathUtils.lerp (default 0%num (jointValue j))
                       (degToRad DEG2RAD
                          (MathUtils.clamp coord (Fin (-1)) 1 * Fin range)%num)
                       (Fin k)))
          else Some j
      | None => None
      end
    else reg !! n.
Proof.
  unfold follow. case_decide as Hn.
  - subst n. destruct (reg !! nm) as [j|] eqn:Hj; [|by rewrite Hj].
    destruct (setJointValue_is_function j); [|by rewrite Hj].
    by rewrite lookup_insert_eq.
  - destruct (reg !! nm) as [j|]; [|done].
    destruct (setJointValue_is_function j); [|done].
    by rewrite lookup_insert_ne.
Qed.

(** Clip playback that does not name the head joints leaves them alone
    and cannot fail. *)
Lemma clipStep_spares_head now (s : Refs) :
  playback_spares_head (clipRef s) →
  ∃ s', clipStep now s = Some s' ∧
    headTargetRef s' = headTargetRef s ∧
    playback_spares_head (clipRef s') ∧
    jointMapRef s' !! "head_pan_joint" = jointMapRef s !! "head_pan_joint" ∧
    jointMapRef s' !! "head_tilt_joint" = jointMapRef s !! "head_tilt_joint".
Proof.
  intros Hpb. unfold clipStep.
  destruct (robotRef s) as [oid|]; [|by eexists].
  destruct (clipRef s) as [pb|] eqn:Hc; [|by eexists; rewrite Hc].
  destruct Hpb as [Hne Hspare].
  destruct (last (frames (clip pb))) as [lk|] eqn:Hl;
    [|by apply last_None in Hl].
  destruct (head (frames (clip pb))) as [fk|] eqn:Hh;
    [|by apply head_None in Hh].
  cbn [mbind option_bind].
  destruct (finished _ _ _); [by eexists|].
  cbn [mbind option_bind].
  destruct (bracket _ fk lk (frames (clip pb))) as [f1 f2] eqn:Hbr.
  assert (f1 ∈ frames (clip pb) ∧ f2 ∈ frames (clip pb)) as [Hf1 Hf2].
  { unfold bracket in Hbr.
    destruct (find_bracket _ _) as [[a b]|] eqn:Hfb; simpl in Hbr.
    - injection Hbr as -> ->. by eapply find_bracket_elem.
    - injection Hbr as -> ->. split.
      + by apply head_Some_elem_of.
      + by apply last_Some_elem_of. }
  destruct (Hspare f1 Hf1) as [Hp1 Ht1], (Hspare f2 Hf2) as [Hp2 Ht2].
  eexists. split; [done|]. cbn [headTargetRef clipRef jointMapRef set_jointMap].
  rewrite Hc. split; [done|]. split; [done|].
  rewrite !write_joints_lookup. unfold jointNames.
  rewrite !decide_False; [done| |].
  - rewrite elem_of_union, !elem_of_dom, Ht1, Ht2.
    intros [[? [=]]|[? [=]]].
  - rewrite elem_of_union, !elem_of_dom, Hp1, Hp2.
    intros [[? [=]]|[? [=]]].
Qed.

(** One frame with the pointer at the edge moves both head joints by one
    smoothing step toward 50 and 30 degrees. *)
Lemma frame_following_edge now (s : Refs) (pan tilt : Qc) :
  following_edge s pan tilt →
  ∃ s', useFrame_follow DEG2RAD true k now s = Some s' ∧
    following_edge s'
      ((1 - k) * pan + k * (Qc_of_Z 50 * DEG2RAD))
      ((1 - k) * tilt + k * (Qc_of_Z 30 * DEG2RAD)).
Proof.
  intros (Htgt & Hpb & (jp & Hjp & Hsp & Hvp) & (jt & Hjt & Hst & Hvt)).
  destruct (clipStep_spares_head now s Hpb)
    as (s1 & Hstep & Htgt1 & Hpb1 & Hp1 & Ht1).
  unfold useFrame_follow. rewrite Hstep. cbn [mbind option_bind].
  eexists. split; [done|].
  unfold following_edge, holds_angle, headFollow.
  cbn [headTargetRef clipRef jointMapRef set_jointMap].
  rewrite Htgt1, Htgt. cbn [active hx hy edge_target].
  split; [done|]. split; [done|].
  rewrite !follow_lookup.
  rewrite (decide_False (P := "head_pan_joint" = "head_tilt_joint")) by done.
  rewrite !decide_True by done.
  rewrite (decide_False (P := "head_tilt_joint" = "head_pan_joint")) by done.
  rewrite Hp1, Ht1, Hjp, Hjt, Hsp, Hst.
  split; eexists; (split; [done|]); (split; [done|]);
    cbn [jointValue setJointValue default]; rewrite ?Hvp, ?Hvt;
    unfold MathUtils.lerp, MathUtils.clamp, degToRad; simpl;
    f_equal; ring.
Qed.

(** Any number of frames. *)
Lemma frames_following_edge (nows : list Qc) (s : Refs) (pan tilt : Qc) :
  following_edge s pan tilt →
  ∃ s', run_frames (useFrame_follow DEG2RAD true k) nows s = Some s' ∧
    following_edge s'
      (smoothed k (Qc_of_Z 50 * DEG2RAD) pan (length nows))
      (smoothed k (Qc_of_Z 30 * DEG2RAD) tilt (length nows)).
Proof.
  revert s pan tilt. induction nows as [|now rest IH]; intros s pan tilt Hs.
  - exists s. split; [done|]. simpl length. by rewrite !smoothed_0.
  - destruct (frame_following_edge now s pan tilt Hs) as (s1 & Hstep & Hs1).
    destruct (IH _ _ _ Hs1) as (s' & Hrun & Hs').
    exists s'. split.
    + simpl. rewrite Hstep. exact Hrun.
    + simpl length. by rewrite <- !smoothed_shift.
Qed.

End HeadFrames.

(** A mouse move to the bottom-right corner of the viewport sets the head
    target to the edge. *)
Lemma pointer_at_edge (w h : Qc) (v : Viewer) :
  w ≠ 0 → h ≠ 0 → enableInteraction v = true →
  headTargetRef (refs (handleMove w h w h v)) = edge_target.
Proof.
  intros Hw Hh He. unfold handleMove. rewrite He.
  cbn [refs set_refs headTargetRef]. unfold normalise, or_one.
  rewrite !decide_False by done.
  assert (∀ a : Qc, a ≠ 0 → a / a * 2 - 1 = 1) as Hone.
  { intros a Ha. field. done. }
  rewrite !Hone by done. reflexivity.
Qed.

(** * The camera reset *)

Lemma lerpVectors_at_1 (a b : Vector3.t) : Vector3.lerpVectors a b 1 = b.
Proof. destruct a, b. unfold Vector3.lerpVectors. simpl. f_equal; ring. Qed.

Lemma lerpVectors_at_0 (a b : Vector3.t) : Vector3.lerpVectors a b 0 = a.
Proof. destruct a, b. unfold Vector3.lerpVectors. simpl. f_equal; ring. Qed.

(** The code's easing is the curve of the specification. *)
Lemma eased_eq_spec (t : Qc) : eased t = eased_spec t.
Proof.
  unfold eased, eased_spec. case_decide.
  - simpl. ring.
  - replace (Qc_of_Z 4) with (2 + 2) by by apply Qc_is_canon.
    simpl. field. by_compute.
Qed.

Lemma eased_at_1 : eased 1 = 1.
Proof. by_compute. Qed.

Lemma Qcmin_1_elapsed (elapsed : Qc) :
  reset_duration ≤ elapsed → Qcmin 1 (elapsed / reset_duration) = 1.
Proof.
  intros H. unfold Qcmin. case_decide as Hle; [done|].
  exfalso. apply Hle. unfold Qcdiv.
  assert (0 < / reset_duration) as Hinv by by_compute.
  replace 1 with (reset_duration * / reset_duration) by by_compute.
  by apply Qcmult_le_mono_nonneg_r; [apply Qclt_le_weak|].
Qed.

(** [smoothReset] with its guards satisfied: one frame is requested, whose
    closure goes from the current pose to the default pose. *)
Lemma smoothReset_requests (v : Viewer) (now : Qc) (default_pos : Vector3.t) :
  defaultCamPosRef v = Some default_pos →
  cameraRef v = true → controlsRef v = true →
  let cl := {| startPos := camera_position v; endPos := default_pos;
               startTarget := controls_target v;
               endTarget := defaultTargetRef v; anim_start := now |} in
  resetAnimRef (smoothReset now v) = Some (next_handle v) ∧
  animation_frames (smoothReset now v) !! next_handle v = Some cl.
Proof.
  intros Hd Hc Ho. unfold smoothReset. rewrite Hd, Hc, Ho. simpl.
  destruct (resetAnimRef v); simpl; by rewrite lookup_insert_eq.
Qed.

(** What one frame of the reset writes. *)
Lemma animate_writes (cl : AnimateClosure) (now : Qc) (w : Viewer) :
  cameraRef w = true → controlsRef w = true →
  let e := eased (Qcmin 1 ((now - anim_start cl) / reset_duration)) in
  camera_position (animate cl now w)
    = Vector3.lerpVectors (startPos cl) (endPos cl) e ∧
  controls_target (animate cl now w)
    = Vector3.lerpVectors (startTarget cl) (endTarget cl) e.
Proof.
  intros Hc Ho. unfold animate. rewrite Hc, Ho. by case_decide.
Qed.

(** The last frame of the reset pins the pose and requests nothing. *)
Lemma animate_final (cl : AnimateClosure) (now : Qc) (w : Viewer) :
  cameraRef w = true → controlsRef w = true →
  reset_duration ≤ now - anim_start cl →
  camera_position (animate cl now w) = endPos cl ∧
  controls_target (animate cl now w) = endTarget cl ∧
  resetAnimRef (animate cl now w) = None ∧
  animation_frames (animate cl now w) = animation_frames w.
Proof.
  intros Hc Ho Hel. unfold animate. rewrite Hc, Ho.
  rewrite Qcmin_1_elapsed by done. rewrite eased_at_1.
  rewrite decide_False by by_compute. simpl.
  by rewrite !lerpVectors_at_1.
Qed.

(** ** Unmounting *)

(** What the cleanup functions do achieve: the robot leaves the scene and
    the inactivity timeout is cleared. *)
Lemma unmount_removes_robot (v : Viewer) (robot : nat) :
  robotRef (refs v) = Some robot → robot ∉ scene (unmount v).
Proof.
  intros Hr. unfold unmount. rewrite Hr.
  assert (robot ∉ filter (λ o, o ≠ robot) (scene v)) as Hnot.
  { rewrite list_elem_of_filter. naive_solver. }
  simpl. destruct (pointer_listeners v); [destruct (timeout v)|]; exact Hnot.
Qed.

Lemma unmount_clears_inactivity_timeout (v : Viewer) (h : positive) :
  pointer_listeners v = true → timeout v = Some h →
  timers (unmount v) !! h = None.
Proof.
  intros Hl Ht. unfold unmount.
  destruct (robotRef (refs v)); simpl; rewrite Hl, Ht; simpl;
    apply lookup_delete_eq.
Qed.

(** What they leave behind: every other timer and every pending animation
    frame. *)
Lemma unmount_keeps_other_timers (v : Viewer) (h : positive) :
  timeout v ≠ Some h → timers (unmount v) !! h = timers v !! h.
Proof.
  intros Ht. unfold unmount.
  destruct (robotRef (refs v)); simpl;
    (destruct (pointer_listeners v); [|done]);
    (destruct (timeout v) as [h0|] eqn:E; [|done]);
    simpl; apply lookup_delete_ne; congruence.
Qed.

Lemma unmount_keeps_animation_frames (v : Viewer) :
  animation_frames (unmount v) = animation_frames v ∧
  resetAnimRef (unmount v) = resetAnimRef v.
Proof.
  unfold unmount.
  destruct (robotRef (refs v)); simpl;
    (destruct (pointer_listeners v); [|done]);
    by destruct (timeout v).
Qed.

(** * The model preload *)

Lemma resolve_keeps (p : positive) (value : option URDFRobot) (st : Preload) :
  fetchPreload (resolve p value st) = fetchPreload st ∧
  loader_loads (resolve p value st) = loader_loads st ∧
  next_promise (resolve p value st) = next_promise st.
Proof. unfold resolve. by repeat case_match. Qed.

Lemma loader_callback_keeps (p : positive) (r : LoaderResult) (st : Preload) :
  fetchPreload (loader_callback p r st) = fetchPreload st ∧
  loader_loads (loader_callback p r st) = loader_loads st ∧
  next_promise (loader_callback p r st) = next_promise st.
Proof. destruct r; apply resolve_keeps. Qed.

(** Once a promise is stored, every call returns it and no load starts. *)
Lemma cache_run_stored (evs : list CacheEvent) (st : Preload) (p : positive) :
  fetchPreload st = Some p →
  (cache_run evs st).1 = replicate (ensure_count evs) p ∧
  fetchPreload (cache_run evs st).2 = Some p ∧
  loader_loads (cache_run evs st).2 = loader_loads st.
Proof.
  revert st. induction evs as [|ev rest IH]; intros st Hp; [done|].
  cbn [cache_run]. destruct ev as [a u|q r]; cbn [cache_step].
  - unfold ensureFetchPreload. rewrite Hp.
    destruct (cache_run rest st) as [rs st2] eqn:E.
    destruct (IH st Hp) as (H1 & H2 & H3). rewrite E in H1, H2, H3.
    simpl in *. by rewrite H1.
  - destruct (loader_callback_keeps q r st) as (K1 & K2 & _).
    case_bool_decide.
    + destruct (cache_run rest (loader_callback q r st)) as [rs st2] eqn:E.
      destruct (IH (loader_callback q r st)) as (H1 & H2 & H3);
        [by rewrite K1|].
      rewrite E in H1, H2, H3. simpl in *. by rewrite H3, K2.
    + destruct (cache_run rest st) as [rs st2] eqn:E.
      destruct (IH st Hp) as (H1 & H2 & H3). rewrite E in H1, H2, H3.
      done.
Qed.

(** From the empty cache: one load, started by the first call. *)
Lemma cache_run_init (evs : list CacheEvent) :
  (cache_run evs Preload_init).1 = replicate (ensure_count evs) 1%positive ∧
  loader_loads (cache_run evs Preload_init).2
    = from_option (λ c, [(1%positive, c)]) [] (first_request evs) ∧
  fetchPreload (cache_run evs Preload_init).2
    = (if first_request evs is Some _ then Some 1%positive else None).
Proof.
  induction evs as [|ev rest IH]; [done|].
  cbn [cache_run]. destruct ev as [a u|q r]; cbn [cache_step first_request].
  - unfold ensureFetchPreload. cbn [fetchPreload Preload_init next_promise].
    match goal with |- context [cache_run rest ?st] =>
      destruct (cache_run_stored rest st 1%positive eq_refl) as (H1 & H2 & H3);
      destruct (cache_run rest st) as [rs st2] end.
    simpl in *. by rewrite H1, H2, H3.
  - rewrite bool_decide_eq_false_2 by (simpl; apply not_elem_of_nil).
    destruct (cache_run rest Preload_init) as [rs st2]. exact IH.
Qed.

Lemma resolve_never_rejected p value st :
  never_rejected st → never_rejected (resolve p value st).
Proof.
  intros H q. unfold resolve.
  destruct (promises st !! p) as [[]|]; try apply H.
  cbn [promises]. destruct (decide (p = q)) as [->|Hne].
  - by rewrite lookup_insert_eq.
  - rewrite lookup_insert_ne by done. apply H.
Qed.

Lemma cache_step_never_rejected ev st :
  never_rejected st → never_rejected (cache_step ev st).2.
Proof.
  intros H. destruct ev as [a u|q r]; cbn [cache_step].
  - unfold ensureFetchPreload. destruct (fetchPreload st); [done|].
    intros p. cbn [snd promises].
    destruct (decide (next_promise st = p)) as [Heq|Hne].
    + by rewrite Heq, lookup_insert_eq.
    + rewrite lookup_insert_ne by done. apply H.
  - case_bool_decide; [|done]. destruct r; by apply resolve_never_rejected.
Qed.

Lemma cache_run_never_rejected evs st :
  never_rejected st → never_rejected (cache_run evs st).2.
Proof.
  revert st. induction evs as [|ev rest IH]; intros st H; [done|].
  cbn [cache_run]. pose proof (cache_step_never_rejected ev st H) as Hs.
  destruct (cache_step ev st) as [r st1].
  specialize (IH st1 Hs). by destruct (cache_run rest st1).
Qed.

(** A settled promise keeps its value. *)
Lemma cache_step_settled ev st p value :
  fetchPreload st = Some p →
  settled_value st p = Some value →
  fetchPreload (cache_step ev st).2 = Some p ∧
  settled_value (cache_step ev st).2 p = Some value.
Proof.
  intros Hf Hs. destruct ev as [a u|q r]; cbn [cache_step].
  - unfold ensureFetchPreload. by rewrite Hf.
  - case_bool_decide; [|done].
    destruct (loader_callback_keeps q r st) as (K1 & _). cbn [snd].
    split; [by rewrite K1|].
    unfold settled_value in *. destruct r; unfold loader_callback, resolve.
    all: destruct (promises st !! q) as [[]|] eqn:Hq; try done.
    all: cbn [promises]; destruct (decide (q = p)) as [->|Hne];
      [by rewrite Hq in Hs|by rewrite lookup_insert_ne].
Qed.

Lemma cache_run_settled evs st p value :
  fetchPreload st = Some p →
  settled_value st p = Some value →
  settled_value (cache_run evs st).2 p = Some value.
Proof.
  revert st. induction evs as [|ev rest IH]; intros st Hf Hs; [done|].
  cbn [cache_run].
  destruct (cache_step_settled ev st p value Hf Hs) as [Hf1 Hs1].
  destruct (cache_step ev st) as [r st1].
  specialize (IH st1 Hf1 Hs1). by destruct (cache_run rest st1).
Qed.

Lemma first_request_None (evs : list CacheEvent) :
  first_request evs = None → ensure_count evs = 0%nat.
Proof. induction evs as [|[a u|q r] rest IH]; simpl; auto; discriminate. Qed.

(** * Clip interpolation: the claims *)

(** C6.  On an unfinished frame with bracketing keyframes [(f1, f2)], every
    joint named by [f1] or [f2] (and present in the registry with a
    [setJointValue]) is written [lerp(v1, v2, alpha)], where a value missing
    from a keyframe counts as 0 and
    [alpha = clamp01((t - f1.time) / max(0.001, f2.time - f1.time))];
    no other registry entry changes and the clip stays active. *)
Theorem clip_sample_is_clamped_lerp
    (s : Refs) (now : Qc) (pb : Playback) (oid : nat)
    (first_kf last_kf f1 f2 : Keyframe) :
  robotRef s = Some oid →
  clipRef s = Some pb →
  head (frames (clip pb)) = Some first_kf →
  last (frames (clip pb)) = Some last_kf →
  let elapsed := (Fin now - Fin (start pb))%num in
  let duration := Fin (time last_kf) in
  let t := effective_time (clip pb) elapsed duration in
  finished (clip pb) elapsed duration = false →
  bracket t first_kf last_kf (frames (clip pb)) = (f1, f2) →
  let alpha :=
    clamp01 ((t - Fin (time f1)) /
             Math_max (Fin (dec 1 1000)) (Fin (time f2) - Fin (time f1)))%num in
  ∃ s', clipStep now s = Some s' ∧ clipRef s' = Some pb ∧
    ∀ nm,
      let v1 := Fin (default 0 (joints f1 !! nm)) in
      let v2 := Fin (default 0 (joints f2 !! nm)) in
      jointMapRef s' !! nm =
        entry_after f1 f2 nm (MathUtils.lerp v1 v2 alpha) (jointMapRef s !! nm).
Proof.
  intros Hrobot Hclip Hfirst Hlast elapsed duration t Hfin Hbr alpha.
  eexists. split; [by eapply clipStep_running|]. split; [done|].
  intros nm v1 v2. simpl. rewrite write_joints_lookup.
  unfold entry_after, written, jointNames.
  destruct (jointMapRef s !! nm) as [j|]; [|by case_decide].
  case_decide as Hnm.
  - by rewrite bool_decide_eq_true_2.
  - rewrite bool_decide_eq_false_2 by done. done.
Qed.

Lemma clip_sample_is_clamped_lerp_witness :
  ∃ s', clipStep (dec 1 2) ramp_refs = Some s' ∧
        joint_reading s' "a" = Some (Fin (dec 1 2)).
Proof.
  destruct (clip_sample_is_clamped_lerp ramp_refs (dec 1 2)
              (mkPlayback ramp_clip 0) 0%nat
              (mkKeyframe 0 {[ "a" := 0 ]}) (mkKeyframe 1 {[ "a" := 1 ]})
              (mkKeyframe 0 {[ "a" := 0 ]}) (mkKeyframe 1 {[ "a" := 1 ]}))
    as (s' & Hstep & _ & Hval);
    [reflexivity | reflexivity | reflexivity | reflexivity
    | vm_compute; reflexivity | vm_compute; reflexivity |].
  exists s'. split; [exact Hstep|].
  unfold joint_reading. rewrite (Hval "a"). by_compute.
Defined.

(** C7, as the code has it.  For a clip with non-decreasing keyframe times
    (from time 0 on), an unfinished sample time [t] never lies after the
    last keyframe; and when [t] lies before the first keyframe, the bracket
    is (first, last) and [alpha] clamps to 0: every joint named by the first
    keyframe is written exactly the first keyframe's value, nothing is
    extrapolated, and a joint named only by the last keyframe is written the
    default 0. *)
Theorem sample_before_first_keyframe
    (s : Refs) (now : Qc) (pb : Playback) (oid : nat)
    (first_kf last_kf : Keyframe) (q : Qc) :
  robotRef s = Some oid →
  clipRef s = Some pb →
  head (frames (clip pb)) = Some first_kf →
  last (frames (clip pb)) = Some last_kf →
  times_sorted (frames (clip pb)) →
  0 ≤ time last_kf →
  let elapsed := (Fin now - Fin (start pb))%num in
  let duration := Fin (time last_kf) in
  finished (clip pb) elapsed duration = false →
  effective_time (clip pb) elapsed duration = Fin q →
  q ≤ time last_kf ∧
  (q < time first_kf →
   ∃ s', clipStep now s = Some s' ∧
     ∀ nm, jointMapRef s' !! nm =
       entry_after first_kf last_kf nm
         (Fin (default 0 (joints first_kf !! nm))) (jointMapRef s !! nm)).
Proof.
  intros Hrobot Hclip Hfirst Hlast Hsorted Hpos elapsed duration Hfin Ht.
  split; [by eapply effective_time_le_duration|]. intros Hq.
  assert (bracket (Fin q) first_kf last_kf (frames (clip pb))
          = (first_kf, last_kf)) as Hbr.
  { unfold bracket. rewrite find_bracket_before; [done|].
    intros f Hf. eapply Qclt_le_trans; [exact Hq|].
    by eapply head_sorted_min. }
  pose proof (clipStep_running s now pb oid first_kf last_kf
                Hrobot Hclip Hfirst Hlast first_kf last_kf) as Hrun.
  cbv zeta in Hrun. subst elapsed duration.
  rewrite Ht in Hrun. specialize (Hrun Hfin Hbr).
  rewrite alpha_before in Hrun by done.
  eexists. split; [exact Hrun|].
  intros nm. cbn [jointMapRef set_jointMap]. rewrite write_joints_lookup.
  unfold entry_after, written, jointNames, sample_value, joint_or_zero.
  rewrite lerp_at_0.
  destruct (jointMapRef s !! nm) as [j|]; [|by case_decide].
  case_decide as Hnm.
  - by rewrite bool_decide_eq_true_2.
  - by rewrite bool_decide_eq_false_2 by done.
Qed.

Lemma sample_before_first_keyframe_witness :
  ∃ s', clipStep (dec 1 2) late_refs = Some s' ∧
        joint_reading s' "a" = Some 1%num ∧
        joint_reading s' "b" = Some 0%num.
Proof.
  destruct (sample_before_first_keyframe late_refs (dec 1 2)
              (mkPlayback late_clip 0) 0%nat late_first late_last (dec 1 2))
    as (_ & Hbefore);
    [reflexivity | reflexivity | reflexivity | reflexivity
    | repeat constructor; vm_compute; discriminate
    | vm_compute; discriminate
    | vm_compute; reflexivity | vm_compute; reflexivity |].
  destruct Hbefore as (s' & Hstep & Hval); [reflexivity|].
  exists s'. split; [exact Hstep|].
  unfold joint_reading. rewrite (Hval "a"), (Hval "b"). split; by_compute.
Defined.

(** C7 as stated fails: sampling [late_clip] at 0.5 s, before its first
    keyframe (1 s), also writes joint [b], which the first keyframe does
    not name. *)
Lemma sample_before_first_writes_foreign_joint :
  head (frames late_clip) = Some late_first ∧
  effective_time late_clip (Fin (dec 1 2) - 0)%num (Fin (Qc_of_Z 2))
    = Fin (dec 1 2) ∧
  dec 1 2 < time late_first ∧
  ¬ (∀ s', clipStep (dec 1 2) late_refs = Some s' →
       ∀ nm, nm ∉ dom (joints late_first) →
         jointMapRef s' !! nm = jointMapRef late_refs !! nm).
Proof.
  repeat split; try by_compute.
  intros H.
  destruct (clipStep (dec 1 2) late_refs) as [s'|] eqn:E; [|by vm_compute in E].
  specialize (H s' eq_refl "b").
  assert (clipStep (dec 1 2) late_refs =
          Some (set_jointMap {[ "a" := joint_at 1%num; "b" := joint_at 0%num ]}
                  late_refs)) as E' by by_compute.
  rewrite E in E'. injection E' as ->.
  assert ("b" ∉ dom (joints late_first)) as Hb by by_compute.
  specialize (H Hb). by vm_compute in H.
Qed.

(** C1 (what the code does at the end of a non-looping clip).  In the
    scenario clip, the frame at 2 s, past the duration of 1 s, clears the
    active clip and writes nothing: joint [a] keeps the value 0.5 of the
    earlier frame instead of the last keyframe's 1. *)
Theorem finished_frame_skips_last_keyframe :
  clipStep (Qc_of_Z 2) ramp_refs_mid = Some (set_clipRef None ramp_refs_mid) ∧
  joint_reading (set_clipRef None ramp_refs_mid) "a" = Some (Fin (dec 1 2)) ∧
  joints <$> last (frames ramp_clip) = Some {[ "a" := 1 ]}.
Proof. repeat split; by_compute. Qed.

(** C3 (what the code does for a looping clip of duration 0).  The
    effective time is [elapsed % 0 = NaN], no bracket matches, [alpha] is
    [NaN] and the joint is written [NaN]. *)
Theorem looping_zero_duration_writes_NaN :
  effective_time still_clip (1 - 0)%num 0%num = NaN ∧
  (s' ← clipStep 1 still_refs; joint_reading s' "a") = Some NaN.
Proof. split; by_compute. Qed.

(** * Head follow: the claim *)

(** C9.  With interaction enabled and the pointer held at the viewport edge
    (x = 1, y = 1), each frame applies
    [current = lerp(current, target, k)] to the head pan and tilt joints,
    with targets 50 and 30 degrees.  For a smoothing factor [0 < k < 1] and
    starting angles not beyond the targets, the angles after [n] frames are
    [target - (1 - k)^n * (target - start)]: they never decrease, never
    exceed the target, and come closer to it than any positive bound; the
    pan target is larger than the tilt target. *)
Theorem head_follow_approaches_edge_angles
    (DEG2RAD k : Qc) (s : Refs) (pan0 tilt0 : Qc) :
  0 < DEG2RAD → 0 < k → k < 1 →
  following_edge s pan0 tilt0 →
  let pan_max := Qc_of_Z 50 * DEG2RAD in
  let tilt_max := Qc_of_Z 30 * DEG2RAD in
  pan0 ≤ pan_max → tilt0 ≤ tilt_max →
  let pan := smoothed k pan_max pan0 in
  let tilt := smoothed k tilt_max tilt0 in
  (∀ nows, ∃ s',
      run_frames (useFrame_follow DEG2RAD true k) nows s = Some s' ∧
      current_angle s' "head_pan_joint" = Fin (pan (length nows)) ∧
      current_angle s' "head_tilt_joint" = Fin (tilt (length nows))) ∧
  (pan 0%nat = pan0 ∧ tilt 0%nat = tilt0 ∧
   ∀ n, Fin (pan (S n)) = MathUtils.lerp (Fin (pan n)) (Fin pan_max) (Fin k) ∧
        Fin (tilt (S n)) = MathUtils.lerp (Fin (tilt n)) (Fin tilt_max) (Fin k)) ∧
  (∀ n, pan n ≤ pan (S n) ∧ pan (S n) ≤ pan_max) ∧
  (∀ n, tilt n ≤ tilt (S n) ∧ tilt (S n) ≤ tilt_max) ∧
  (∀ eps, 0 < eps →
     ∃ N, ∀ n, (N ≤ n)%nat → pan_max - pan n < eps ∧ tilt_max - tilt n < eps) ∧
  tilt_max < pan_max.
Proof.
  intros HD Hk0 Hk1 Hs pan_max tilt_max Hp Ht pan tilt.
  split; [|split; [|split; [|split; [|split]]]].
  - intros nows.
    destruct (frames_following_edge DEG2RAD k nows s pan0 tilt0 Hs)
      as (s' & Hrun & _ & _ & (jp & Hjp & _ & Hvp) & (jt & Hjt & _ & Hvt)).
    exists s'. split; [exact Hrun|].
    unfold current_angle, joint_reading. rewrite Hjp, Hjt.
    cbn [mbind option_bind]. split; [exact Hvp|exact Hvt].
  - split; [apply smoothed_0|]. split; [apply smoothed_0|].
    intros n. unfold pan, tilt. rewrite !smoothed_S.
    unfold MathUtils.lerp. by simpl.
  - intros n. split; [by apply smoothed_mono|by apply smoothed_le_target].
  - intros n. split; [by apply smoothed_mono|by apply smoothed_le_target].
  - intros eps He.
    destruct (smoothed_converges k pan_max pan0 Hk0 Hk1 Hp eps He) as [N1 H1].
    destruct (smoothed_converges k tilt_max tilt0 Hk0 Hk1 Ht eps He) as [N2 H2].
    exists (N1 `max` N2)%nat. intros n Hn. split; [apply H1|apply H2]; lia.
  - unfold pan_max, tilt_max. apply Qcmult_lt_mono_pos_r; [done|].
    by_compute.
Qed.

Lemma head_follow_approaches_edge_angles_witness :
  ∃ s', run_frames (useFrame_hero DEG2RAD_approx true) [0; 1] head_refs
          = Some s' ∧
        current_angle s' "head_pan_joint" =
          Fin (smoothed (dec 12 100) (Qc_of_Z 50 * DEG2RAD_approx) 0 2).
Proof.
  assert (following_edge head_refs 0 0) as Hs.
  { split; [reflexivity|]. split; [exact I|].
    split; exists joint0; repeat split; reflexivity. }
  destruct (head_follow_approaches_edge_angles DEG2RAD_approx (dec 12 100)
              head_refs 0 0) as [Hrun _];
    [reflexivity | reflexivity | reflexivity | exact Hs
    | vm_compute; discriminate | vm_compute; discriminate |].
  destruct (Hrun [0; 1]) as (s' & Hs' & Hpan & _).
  exists s'. split; [exact Hs'|exact Hpan].
Defined.

(** * The inactivity timeout and the reset: the claims *)




(** * Unmounting: the claim *)


(** * The model preload: the claims *)

(** C2, as the code has it.  The preload is a single slot, not a store keyed
    by asset: over any interleaving of calls and loader callbacks, the first
    call (whatever its asset) starts the one and only load and stores its
    promise, and every call, concurrent or later and for whatever asset,
    receives that same promise without another load. *)
Theorem preload_is_single_slot (evs : list CacheEvent) :
  loader_loads (cache_run evs Preload_init).2
    = from_option (λ c, [(1%positive, c)]) [] (first_request evs) ∧
  length (cache_run evs Preload_init).1 = ensure_count evs ∧
  ∀ p, p ∈ (cache_run evs Preload_init).1 →
       p = 1%positive ∧
       fetchPreload (cache_run evs Preload_init).2 = Some p.
Proof.
  destruct (cache_run_init evs) as (H1 & H2 & H3).
  split; [exact H2|]. rewrite H1. split; [apply length_replicate|].
  intros p Hp. apply elem_of_replicate in Hp as [-> Hn]. split; [done|].
  rewrite H3. destruct (first_request evs) eqn:E; [done|].
  apply first_request_None in E. lia.
Qed.

(** C2 as stated fails: after a load of asset [a], a call for the distinct
    asset [b] starts no load of its own and receives the promise of [a]. *)
Lemma preload_ignores_second_asset :
  (cache_run [Ensure "/assets/a/" "/assets/a/a.urdf";
              Ensure "/assets/b/" "/assets/b/b.urdf"] Preload_init).1
    = [1%positive; 1%positive] ∧
  loader_loads
    (cache_run [Ensure "/assets/a/" "/assets/a/a.urdf";
                Ensure "/assets/b/" "/assets/b/b.urdf"] Preload_init).2
    = [(1%positive, mkLoadCall "/assets/a/a.urdf" "/assets/a/")].
Proof. split; reflexivity. Qed.

(** C10.  The preload never rejects: over any interleaving of calls and
    loader callbacks no promise is rejected, and a failed load settles the
    stored promise with null, for good.  The consumer's callback treats
    null as "skip": the viewer is left exactly as it was, so nothing is
    added to the scene, no joint is registered, no host callback is called
    and no timer is armed. *)
Theorem preload_fails_soft :
  (∀ evs p, promises (cache_run evs Preload_init).2 !! p ≠ Some Rejected) ∧
  (∀ assetsBase urdfUrl evs,
     settled_value
       (cache_run (Ensure assetsBase urdfUrl :: LoaderDone 1 Failed :: evs)
                  Preload_init).2 1%positive
       = Some None) ∧
  (∀ DEG2RAD now (v : Viewer),
     let v' := step DEG2RAD (Preloaded None now) v in
     v' = v ∧
     scene v' = scene v ∧
     jointMapRef (refs v') = jointMapRef (refs v) ∧
     robotRef (refs v') = robotRef (refs v) ∧
     host_calls v' = host_calls v ∧
     timers v' = timers v).
Proof.
  split; [|split].
  - intros evs. apply cache_run_never_rejected. intros p.
    cbn [promises Preload_init]. by rewrite lookup_empty.
  - intros a u evs. cbn [cache_run cache_step].
    unfold ensureFetchPreload. cbn [fetchPreload Preload_init next_promise
      promises loader_loads app].
    rewrite bool_decide_eq_true_2 by (simpl; apply list_elem_of_here).
    match goal with |- context [cache_run evs ?st] =>
      pose proof (cache_run_settled evs st 1%positive None) as Hs;
      destruct (cache_run evs st) as [rs st2] end.
    apply Hs; reflexivity.
  - intros DEG2RAD now v. by repeat split.
Qed.

(** * Further properties of the clip runner *)

(** ** Truncation and the remainder *)

Lemma Qc_of_Z_le (n m : Z) : Qc_of_Z n ≤ Qc_of_Z m ↔ (n ≤ m)%Z.
Proof. unfold Qcle, Qc_of_Z. simpl. unfold Qle. simpl. lia. Qed.

Lemma Qc_of_Z_lt (n m : Z) : Qc_of_Z n < Qc_of_Z m ↔ (n < m)%Z.
Proof. unfold Qclt, Qc_of_Z. simpl. unfold Qlt. simpl. lia. Qed.

Lemma Qc_of_Z_plus (n m : Z) : Qc_of_Z (n + m) = Qc_of_Z n + Qc_of_Z m.
Proof.
  apply Qc_is_canon. unfold Qcplus, Qc_of_Z, Q2Qc. simpl this.
  rewrite Qred_correct, inject_Z_plus. reflexivity.
Qed.

Lemma Qctrunc_le (z : Qc) : 0 ≤ z → Qc_of_Z (Qctrunc z) ≤ z.
Proof.
  unfold Qctrunc. destruct z as [[a b] Hc]. intros Hz.
  assert (0 ≤ a)%Z as Ha.
  { revert Hz. unfold Qcle. simpl. unfold Qle. simpl. lia. }
  simpl.
  pose proof (Z.quot_rem' a (Z.pos b)) as Hqr.
  pose proof (Z.rem_nonneg a (Z.pos b) ltac:(lia) Ha) as Hb.
  set (n := (a ÷ Z.pos b)%Z) in *.
  unfold Qcle, Qc_of_Z. simpl. unfold Qle. simpl. lia.
Qed.

Lemma Qctrunc_nonneg (z : Qc) : 0 ≤ z → (0 ≤ Qctrunc z)%Z.
Proof.
  unfold Qctrunc. destruct z as [[a b] Hc]. intros Hz. simpl.
  apply Z.quot_pos; [|lia].
  revert Hz. unfold Qcle. simpl. unfold Qle. simpl. lia.
Qed.

Lemma Qcdiv_nonneg (x d : Qc) : 0 ≤ x → 0 < d → 0 ≤ x / d.
Proof.
  intros Hx Hd. unfold Qcdiv. apply Qcmult_nonneg_nonneg; [done|].
  by apply Qclt_le_weak, Qcinv_pos.
Qed.

(** The remainder of a non-negative dividend by a positive divisor is not
    negative. *)
Lemma nrem_nonneg (x d : Qc) :
  0 ≤ x → 0 < d → 0 ≤ x - d * Qc_of_Z (Qctrunc (x / d)).
Proof.
  intros Hx Hd. pose proof (Qctrunc_le (x / d) (Qcdiv_nonneg x d Hx Hd)) as H.
  assert (x = d * (x / d)) as Heq.
  { rewrite Qcmult_div_r; [done|]. symmetry. by apply Qclt_not_eq. }
  rewrite Heq at 1. clear Heq.
  generalize dependent (Qc_of_Z (Qctrunc (x / d))). intros n H.
  generalize dependent (x / d). intros z H.
  qc2q. nra.
Qed.

(** ** The bracket search *)

Lemma find_bracket_neighbours t fs a b :
  find_bracket t fs = Some (a, b) →
  ∃ i, fs !! i = Some a ∧ fs !! S i = Some b.
Proof.
  induction fs as [|x fs IH]; [done|]. destruct fs as [|y fs']; [done|].
  cbn [find_bracket] in *.
  destruct (nge t (Fin (time x)) && nle t (Fin (time y))).
  - intros [= -> ->]. by exists 0%nat.
  - intros H. destruct (IH H) as (i & H1 & H2). by exists (S i).
Qed.

(** Within the clip's time range the search finds a pair, unless the clip
    has a single keyframe. *)
Lemma find_bracket_in_range (q : Qc) (fs : list Keyframe) (x y last_kf : Keyframe) :
  last (x :: y :: fs) = Some last_kf →
  time x ≤ q → q ≤ time last_kf →
  is_Some (find_bracket (Fin q) (x :: y :: fs)).
Proof.
  revert x y. induction fs as [|z fs IH]; intros x y Hlast Hx Hl.
  - simpl in Hlast. injection Hlast as <-. cbn [find_bracket].
    unfold nge, nle. rewrite !bool_decide_eq_true_2 by done. by eexists.
  - cbn [find_bracket]. unfold nge. unfold nle at 1.
    rewrite bool_decide_eq_true_2 by done. cbn [andb].
    unfold nle. case_bool_decide as Hy; [by eexists|].
    apply IH; [exact Hlast| |exact Hl].
    apply Qclt_le_weak. by apply Qclt_nge.
Qed.

Lemma bracket_encloses (q : Qc) (fs : list Keyframe)
    (first_kf last_kf : Keyframe) :
  head fs = Some first_kf →
  last fs = Some last_kf →
  time first_kf ≤ q →
  q ≤ time last_kf →
  neighbours fs (bracket (Fin q) first_kf last_kf fs).1
                (bracket (Fin q) first_kf last_kf fs).2 ∧
  time (bracket (Fin q) first_kf last_kf fs).1 ≤ q ∧
  q ≤ time (bracket (Fin q) first_kf last_kf fs).2.
Proof.
  intros Hh Hl H1 H2. unfold bracket.
  destruct fs as [|x [|y fs]]; [done| |].
  - injection Hh as <-. injection Hl as <-. simpl.
    split; [by right|done].
  - injection Hh as <-.
    destruct (find_bracket_in_range q fs x y last_kf Hl H1 H2) as [[a b] Hab].
    rewrite Hab. cbn [default fst snd].
    split; [left; by eapply find_bracket_neighbours|].
    apply find_bracket_brackets in Hab as [Ha Hb].
    unfold nge, nle in *. split; eapply bool_decide_eq_true_1; eassumption.
Qed.

(** X1.  A looping clip of positive duration never finishes, and every
    frame at or after its start samples it at a time in [0, duration); when
    its first keyframe is at time 0 or before, the keyframes the frame
    interpolates between are neighbours in the clip and their times enclose
    the sample time. *)
Theorem looping_clip_samples_within_duration
    (s : Refs) (now : Qc) (pb : Playback) (first_kf last_kf : Keyframe) :
  clipRef s = Some pb →
  looping (clip pb) = true →
  head (frames (clip pb)) = Some first_kf →
  last (frames (clip pb)) = Some last_kf →
  0 < time last_kf →
  start pb ≤ now →
  finished (clip pb) (Fin now - Fin (start pb))%num (Fin (time last_kf))
    = false ∧
  ∃ q, effective_time (clip pb) (Fin now - Fin (start pb))%num
         (Fin (time last_kf)) = Fin q ∧
       0 ≤ q ∧ q < time last_kf ∧
       (time first_kf ≤ 0 →
        neighbours (frames (clip pb))
          (bracket (Fin q) first_kf last_kf (frames (clip pb))).1
          (bracket (Fin q) first_kf last_kf (frames (clip pb))).2 ∧
        time (bracket (Fin q) first_kf last_kf (frames (clip pb))).1 ≤ q ∧
        q ≤ time (bracket (Fin q) first_kf last_kf (frames (clip pb))).2).
Proof.
  intros Hclip Hloop Hfirst Hlast Hd Hnow.
  assert (0 ≤ now - start pb) as He.
  { clear -Hnow. qc2q. lra. }
  assert (d_ne : time last_kf ≠ 0) by (symmetry; by apply Qclt_not_eq).
  split.
  - unfold finished. by rewrite Hloop.
  - unfold effective_time. rewrite Hloop. simpl.
    rewrite decide_False by done. eexists. split; [done|].
    pose proof (nrem_nonneg _ _ He Hd) as Hq0.
    pose proof (nrem_lt (now - start pb) _ Hd) as Hq1.
    split; [exact Hq0|]. split; [exact Hq1|].
    intros Hf. apply bracket_encloses; [done|done| |by apply Qclt_le_weak].
    by etrans.
Qed.

Lemma looping_clip_samples_within_duration_witness :
  finished looping_ramp_clip (Fin (dec 3 2) - Fin 0)%num (Fin 1) = false ∧
  ∃ q, effective_time looping_ramp_clip (Fin (dec 3 2) - Fin 0)%num (Fin 1)
         = Fin q ∧
       0 ≤ q ∧ q < 1 ∧
       (0 ≤ 0 →
        neighbours (frames looping_ramp_clip)
          (bracket (Fin q) (mkKeyframe 0 {[ "a" := 0 ]})
             (mkKeyframe 1 {[ "a" := 1 ]}) (frames looping_ramp_clip)).1
          (bracket (Fin q) (mkKeyframe 0 {[ "a" := 0 ]})
             (mkKeyframe 1 {[ "a" := 1 ]}) (frames looping_ramp_clip)).2 ∧
        time (bracket (Fin q) (mkKeyframe 0 {[ "a" := 0 ]})
                (mkKeyframe 1 {[ "a" := 1 ]}) (frames looping_ramp_clip)).1 ≤ q ∧
        q ≤ time (bracket (Fin q) (mkKeyframe 0 {[ "a" := 0 ]})
                    (mkKeyframe 1 {[ "a" := 1 ]}) (frames looping_ramp_clip)).2).
Proof.
  apply (looping_clip_samples_within_duration looping_ramp_refs (dec 3 2)
           (mkPlayback looping_ramp_clip 0)
           (mkKeyframe 0 {[ "a" := 0 ]}) (mkKeyframe 1 {[ "a" := 1 ]})).
  - reflexivity.
  - reflexivity.
  - reflexivity.
  - reflexivity.
  - by_compute.
  - by_compute.
Defined.

(** X2.  For a sample time within the clip's range, the keyframes the
    runner interpolates between are neighbours in the clip (or its single
    keyframe) and their times enclose the sample time. *)
Theorem bracket_encloses_sample_time
    (q : Qc) (fs : list Keyframe) (first_kf last_kf : Keyframe) :
  head fs = Some first_kf →
  last fs = Some last_kf →
  time first_kf ≤ q →
  q ≤ time last_kf →
  neighbours fs (bracket (Fin q) first_kf last_kf fs).1
                (bracket (Fin q) first_kf last_kf fs).2 ∧
  time (bracket (Fin q) first_kf last_kf fs).1 ≤ q ∧
  q ≤ time (bracket (Fin q) first_kf last_kf fs).2.
Proof.
  intros Hh Hl H1 H2. unfold bracket.
  destruct fs as [|x [|y fs]]; [done| |].
  - injection Hh as <-. injection Hl as <-. simpl.
    split; [by right|done].
  - injection Hh as <-.
    destruct (find_bracket_in_range q fs x y last_kf Hl H1 H2) as [[a b] Hab].
    rewrite Hab. cbn [default fst snd].
    split; [left; by eapply find_bracket_neighbours|].
    apply find_bracket_brackets in Hab as [Ha Hb].
    unfold nge, nle in *. split; eapply bool_decide_eq_true_1; eassumption.
Qed.

Lemma bracket_encloses_sample_time_witness :
  time (bracket (Fin (dec 1 2)) (mkKeyframe 0 {[ "a" := 0 ]})
          (mkKeyframe 1 {[ "a" := 1 ]}) (frames ramp_clip)).1 ≤ dec 1 2.
Proof.
  refine (proj1 (proj2 (bracket_encloses_sample_time (dec 1 2) (frames ramp_clip)
            (mkKeyframe 0 {[ "a" := 0 ]}) (mkKeyframe 1 {[ "a" := 1 ]}) _ _ _ _)));
    try reflexivity; vm_compute; discriminate.
Defined.

(** ** Values written by a frame *)

Lemma effective_time_finite (c : Clip) (e d : Qc) :
  (looping c = true → d ≠ 0) →
  ∃ q, effective_time c (Fin e) (Fin d) = Fin q.
Proof.
  intros Hd. unfold effective_time. destruct (looping c); simpl.
  - rewrite decide_False by auto. by eexists.
  - by eexists.
Qed.

(** X3.  Unless the clip is a loop of duration 0, a frame never writes
    [NaN]: the interpolation factor is a number within [0, 1], and every
    joint the frame writes gets the finite value [(1 - alpha) v1 + alpha v2]
    of the values of the two bracketing keyframes (a missing value counting
    as 0). *)
Theorem written_values_are_numbers
    (s : Refs) (now : Qc) (pb : Playback) (oid : nat)
    (first_kf last_kf f1 f2 : Keyframe) :
  robotRef s = Some oid →
  clipRef s = Some pb →
  head (frames (clip pb)) = Some first_kf →
  last (frames (clip pb)) = Some last_kf →
  (looping (clip pb) = true → time last_kf ≠ 0) →
  let elapsed := (Fin now - Fin (start pb))%num in
  let duration := Fin (time last_kf) in
  finished (clip pb) elapsed duration = false →
  bracket (effective_time (clip pb) elapsed duration) first_kf last_kf
          (frames (clip pb)) = (f1, f2) →
  ∃ s' al,
    clipStep now s = Some s' ∧
    alpha_of (effective_time (clip pb) elapsed duration) f1 f2 = Fin al ∧
    0 ≤ al ∧ al ≤ 1 ∧
    ∀ nm j,
      nm ∈ dom (joints f1) ∪ dom (joints f2) →
      jointMapRef s !! nm = Some j →
      setJointValue_is_function j = true →
      joint_reading s' nm
      = Some (Fin ((1 - al) * default 0 (joints f1 !! nm)
                   + al * default 0 (joints f2 !! nm))).
Proof.
  intros Hrobot Hclip Hfirst Hlast Hd elapsed duration Hfin Hbr.
  pose proof (clipStep_running s now pb oid first_kf last_kf
                Hrobot Hclip Hfirst Hlast f1 f2) as Hrun.
  cbv zeta in Hrun. specialize (Hrun Hfin Hbr).
  destruct (effective_time_finite (clip pb) (now - start pb) (time last_kf) Hd)
    as [q Hq].
  change (Fin (now - start pb)) with (Fin now - Fin (start pb))%num in Hq.
  fold elapsed duration in Hq.
  destruct (alpha_finite q f1 f2) as (al & Hal & H0 & H1).
  eexists _, al. split; [exact Hrun|]. rewrite Hq.
  split; [exact Hal|]. split; [exact H0|]. split; [exact H1|].
  intros nm j Hnm Hj Hset.
  unfold joint_reading. cbn [jointMapRef set_jointMap].
  rewrite write_joints_lookup. unfold jointNames.
  rewrite decide_True by done. unfold written. rewrite Hj, Hset.
  cbn [mbind option_bind jointValue setJointValue].
  fold elapsed duration. rewrite Hq, Hal.
  unfold sample_value, joint_or_zero, MathUtils.lerp. by simpl.
Qed.

Lemma written_values_are_numbers_witness :
  ∃ s' al,
    clipStep (dec 1 2) ramp_refs = Some s' ∧ 0 ≤ al ∧ al ≤ 1 ∧
    joint_reading s' "a" = Some (Fin ((1 - al) * 0 + al * 1)).
Proof.
  destruct (written_values_are_numbers ramp_refs (dec 1 2)
              (mkPlayback ramp_clip 0) 0%nat
              (mkKeyframe 0 {[ "a" := 0 ]}) (mkKeyframe 1 {[ "a" := 1 ]})
              (mkKeyframe 0 {[ "a" := 0 ]}) (mkKeyframe 1 {[ "a" := 1 ]}))
    as (s' & al & Hstep & _ & H0 & H1 & Hval);
    [reflexivity | reflexivity | reflexivity | reflexivity
    | vm_compute; discriminate
    | vm_compute; reflexivity | vm_compute; reflexivity |].
  exists s', al. split; [exact Hstep|]. split; [exact H0|]. split; [exact H1|].
  apply (Hval "a" joint0); [by_compute | reflexivity | reflexivity].
Defined.

(** X4.  A frame fails (with the [TypeError] of reading a keyframe of an
    empty array) exactly when a robot is loaded and the active clip has no
    keyframes; otherwise it completes. *)
Theorem clipStep_fails_only_on_empty_clip (s : Refs) (now : Qc) :
  clipStep now s = None ↔
  ∃ oid pb, robotRef s = Some oid ∧ clipRef s = Some pb ∧
            frames (clip pb) = [].
Proof.
  unfold clipStep. split.
  - destruct (robotRef s) as [oid|]; [|done].
    destruct (clipRef s) as [pb|]; [|done].
    destruct (frames (clip pb)) as [|x fs] eqn:Hfs; [by eauto|].
    destruct (last (x :: fs)) as [lk|] eqn:Hl; [|by apply last_None in Hl].
    cbn [mbind option_bind head]. destruct (finished _ _ _); [done|].
    cbn [mbind option_bind]. by destruct (bracket _ _ _ _).
  - intros (oid & pb & -> & -> & ->). done.
Qed.

(** ** Sampling at a keyframe's own time *)

Lemma epsilon_pos : 0 < epsilon.
Proof. done. Qed.

Lemma spaced_lt (fs : list Keyframe) (i j : nat) (a b : Keyframe) :
  times_spaced fs → fs !! i = Some a → fs !! j = Some b → (i < j)%nat →
  time a + epsilon ≤ time b.
Proof.
  intros Hsp Ha Hb Hij.
  assert (∃ k, j = (i + S k)%nat) as [k ->] by (exists (j - i - 1)%nat; lia).
  revert b Hb. clear Hij. induction k as [|k IH]; intros b Hb.
  - replace (i + 1)%nat with (S i) in Hb by lia. by eapply Hsp.
  - destruct (fs !! (i + S k)%nat) as [c|] eqn:Hc.
    + specialize (IH c eq_refl).
      replace (i + S (S k))%nat with (S (i + S k)) in Hb by lia.
      pose proof (Hsp _ _ _ Hc Hb) as Hcb. pose proof epsilon_pos as He.
      clear -IH Hcb He. generalize dependent epsilon. intros e IH Hcb He.
      qc2q. lra.
    + apply lookup_ge_None in Hc. apply lookup_lt_Some in Hb. lia.
Qed.

Lemma spaced_same_time (fs : list Keyframe) (i j : nat) (a b : Keyframe) :
  times_spaced fs → fs !! i = Some a → fs !! j = Some b →
  time a ≤ time b → time b ≤ time a → i = j.
Proof.
  intros Hsp Ha Hb H1 H2. pose proof epsilon_pos as He.
  destruct (Nat.lt_trichotomy i j) as [Hlt|[Heq|Hgt]]; [|done|].
  - pose proof (spaced_lt fs i j a b Hsp Ha Hb Hlt) as H. exfalso.
    clear -H H2 He. generalize dependent epsilon. intros e H He. qc2q. lra.
  - pose proof (spaced_lt fs j i b a Hsp Hb Ha Hgt) as H. exfalso.
    clear -H H1 He. generalize dependent epsilon. intros e H He. qc2q. lra.
Qed.

Lemma spaced_le (fs : list Keyframe) (i j : nat) (a b : Keyframe) :
  times_spaced fs → fs !! i = Some a → fs !! j = Some b → (i ≤ j)%nat →
  time a ≤ time b.
Proof.
  intros Hsp Ha Hb Hij. destruct (decide (i = j)) as [->|Hne].
  - rewrite Ha in Hb. injection Hb as ->. apply Qcle_refl.
  - pose proof (spaced_lt fs i j a b Hsp Ha Hb ltac:(lia)) as H.
    pose proof epsilon_pos as He.
    clear -H He. generalize dependent epsilon. intros e H He. qc2q. lra.
Qed.

Lemma alpha_at_start (f1 f2 : Keyframe) : alpha_of (Fin (time f1)) f1 f2 = 0%num.
Proof.
  unfold alpha_of. destruct (span_positive f1 f2) as (d & -> & _ & Hd).
  cbn [nsub num_lift2 ndiv].
  rewrite decide_False by (symmetry; by apply Qclt_not_eq).
  assert ((time f1 - time f1) / d = 0) as -> by (unfold Qcdiv; ring).
  cbn [Math_max]. rewrite decide_True by apply Qcle_refl.
  cbn [Math_min]. by rewrite decide_False by by apply Qclt_not_le.
Qed.

Lemma alpha_at_end (f1 f2 : Keyframe) :
  time f1 + epsilon ≤ time f2 → alpha_of (Fin (time f2)) f1 f2 = 1%num.
Proof.
  intros Hgap. unfold alpha_of, span_of.
  assert (epsilon ≤ time f2 - time f1) as Hge.
  { clear -Hgap. generalize dependent epsilon. intros e H. qc2q. lra. }
  assert (time f2 - time f1 ≠ 0) as Hne.
  { symmetry. apply Qclt_not_eq. eapply Qclt_le_trans; [apply epsilon_pos|done]. }
  cbn [nsub num_lift2 Math_max].
  rewrite (decide_True (P := epsilon ≤ _)) by done.
  cbn [ndiv]. rewrite decide_False by done.
  assert ((time f2 - time f1) / (time f2 - time f1) = 1) as ->
    by (by field).
  rewrite (decide_True (P := 0 ≤ 1)) by done.
  cbn [Math_min]. by rewrite decide_True by apply Qcle_refl.
Qed.

(** X5.  In a clip whose consecutive keyframes are at least 0.001 s apart,
    an unfinished frame whose effective time is exactly the time of a
    keyframe [f] writes [f]'s own values (0 for a joint [f] does not name)
    to every joint of the bracket: authored keyframes are reproduced
    exactly. *)
Theorem keyframe_is_reproduced_at_its_time
    (s : Refs) (now : Qc) (pb : Playback) (oid : nat)
    (first_kf last_kf f : Keyframe) (j : nat) :
  robotRef s = Some oid →
  clipRef s = Some pb →
  head (frames (clip pb)) = Some first_kf →
  last (frames (clip pb)) = Some last_kf →
  times_spaced (frames (clip pb)) →
  frames (clip pb) !! j = Some f →
  let elapsed := (Fin now - Fin (start pb))%num in
  let duration := Fin (time last_kf) in
  finished (clip pb) elapsed duration = false →
  effective_time (clip pb) elapsed duration = Fin (time f) →
  ∃ s' f1 f2,
    clipStep now s = Some s' ∧
    bracket (Fin (time f)) first_kf last_kf (frames (clip pb)) = (f1, f2) ∧
    (f = f1 ∨ f = f2) ∧
    ∀ nm, jointMapRef s' !! nm =
      entry_after f1 f2 nm (Fin (default 0 (joints f !! nm)))
        (jointMapRef s !! nm).
Proof.
  intros Hrobot Hclip Hfirst Hlast Hsp Hj elapsed duration Hfin Ht.
  set (fs := frames (clip pb)) in *.
  assert (fs !! 0%nat = Some first_kf) as H0 by (by rewrite <- head_lookup).
  assert (fs !! (length fs - 1)%nat = Some last_kf) as Hl.
  { rewrite last_lookup in Hlast.
    by replace (length fs - 1)%nat with (Nat.pred (length fs)) by lia. }
  assert (time first_kf ≤ time f) as Hlo.
  { eapply (spaced_le fs 0 j); eauto; lia. }
  assert (time f ≤ time last_kf) as Hhi.
  { eapply (spaced_le fs j (length fs - 1)); eauto.
    apply lookup_lt_Some in Hj. lia. }
  destruct (bracket_encloses_sample_time (time f) fs first_kf last_kf
              Hfirst Hlast Hlo Hhi) as (Hnb & Hb1 & Hb2).
  destruct (bracket (Fin (time f)) first_kf last_kf fs) as [f1 f2] eqn:Hbr.
  cbn [fst snd] in *.
  pose proof (clipStep_running s now pb oid first_kf last_kf
                Hrobot Hclip Hfirst Hlast f1 f2) as Hrun.
  cbv zeta in Hrun. fold fs elapsed duration in Hrun.
  rewrite Ht in Hrun. specialize (Hrun Hfin Hbr).
  assert ((f = f1 ∧ alpha_of (Fin (time f)) f1 f2 = 0%num) ∨
          (f = f2 ∧ alpha_of (Fin (time f)) f1 f2 = 1%num)) as Hcase.
  { destruct Hnb as [(i & Hi1 & Hi2)|[Hone ->]].
    - destruct (decide (j ≤ i)%nat) as [Hji|Hji].
      + left. pose proof (spaced_le fs j i f f1 Hsp Hj Hi1 Hji) as Hle.
        assert (j = i) as -> by (by eapply spaced_same_time).
        rewrite Hj in Hi1. injection Hi1 as ->.
        split; [done|apply alpha_at_start].
      + right.
        pose proof (spaced_le fs (S i) j f2 f Hsp Hi2 Hj ltac:(lia)) as Hle.
        assert (S i = j) as <- by (by eapply spaced_same_time).
        rewrite Hj in Hi2. injection Hi2 as ->.
        split; [done|]. apply alpha_at_end. by eapply Hsp.
    - left. rewrite Hone in Hj. destruct j; [|done].
      injection Hj as ->. split; [done|apply alpha_at_start]. }
  eexists _, f1, f2. split; [exact Hrun|]. split; [done|].
  split; [tauto|].
  intros nm. cbn [jointMapRef set_jointMap]. rewrite write_joints_lookup.
  unfold entry_after, written, jointNames, sample_value, joint_or_zero.
  assert (MathUtils.lerp (Fin (default 0 (joints f1 !! nm)))
            (Fin (default 0 (joints f2 !! nm))) (alpha_of (Fin (time f)) f1 f2)
          = Fin (default 0 (joints f !! nm))) as ->.
  { destruct Hcase as [[-> ->]|[-> ->]]; [apply lerp_at_0|apply lerp_at_1]. }
  destruct (jointMapRef s !! nm) as [jt|]; [|by case_decide].
  case_decide as Hnm.
  - by rewrite bool_decide_eq_true_2.
  - by rewrite bool_decide_eq_false_2 by done.
Qed.

Lemma keyframe_is_reproduced_at_its_time_witness :
  ∃ s', clipStep 0 ramp_refs = Some s' ∧
        jointMapRef s' !! "a" = Some (joint_at 0%num).
Proof.
  destruct (keyframe_is_reproduced_at_its_time ramp_refs 0
              (mkPlayback ramp_clip 0) 0%nat
              (mkKeyframe 0 {[ "a" := 0 ]}) (mkKeyframe 1 {[ "a" := 1 ]})
              (mkKeyframe 0 {[ "a" := 0 ]}) 0%nat)
    as (s' & f1 & f2 & Hstep & Hbr & _ & Hval);
    [reflexivity | reflexivity | reflexivity | reflexivity
    | intros [|[|i]] a b Ha Hb; try discriminate;
      injection Ha as <-; injection Hb as <-; vm_compute; discriminate
    | reflexivity | vm_compute; reflexivity | vm_compute; reflexivity |].
  exists s'. split; [exact Hstep|].
  rewrite (Hval "a"). vm_compute in Hbr. injection Hbr as <- <-. by_compute.
Defined.

(** ** What a frame never changes *)

Lemma write_joints_entry (f1 f2 : Keyframe) (alpha : number)
    (reg : gmap string URDFJoint) (nm : string) (j : URDFJoint) :
  reg !! nm = Some j →
  ∃ j', write_joints f1 f2 alpha reg !! nm = Some j' ∧
        setJointValue_is_function j' = setJointValue_is_function j ∧
        (setJointValue_is_function j = false → j' = j).
Proof.
  intros Hj. rewrite write_joints_lookup, Hj. unfold written.
  case_decide; [|by eauto].
  destruct (setJointValue_is_function j) eqn:E; eauto.
  eexists. split; [done|]. by split.
Qed.

Lemma follow_entry (DEG2RAD k : Qc) (nm0 : string) (coord : number) (range : Qc)
    (reg : gmap string URDFJoint) (nm : string) (j : URDFJoint) :
  reg !! nm = Some j →
  ∃ j', follow DEG2RAD nm0 coord range k reg !! nm = Some j' ∧
        setJointValue_is_function j' = setJointValue_is_function j ∧
        (setJointValue_is_function j = false → j' = j).
Proof.
  intros Hj. rewrite follow_lookup. case_decide as Hn; [|by eauto].
  rewrite Hj. destruct (setJointValue_is_function j) eqn:E; eauto.
  eexists. split; [done|]. by split.
Qed.

Lemma clipStep_shape (now : Qc) (s s' : Refs) :
  clipStep now s = Some s' →
  robotRef s' = robotRef s ∧ headTargetRef s' = headTargetRef s ∧
  (clipRef s' = clipRef s ∨ clipRef s' = None) ∧
  ∀ nm j, jointMapRef s !! nm = Some j →
    ∃ j', jointMapRef s' !! nm = Some j' ∧
          setJointValue_is_function j' = setJointValue_is_function j ∧
          (setJointValue_is_function j = false → j' = j).
Proof.
  unfold clipStep.
  destruct (robotRef s) as [oid|] eqn:Hr;
    [|intros [= <-]; repeat split; eauto].
  destruct (clipRef s) as [pb|] eqn:Hc;
    [|intros [= <-]; repeat split; eauto].
  destruct (last (frames (clip pb))) as [lk|]; [|done].
  cbn [mbind option_bind].
  destruct (finished _ _ _).
  { intros [= <-]. cbn. repeat split; eauto. }
  destruct (head (frames (clip pb))) as [fk|]; [|done].
  cbn [mbind option_bind].
  destruct (bracket _ _ _ _) as [f1 f2]. intros [= <-].
  cbn [robotRef headTargetRef clipRef jointMapRef set_jointMap].
  repeat split; eauto. intros nm j Hj. by apply write_joints_entry.
Qed.

(** X6.  A frame (clip playback and head follow) never adds, removes or
    renames a joint of the registry, never touches a joint without a
    [setJointValue], and never starts a clip: the robot and the head target
    are unchanged and the active clip is either kept or cleared. *)
Theorem frame_keeps_registry_shape
    (DEG2RAD k : Qc) (enable : bool) (now : Qc) (s s' : Refs) :
  useFrame_follow DEG2RAD enable k now s = Some s' →
  robotRef s' = robotRef s ∧
  headTargetRef s' = headTargetRef s ∧
  (clipRef s' = clipRef s ∨ clipRef s' = None) ∧
  dom (jointMapRef s') = dom (jointMapRef s) ∧
  ∀ nm j, jointMapRef s !! nm = Some j →
    ∃ j', jointMapRef s' !! nm = Some j' ∧
          setJointValue_is_function j' = setJointValue_is_function j ∧
          (setJointValue_is_function j = false → j' = j).
Proof.
  unfold useFrame_follow. intros H.
  destruct (clipStep now s) as [s1|] eqn:Hstep; [|done].
  cbn [mbind option_bind] in H. injection H as <-.
  destruct (clipStep_shape now s s1 Hstep) as (H1 & H2 & H3 & H4).
  assert (∀ nm j, jointMapRef s !! nm = Some j →
    ∃ j', jointMapRef (if enable then headFollow DEG2RAD k s1 else s1) !! nm
            = Some j' ∧
          setJointValue_is_function j' = setJointValue_is_function j ∧
          (setJointValue_is_function j = false → j' = j)) as Hent.
  { intros nm j Hj. destruct (H4 nm j Hj) as (j1 & Hj1 & Hf1 & Hk1).
    destruct enable; [|by eauto].
    unfold headFollow. cbn [jointMapRef set_jointMap].
    destruct (follow_entry DEG2RAD k "head_pan_joint"
                (if active (headTargetRef s1) then hx (headTargetRef s1) else 0%num)
                (Qc_of_Z 50) (jointMapRef s1) nm j1 Hj1) as (j2 & Hj2 & Hf2 & Hk2).
    destruct (follow_entry DEG2RAD k "head_tilt_joint"
                (if active (headTargetRef s1) then hy (headTargetRef s1) else 0%num)
                (Qc_of_Z 30) _ nm j2 Hj2) as (j3 & Hj3 & Hf3 & Hk3).
    exists j3. split; [exact Hj3|]. split; [congruence|].
    intros Hfalse. rewrite Hk3, Hk2, Hk1; congruence. }
  assert (∀ nm, jointMapRef (if enable then headFollow DEG2RAD k s1 else s1) !! nm
                = None ↔ jointMapRef s !! nm = None) as Hnone.
  { intros nm. split.
    - intros Hn. destruct (jointMapRef s !! nm) as [j|] eqn:Hj; [|done].
      destruct (Hent nm j Hj) as (j' & Hj' & _). congruence.
    - intros Hn. destruct enable.
      + unfold headFollow. cbn [jointMapRef set_jointMap].
        rewrite !follow_lookup.
        assert (jointMapRef s1 !! nm = None) as Hn1.
        { revert Hstep Hn. clear. unfold clipStep.
          destruct (robotRef s); [|by intros [= <-]].
          destruct (clipRef s) as [pb|]; [|by intros [= <-]].
          destruct (last (frames (clip pb))); [|done]. cbn [mbind option_bind].
          destruct (finished _ _ _); [by intros [= <-]|].
          destruct (head (frames (clip pb))); [|done]. cbn [mbind option_bind].
          destruct (bracket _ _ _ _). intros [= <-] Hn.
          cbn [jointMapRef set_jointMap]. rewrite write_joints_lookup, Hn.
          by case_decide. }
        repeat case_decide; subst; rewrite ?follow_lookup, ?Hn1;
          repeat case_decide; by rewrite ?Hn1.
      + revert Hstep Hn. clear. unfold clipStep.
        destruct (robotRef s); [|by intros [= <-]].
        destruct (clipRef s) as [pb|]; [|by intros [= <-]].
        destruct (last (frames (clip pb))); [|done]. cbn [mbind option_bind].
        destruct (finished _ _ _); [by intros [= <-]|].
        destruct (head (frames (clip pb))); [|done]. cbn [mbind option_bind].
        destruct (bracket _ _ _ _). intros [= <-] Hn.
        cbn [jointMapRef set_jointMap]. rewrite write_joints_lookup, Hn.
        by case_decide. }
  split; [by destruct enable|]. split; [by destruct enable|].
  split; [by destruct enable|]. split; [|exact Hent].
  apply set_eq. intros nm. rewrite !elem_of_dom, <- !not_eq_None_Some.
  by rewrite Hnone.
Qed.

Lemma frame_keeps_registry_shape_witness :
  ∃ s', useFrame_hero DEG2RAD_approx true 0 head_refs = Some s' ∧
        dom (jointMapRef s') = dom (jointMapRef head_refs).
Proof.
  destruct (useFrame_hero DEG2RAD_approx true 0 head_refs) as [s'|] eqn:E;
    [|vm_compute in E; discriminate].
  exists s'. split; [reflexivity|].
  exact (proj1 (proj2 (proj2 (proj2
    (frame_keeps_registry_shape DEG2RAD_approx (dec 12 100) true 0
       head_refs s' E))))).
Defined.

(** * Further properties of head follow and the pointer *)

Lemma clamp_unit_spec (x : Qc) :
  MathUtils.clamp (Fin x) (Fin (-1)) 1%num = Fin (clamp_unit x).
Proof. reflexivity. Qed.

Lemma clamp_unit_range (x : Qc) : -1 ≤ clamp_unit x ∧ clamp_unit x ≤ 1.
Proof.
  unfold clamp_unit, Qcmax, Qcmin.
  repeat case_decide; split; try done; try apply Qcle_refl.
  - apply Qclt_le_weak. by apply Qclt_nge.
Qed.

Section HeadTracking.
Variables (DEG2RAD k : Qc).

(** One frame moves each head joint one smoothing step toward its goal. *)
Lemma frame_following now (s : Refs) (x y : Qc) (act : bool) (pan tilt : Qc) :
  following s x y act pan tilt →
  ∃ s', useFrame_follow DEG2RAD true k now s = Some s' ∧
    following s' x y act
      ((1 - k) * pan + k * head_goal DEG2RAD act x (Qc_of_Z 50))
      ((1 - k) * tilt + k * head_goal DEG2RAD act y (Qc_of_Z 30)).
Proof.
  intros (Htgt & Hpb & (jp & Hjp & Hsp & Hvp) & (jt & Hjt & Hst & Hvt)).
  destruct (clipStep_spares_head now s Hpb)
    as (s1 & Hstep & Htgt1 & Hpb1 & Hp1 & Ht1).
  unfold useFrame_follow. rewrite Hstep. cbn [mbind option_bind].
  eexists. split; [done|].
  unfold following, holds_angle, headFollow.
  cbn [headTargetRef clipRef jointMapRef set_jointMap].
  rewrite Htgt1, Htgt. cbn [active hx hy].
  split; [done|]. split; [done|].
  rewrite !follow_lookup.
  rewrite (decide_False (P := "head_pan_joint" = "head_tilt_joint")) by done.
  rewrite !decide_True by done.
  rewrite (decide_False (P := "head_tilt_joint" = "head_pan_joint")) by done.
  rewrite Hp1, Ht1, Hjp, Hjt, Hsp, Hst.
  assert (∀ c : Qc, (if act then Fin c else 0%num)
                    = Fin (if act then c else 0)) as Hc by (by destruct act).
  rewrite !Hc, !clamp_unit_spec.
  split; eexists; (split; [done|]); (split; [done|]);
    cbn [jointValue setJointValue default]; rewrite ?Hvp, ?Hvt;
    unfold MathUtils.lerp, degToRad, head_goal; simpl;
    f_equal; ring.
Qed.

Lemma frames_following (nows : list Qc) (s : Refs) (x y : Qc) (act : bool)
    (pan tilt : Qc) :
  following s x y act pan tilt →
  ∃ s', run_frames (useFrame_follow DEG2RAD true k) nows s = Some s' ∧
    following s' x y act
      (smoothed k (head_goal DEG2RAD act x (Qc_of_Z 50)) pan (length nows))
      (smoothed k (head_goal DEG2RAD act y (Qc_of_Z 30)) tilt (length nows)).
Proof.
  revert s pan tilt. induction nows as [|now rest IH]; intros s pan tilt Hs.
  - exists s. split; [done|]. simpl length. by rewrite !smoothed_0.
  - destruct (frame_following now s x y act pan tilt Hs) as (s1 & Hstep & Hs1).
    destruct (IH _ _ _ Hs1) as (s' & Hrun & Hs').
    exists s'. split.
    + simpl. rewrite Hstep. exact Hrun.
    + simpl length. by rewrite <- !smoothed_shift.
Qed.

End HeadTracking.

Section SmoothingBothSides.
Variables (k d c : Qc).
Hypothesis Hk0 : 0 < k.
Hypothesis Hk1 : k < 1.

Lemma smoothed_mirror n : smoothed k d (d + d - c) n = d + d - smoothed k d c n.
Proof. unfold smoothed. ring. Qed.

(** Starting above the goal, the angle stays above it. *)
Lemma smoothed_ge_target n : d ≤ c → d ≤ smoothed k d c n.
Proof using Hk0 Hk1.
  intros Hdc.
  assert (d + d - c ≤ d) as Hm by (clear -Hdc; qc2q; lra).
  pose proof (smoothed_le_target k d (d + d - c) Hk1 Hm n) as H.
  rewrite smoothed_mirror in H.
  generalize dependent (smoothed k d c n). intros z H. clear -H. qc2q. lra.
Qed.

(** From either side the distance to the goal falls below every bound. *)
Lemma smoothed_converges_abs (eps : Qc) :
  0 < eps →
  ∃ N : nat, ∀ n, (N ≤ n)%nat →
    - eps < d - smoothed k d c n ∧ d - smoothed k d c n < eps.
Proof using Hk0 Hk1.
  intros He. destruct (Qclt_le_dec d c) as [Hlt|Hle].
  - assert (d + d - c ≤ d) as Hm by (clear -Hlt; qc2q; lra).
    destruct (smoothed_converges k d (d + d - c) Hk0 Hk1 Hm eps He) as [N HN].
    exists N. intros n Hn. specialize (HN n Hn).
    pose proof (smoothed_ge_target n (Qclt_le_weak _ _ Hlt)) as Hge.
    rewrite smoothed_mirror in HN.
    generalize dependent (smoothed k d c n). intros z HN Hge.
    clear -HN Hge He. qc2q. split; lra.
  - destruct (smoothed_converges k d c Hk0 Hk1 Hle eps He) as [N HN].
    exists N. intros n Hn. specialize (HN n Hn).
    pose proof (smoothed_le_target k d c Hk1 Hle n) as Hge.
    generalize dependent (smoothed k d c n). intros z HN Hge.
    clear -HN Hge He. qc2q. split; lra.
Qed.
End SmoothingBothSides.

(** X7.  Head follow converges to the pointer from any starting angle: with
    a smoothing factor [0 < k < 1] and any finite head target (active or
    not), the pan and tilt angles after [n] frames are
    [goal - (1 - k)^n * (goal - start)], where the goal is the clamped
    pointer coordinate scaled to 50 or 30 degrees, or 0 while the pointer is
    inactive.  The angle never crosses its goal and comes within any
    positive bound of it; the goal itself never exceeds 50 (30) degrees.
    In particular the head returns to centre once the pointer leaves. *)
Theorem head_tracking_converges
    (DEG2RAD k : Qc) (s : Refs) (x y : Qc) (act : bool) (pan0 tilt0 : Qc) :
  0 ≤ DEG2RAD → 0 < k → k < 1 →
  following s x y act pan0 tilt0 →
  let pan_goal := head_goal DEG2RAD act x (Qc_of_Z 50) in
  let tilt_goal := head_goal DEG2RAD act y (Qc_of_Z 30) in
  let pan := smoothed k pan_goal pan0 in
  let tilt := smoothed k tilt_goal tilt0 in
  (∀ nows, ∃ s',
      run_frames (useFrame_follow DEG2RAD true k) nows s = Some s' ∧
      current_angle s' "head_pan_joint" = Fin (pan (length nows)) ∧
      current_angle s' "head_tilt_joint" = Fin (tilt (length nows))) ∧
  (∀ n, (pan0 ≤ pan_goal → pan n ≤ pan_goal) ∧
        (pan_goal ≤ pan0 → pan_goal ≤ pan n) ∧
        (tilt0 ≤ tilt_goal → tilt n ≤ tilt_goal) ∧
        (tilt_goal ≤ tilt0 → tilt_goal ≤ tilt n)) ∧
  (∀ eps, 0 < eps →
     ∃ N, ∀ n, (N ≤ n)%nat →
       - eps < pan_goal - pan n ∧ pan_goal - pan n < eps ∧
       - eps < tilt_goal - tilt n ∧ tilt_goal - tilt n < eps) ∧
  (- (Qc_of_Z 50 * DEG2RAD) ≤ pan_goal ∧ pan_goal ≤ Qc_of_Z 50 * DEG2RAD ∧
   - (Qc_of_Z 30 * DEG2RAD) ≤ tilt_goal ∧ tilt_goal ≤ Qc_of_Z 30 * DEG2RAD) ∧
  (act = false → pan_goal = 0 ∧ tilt_goal = 0).
Proof.
  intros HD Hk0 Hk1 Hs pan_goal tilt_goal pan tilt.
  split; [|split; [|split; [|split]]].
  - intros nows.
    destruct (frames_following DEG2RAD k nows s x y act pan0 tilt0 Hs)
      as (s' & Hrun & _ & _ & (jp & Hjp & _ & Hvp) & (jt & Hjt & _ & Hvt)).
    exists s'. split; [exact Hrun|].
    unfold current_angle, joint_reading. rewrite Hjp, Hjt.
    cbn [mbind option_bind]. split; [exact Hvp|exact Hvt].
  - intros n. repeat split; intros H.
    + by apply smoothed_le_target.
    + by apply smoothed_ge_target.
    + by apply smoothed_le_target.
    + by apply smoothed_ge_target.
  - intros eps He.
    destruct (smoothed_converges_abs k pan_goal pan0 Hk0 Hk1 eps He) as [N1 H1].
    destruct (smoothed_converges_abs k tilt_goal tilt0 Hk0 Hk1 eps He) as [N2 H2].
    exists (N1 `max` N2)%nat. intros n Hn.
    destruct (H1 n ltac:(lia)) as [? ?], (H2 n ltac:(lia)) as [? ?]. done.
  - unfold pan_goal, tilt_goal, head_goal.
    destruct (clamp_unit_range (if act then x else 0)) as [Hx1 Hx2].
    destruct (clamp_unit_range (if act then y else 0)) as [Hy1 Hy2].
    generalize dependent (clamp_unit (if act then x else 0)). intros cx Hx1 Hx2.
    generalize dependent (clamp_unit (if act then y else 0)). intros cy Hy1 Hy2.
    replace (Qc_of_Z 50) with (Q2Qc 50) by by apply Qc_is_canon.
    replace (Qc_of_Z 30) with (Q2Qc 30) by by apply Qc_is_canon.
    clear -HD Hx1 Hx2 Hy1 Hy2. qc2q. repeat split; nra.
  - intros ->. unfold pan_goal, tilt_goal, head_goal.
    assert (clamp_unit 0 = 0) as -> by by_compute. split; ring.
Qed.

Lemma head_tracking_converges_witness :
  ∃ s', run_frames (useFrame_hero DEG2RAD_approx true) [0; 1] turned_head_refs
          = Some s' ∧
        current_angle s' "head_pan_joint"
          = Fin (smoothed (dec 12 100) 0 1 2).
Proof.
  assert (following turned_head_refs 0 0 false 1 1) as Hs.
  { split; [reflexivity|]. split; [exact I|].
    split; exists (joint_at 1%num); repeat split; reflexivity. }
  destruct (head_tracking_converges DEG2RAD_approx (dec 12 100)
              turned_head_refs 0 0 false 1 1)
    as [Hrun _];
    [vm_compute; discriminate | reflexivity | reflexivity | exact Hs |].
  destruct (Hrun [0; 1]) as (s' & Hs' & Hpan & _).
  exists s'. split; [exact Hs'|].
  rewrite Hpan. by_compute.
Defined.

(** * Further properties of the viewer *)

(** X8.  A mouse move sets the head target to the pointer position
    normalised to the viewport and clamped to [-1, 1] on both axes, for any
    pointer position and any viewport size (a width or height of 0 counts
    as 1); with interaction disabled, or once the listeners are removed, it
    changes nothing.  Nothing but the head target is ever changed by it. *)
Theorem pointer_target_stays_in_range
    (DEG2RAD clientX clientY innerWidth innerHeight : Qc) (v : Viewer) :
  (mouse_listeners v = true ∧ enableInteraction v = true →
   ∃ x y,
     headTargetRef
       (refs (step DEG2RAD (MouseMove clientX clientY innerWidth innerHeight) v))
       = mkHeadTarget (Fin x) (Fin y) true ∧
     -1 ≤ x ∧ x ≤ 1 ∧ -1 ≤ y ∧ y ≤ 1 ∧
     (innerWidth ≠ 0 → x = clamp_unit (clientX / innerWidth * 2 - 1)) ∧
     (innerHeight ≠ 0 → y = clamp_unit (clientY / innerHeight * 2 - 1))) ∧
  (mouse_listeners v = false ∨ enableInteraction v = false →
   step DEG2RAD (MouseMove clientX clientY innerWidth innerHeight) v = v) ∧
  ∃ target,
    step DEG2RAD (MouseMove clientX clientY innerWidth innerHeight) v
    = set_refs {| robotRef := robotRef (refs v);
                  jointMapRef := jointMapRef (refs v);
                  clipRef := clipRef (refs v);
                  headTargetRef := target |} v.
Proof.
  unfold step, handleMove. split; [|split].
  - intros [-> ->]. cbn [refs set_refs headTargetRef]. unfold normalise.
    rewrite !clamp_unit_spec. eexists _, _. split; [done|].
    destruct (clamp_unit_range (clientX / or_one innerWidth * 2 - 1)).
    destruct (clamp_unit_range (clientY / or_one innerHeight * 2 - 1)).
    repeat split; try done; intros Hne; unfold or_one;
      by rewrite decide_False.
  - intros [->| ->]; [done|]. by destruct (mouse_listeners v).
  - destruct (mouse_listeners v), (enableInteraction v);
      try (eexists; reflexivity);
      exists (headTargetRef (refs v)); by destruct v as [? ? []].
Qed.

(** ** The scheduling invariant *)

Ltac vsimpl :=
  unfold setTimeout, clearTimeout, requestAnimationFrame,
         cancelAnimationFrame, playClip in *;
  cbn [
       enableInteraction mounted refs camera_position controls_target
       cameraRef controlsRef defaultCamPosRef defaultTargetRef
       resetAnimRef timeout pointer_listeners mouse_listeners scene
       next_object timers animation_frames next_handle host_calls
       set_refs set_camera_position set_controls_target set_cameraRef
       set_controlsRef set_defaultCamPosRef set_defaultTargetRef
       set_resetAnimRef set_timeout set_pointer_listeners
       set_mouse_listeners set_mounted set_scene set_next_object
       set_timers set_animation_frames set_next_handle set_host_calls
       fst snd from_option] in *.

Ltac ws_split :=
  unfold well_scheduled, handles_fresh, single_reset_frame,
         single_inactivity_timeout;
  refine (conj (conj _ _) (conj _ _));
  [ | | | let H := fresh "H" in intros ? ? H; split ]; vsimpl.

Lemma mount_well_scheduled (enable node : bool) :
  well_scheduled (mount enable node).
Proof.
  unfold mount. destruct (enable && node).
  - unfold resetTimer. vsimpl.
    ws_split.
    + intros h [x Hx]. apply lookup_insert_Some in Hx as [[<- _]|[_ Hx]];
        [lia|by rewrite lookup_empty in Hx].
    + intros h [x Hx]. by rewrite lookup_empty in Hx.
    + intros h [x Hx]. by rewrite lookup_empty in Hx.
    + apply lookup_insert_Some in H as [[<- _]|[_ Hx]];
        [done|by rewrite lookup_empty in Hx].
    + done.
  - ws_split.
    + intros h [x Hx]. by rewrite lookup_empty in Hx.
    + intros h [x Hx]. by rewrite lookup_empty in Hx.
    + intros h [x Hx]. by rewrite lookup_empty in Hx.
    + by rewrite lookup_empty in H.
    + by rewrite lookup_empty in H.
Qed.

Lemma resetTimer_well_scheduled (v : Viewer) :
  pointer_listeners v = true →
  well_scheduled v → well_scheduled (resetTimer v).
Proof.
  intros Hl [[Hft Hff] [Hsf Hst]].
  assert (∀ h x, from_option (λ h0, delete h0 (timers v)) (timers v) (timeout v)
                   !! h = Some x → timers v !! h = Some x ∧ timeout v ≠ Some h)
    as Hold.
  { intros h x. destruct (timeout v) as [h0|]; vsimpl.
    - intros Hx%lookup_delete_Some. split; [tauto|]. intros [= ->]. tauto.
    - done. }
  assert (timers (resetTimer v)
          = <[next_handle v := (ResetView, inactivity_delay)]>
              (from_option (λ h0, delete h0 (timers v)) (timers v) (timeout v)))
    as Ht by (unfold resetTimer; by destruct (timeout v)).
  assert (timeout (resetTimer v) = Some (next_handle v) ∧
          next_handle (resetTimer v) = Pos.succ (next_handle v) ∧
          animation_frames (resetTimer v) = animation_frames v ∧
          resetAnimRef (resetTimer v) = resetAnimRef v ∧
          pointer_listeners (resetTimer v) = pointer_listeners v)
    as (Hto & Hnh & Haf & Hra & Hpl)
    by (unfold resetTimer; by destruct (timeout v)).
  unfold well_scheduled, handles_fresh, single_reset_frame,
         single_inactivity_timeout.
  refine (conj (conj _ _) (conj _ _)); [ | | | intros ? ? H; split ].
  - intros h [x Hx]. rewrite Ht in Hx. rewrite Hnh.
    apply lookup_insert_Some in Hx as [[<- _]|[_ Hx]]; [lia|].
    apply Hold in Hx as [Hx _]. specialize (Hft h ltac:(eauto)). lia.
  - intros h Hx. rewrite Haf in Hx. rewrite Hnh.
    specialize (Hff h Hx). lia.
  - intros h Hx. rewrite Haf in Hx. rewrite Hra. by apply Hsf.
  - rewrite Ht in H. rewrite Hto.
    apply lookup_insert_Some in H as [[<- _]|[_ Hx]]; [done|].
    apply Hold in Hx as [Hx Hne]. by destruct (Hst _ _ Hx).
  - by rewrite Hpl.
Qed.

Lemma smoothReset_well_scheduled (now : Qc) (v : Viewer) :
  well_scheduled v → well_scheduled (smoothReset now v).
Proof.
  intros Hws. unfold smoothReset.
  destruct (defaultCamPosRef v) as [dp|]; [|done].
  destruct (cameraRef v && controlsRef v); [|done].
  destruct Hws as [[Hft Hff] [Hsf Hst]].
  assert (∀ h, is_Some (from_option (λ h0, delete h0 (animation_frames v))
                          (animation_frames v) (resetAnimRef v) !! h) → False)
    as Hempty.
  { intros h Hh. destruct (resetAnimRef v) as [h0|] eqn:Hr; vsimpl.
    - apply lookup_delete_is_Some in Hh as [Hne Hh].
      specialize (Hsf h Hh). congruence.
    - specialize (Hsf h Hh). congruence. }
  destruct (resetAnimRef v) as [h0|] eqn:Hr; vsimpl.
  all: ws_split.
  all: try (intros h Hh; specialize (Hft h Hh); lia).
  all: try (intros h Hh; apply lookup_insert_is_Some in Hh as [<-|[Hne Hh]];
            [lia || done|by destruct (Hempty h)]).
  all: try by (edestruct Hst; eauto).
Qed.

Lemma animate_well_scheduled (cl : AnimateClosure) (now : Qc) (v : Viewer)
    (h : positive) :
  well_scheduled v →
  is_Some (animation_frames v !! h) →
  well_scheduled
    (animate cl now (set_animation_frames (delete h (animation_frames v)) v)).
Proof.
  intros [[Hft Hff] [Hsf Hst]] Hh.
  assert (∀ h', is_Some (delete h (animation_frames v) !! h') → False) as Hempty.
  { intros h' Hh'. apply lookup_delete_is_Some in Hh' as [Hne Hh'].
    pose proof (Hsf h Hh). pose proof (Hsf h' Hh'). congruence. }
  unfold animate. cbn [cameraRef controlsRef set_animation_frames
    set_camera_position].
  destruct (cameraRef v); [destruct (controlsRef v); [case_decide|]|].
  all: ws_split.
  all: try (intros h' Hh'; specialize (Hft h' Hh'); lia).
  all: try (intros h' Hh'; by destruct (Hempty h')).
  all: try (intros h' Hh'; apply lookup_insert_is_Some in Hh' as [<-|[Hne Hh']];
            [lia || done|by destruct (Hempty h')]).
  all: try by (edestruct Hst; eauto).
Qed.

Lemma well_scheduled_ext (v w : Viewer) :
  timers w = timers v → animation_frames w = animation_frames v →
  next_handle w = next_handle v → resetAnimRef w = resetAnimRef v →
  timeout w = timeout v → pointer_listeners w = pointer_listeners v →
  well_scheduled v → well_scheduled w.
Proof.
  intros Ht Ha Hn Hr Hto Hp.
  unfold well_scheduled, handles_fresh, single_reset_frame,
         single_inactivity_timeout.
  by rewrite Ht, Ha, Hn, Hr, Hto, Hp.
Qed.

Lemma setTimeout_wave_well_scheduled (d : Qc) (v : Viewer) :
  well_scheduled v → well_scheduled (setTimeout WaveComplete d v).2.
Proof.
  intros [[Hft Hff] [Hsf Hst]]. ws_split.
  - intros h Hh. apply lookup_insert_is_Some in Hh as [<-|[Hne Hh]];
      [lia|specialize (Hft h Hh); lia].
  - intros h Hh. specialize (Hff h Hh). lia.
  - done.
  - apply lookup_insert_Some in H as [[_ [=]]|[_ Hx]].
    by destruct (Hst _ _ Hx).
  - apply lookup_insert_Some in H as [[_ [=]]|[_ Hx]].
    by destruct (Hst _ _ Hx).
Qed.

Lemma onPreloaded_well_scheduled (p : option URDFRobot) (now : Qc) (v : Viewer) :
  well_scheduled v → well_scheduled (onPreloaded p now v).
Proof.
  intros Hws. destruct p as [r|]; [|done].
  unfold onPreloaded, onReady. cbv zeta.
  apply setTimeout_wave_well_scheduled.
  eapply well_scheduled_ext; [..|exact Hws];
    unfold onIntroCamera; vsimpl;
    destruct (cameraRef v); vsimpl; by destruct (controlsRef v).
Qed.

Lemma unmount_fields (v : Viewer) :
  timers (unmount v)
  = (if pointer_listeners v
     then from_option (λ h, delete h (timers v)) (timers v) (timeout v)
     else timers v) ∧
  animation_frames (unmount v) = animation_frames v ∧
  next_handle (unmount v) = next_handle v ∧
  resetAnimRef (unmount v) = resetAnimRef v ∧
  timeout (unmount v) = timeout v ∧
  pointer_listeners (unmount v) = false.
Proof.
  unfold unmount. cbv zeta.
  destruct (robotRef (refs v)); vsimpl;
    destruct (pointer_listeners v) eqn:Hp; vsimpl;
    destruct (timeout v) eqn:Hto; vsimpl; by rewrite ?Hp, ?Hto.
Qed.

Lemma unmount_no_reset_timeout (v : Viewer) (h : positive) (d : Qc) :
  single_inactivity_timeout v →
  timers (unmount v) !! h ≠ Some (ResetView, d).
Proof.
  intros Hst Hx. destruct (unmount_fields v) as (Ht & _). rewrite Ht in Hx.
  destruct (pointer_listeners v) eqn:Hp.
  - destruct (timeout v) as [h0|] eqn:Hto; cbn [from_option] in Hx.
    + apply lookup_delete_Some in Hx as [Hne Hx].
      destruct (Hst _ _ Hx) as [Hx' _]. congruence.
    + destruct (Hst _ _ Hx) as [Hx' _]. congruence.
  - destruct (Hst _ _ Hx) as [_ Hx']. congruence.
Qed.

Lemma unmount_well_scheduled (v : Viewer) :
  well_scheduled v → well_scheduled (unmount v).
Proof.
  intros [[Hft Hff] [Hsf Hst]].
  pose proof (unmount_no_reset_timeout v) as Hno.
  destruct (unmount_fields v) as (Ht & Ha & Hn & Hr & Hto & Hp).
  unfold well_scheduled, handles_fresh, single_reset_frame,
         single_inactivity_timeout.
  rewrite Ha, Hn, Hr.
  refine (conj (conj _ _) (conj _ _)); try done.
  - intros h [x Hx]. rewrite Ht in Hx. apply Hft.
    destruct (pointer_listeners v); [|by eauto].
    destruct (timeout v); cbn [from_option] in Hx; [|by eauto].
    apply lookup_delete_Some in Hx as [_ Hx]. eauto.
  - intros h d Hx. by destruct (Hno h d Hst).
Qed.

Lemma step_well_scheduled (DEG2RAD : Qc) (ev : Event) (v : Viewer) :
  well_scheduled v → well_scheduled (step DEG2RAD ev v).
Proof.
  intros Hws. destruct ev; cbn [step].
  - by destruct Hws as [[? ?] [? ?]].
  - by apply onPreloaded_well_scheduled.
  - destruct (pointer_listeners v) eqn:Hl; [|done].
    by apply resetTimer_well_scheduled.
  - destruct (mouse_listeners v); [|done]. unfold handleMove.
    destruct (enableInteraction v); [|done]. by destruct Hws as [[? ?] [? ?]].
  - destruct (mouse_listeners v); [|done]. by destruct Hws as [[? ?] [? ?]].
  - destruct (timers v !! h) as [[cb d]|] eqn:Hh; [|done].
    assert (well_scheduled (set_timers (delete h (timers v)) v)) as Hws1.
    { destruct Hws as [[Hft Hff] [Hsf Hst]]. ws_split; try done.
      - intros h' [x Hx]. apply lookup_delete_Some in Hx as [_ Hx].
        apply Hft. eauto.
      - apply lookup_delete_Some in H as [_ Hx]. by destruct (Hst _ _ Hx).
      - apply lookup_delete_Some in H as [_ Hx]. by destruct (Hst _ _ Hx). }
    destruct cb; [by apply smoothReset_well_scheduled|].
    by destruct Hws1 as [[? ?] [? ?]].
  - destruct (animation_frames v !! h) as [cl|] eqn:Hh; [|done].
    apply animate_well_scheduled; [done|by eexists].
  - destruct (mounted v); [|done]. unfold renderFrame.
    destruct (useFrame_hero _ _ _ _); [|done].
    unfold captureDefaults. cbn [defaultCamPosRef set_refs].
    destruct (defaultCamPosRef v); cbn [defaultTargetRef set_defaultCamPosRef];
      case_decide; by destruct Hws as [[? ?] [? ?]].
  - destruct (mounted v); [|done]. by apply unmount_well_scheduled.
Qed.

Lemma run_well_scheduled (DEG2RAD : Qc) (evs : list Event) (v : Viewer) :
  well_scheduled v → well_scheduled (run DEG2RAD evs v).
Proof.
  revert v. induction evs as [|ev evs IH]; intros v Hv; [done|].
  apply IH. by apply step_well_scheduled.
Qed.

(** X9.  Over every sequence of events from mounting on, at most one reset
    animation frame is pending, and it is the one [resetAnimRef] holds; at
    most one inactivity timeout is pending, it is the one the effect's
    [timeout] variable holds, and it is pending only while the container's
    listeners are registered. *)
Theorem pending_callbacks_are_unique
    (DEG2RAD : Qc) (enable node : bool) (evs : list Event) :
  (∀ h, is_Some (animation_frames (run DEG2RAD evs (mount enable node)) !! h) →
        resetAnimRef (run DEG2RAD evs (mount enable node)) = Some h) ∧
  (∀ h1 h2,
     is_Some (animation_frames (run DEG2RAD evs (mount enable node)) !! h1) →
     is_Some (animation_frames (run DEG2RAD evs (mount enable node)) !! h2) →
     h1 = h2) ∧
  (∀ h d,
     timers (run DEG2RAD evs (mount enable node)) !! h = Some (ResetView, d) →
     timeout (run DEG2RAD evs (mount enable node)) = Some h ∧
     pointer_listeners (run DEG2RAD evs (mount enable node)) = true) ∧
  (∀ h1 h2 d1 d2,
     timers (run DEG2RAD evs (mount enable node)) !! h1 = Some (ResetView, d1) →
     timers (run DEG2RAD evs (mount enable node)) !! h2 = Some (ResetView, d2) →
     h1 = h2).
Proof.
  destruct (run_well_scheduled DEG2RAD evs _ (mount_well_scheduled enable node))
    as [_ [Hsf Hst]].
  split; [exact Hsf|]. split; [|split; [exact Hst|]].
  - intros h1 h2 H1 H2. pose proof (Hsf _ H1). pose proof (Hsf _ H2).
    congruence.
  - intros h1 h2 d1 d2 H1 H2.
    destruct (Hst _ _ H1) as [E1 _]. destruct (Hst _ _ H2) as [E2 _].
    congruence.
Qed.

(** ** A viewer without inactivity reset *)

Lemma reset_off_step (DEG2RAD : Qc) (ev : Event) (v : Viewer) :
  reset_off v → reset_off (step DEG2RAD ev v).
Proof.
  intros (Hp & Ht & Ha & Hr).
  assert (∀ w : Viewer,
    pointer_listeners w = pointer_listeners v → timers w = timers v →
    animation_frames w = animation_frames v →
    resetAnimRef w = resetAnimRef v → reset_off w) as Hext.
  { intros w E1 E2 E3 E4. unfold reset_off. by rewrite E1, E2, E3, E4. }
  destruct ev; cbn [step].
  - by apply Hext.
  - destruct preloaded as [r|]; [|done].
    unfold onPreloaded, onReady, onIntroCamera. cbv zeta. vsimpl.
    destruct (cameraRef v); vsimpl; destruct (controlsRef v); vsimpl.
    all: unfold reset_off; vsimpl; repeat split; try done.
    all: intros h d Hx; apply lookup_insert_Some in Hx as [[_ [=]]|[_ Hx]];
      by destruct (Ht h d).
  - by rewrite Hp.
  - destruct (mouse_listeners v); [|done]. unfold handleMove.
    destruct (enableInteraction v); [|done]. by apply Hext.
  - destruct (mouse_listeners v); [|done]. by apply Hext.
  - destruct (timers v !! h) as [[cb d]|] eqn:Hh; [|done].
    destruct cb; [by destruct (Ht h d)|].
    unfold reset_off. vsimpl. repeat split; try done.
    intros h' d' Hx. apply lookup_delete_Some in Hx as [_ Hx].
    by destruct (Ht h' d').
  - by rewrite Ha, lookup_empty.
  - destruct (mounted v); [|done]. unfold renderFrame.
    destruct (useFrame_hero _ _ _ _); [|done].
    unfold captureDefaults. cbn [defaultCamPosRef set_refs].
    destruct (defaultCamPosRef v); cbn [defaultTargetRef set_defaultCamPosRef];
      case_decide; by apply Hext.
  - destruct (mounted v); [|done].
    destruct (unmount_fields v) as (E1 & E2 & _ & E3 & _ & E4).
    rewrite Hp in E1. unfold reset_off. by rewrite E1, E2, E3, E4.
Qed.

Lemma reset_off_camera_step (DEG2RAD : Qc) (ev : Event) (v : Viewer) :
  reset_off v → ¬ loads_robot ev →
  camera_position (step DEG2RAD ev v) = camera_position v ∧
  controls_target (step DEG2RAD ev v) = controls_target v.
Proof.
  intros (Hp & Ht & Ha & Hr) Hev. destruct ev; cbn [step]; try done.
  - destruct preloaded as [r|]; [|done]. destruct Hev. by eexists _, _.
  - by rewrite Hp.
  - destruct (mouse_listeners v); [|done]. unfold handleMove.
    by destruct (enableInteraction v).
  - by destruct (mouse_listeners v).
  - destruct (timers v !! h) as [[cb d]|] eqn:Hh; [|done].
    destruct cb; [by destruct (Ht h d)|done].
  - by rewrite Ha, lookup_empty.
  - destruct (mounted v); [|done]. unfold renderFrame.
    destruct (useFrame_hero _ _ _ _); [|done].
    unfold captureDefaults. cbn [defaultCamPosRef set_refs].
    destruct (defaultCamPosRef v); cbn [defaultTargetRef set_defaultCamPosRef];
      by case_decide.
  - destruct (mounted v); [|done]. unfold unmount. cbv zeta.
    destruct (robotRef (refs v)); vsimpl; rewrite Hp; by vsimpl.
Qed.

(** X10.  A viewer mounted with interaction disabled, or before its
    container node exists, never arms the inactivity timeout: over every
    sequence of events no reset timeout and no reset animation frame is ever
    pending and the container's listeners are never registered; and as long
    as no robot has been loaded, the camera and the controls target stay
    where they were at mount. *)
Theorem no_reset_without_container
    (DEG2RAD : Qc) (enable node : bool) (evs : list Event) :
  enable && node = false →
  reset_off (run DEG2RAD evs (mount enable node)) ∧
  (Forall (λ ev, ¬ loads_robot ev) evs →
   camera_position (run DEG2RAD evs (mount enable node))
     = camera_position (mount enable node) ∧
   controls_target (run DEG2RAD evs (mount enable node))
     = controls_target (mount enable node)).
Proof.
  intros Hen.
  assert (reset_off (mount enable node)) as H0.
  { unfold mount. rewrite Hen. cbv zeta. unfold reset_off. vsimpl.
    repeat split; try done; intros h d; by rewrite lookup_empty. }
  revert H0. generalize (mount enable node) as v.
  induction evs as [|ev evs IH]; intros v Hv; [done|].
  change (run DEG2RAD (ev :: evs) v) with (run DEG2RAD evs (step DEG2RAD ev v)).
  destruct (IH (step DEG2RAD ev v) (reset_off_step DEG2RAD ev v Hv))
    as [Hoff Hcam].
  split; [exact Hoff|]. intros Hall. inversion Hall as [|? ? Hev Hevs]; subst.
  destruct (Hcam Hevs) as [-> ->].
  by apply reset_off_camera_step.
Qed.

Lemma no_reset_without_container_witness :
  true && false = false ∧
  reset_off (run DEG2RAD_approx no_container_events (mount true false)) ∧
  (Forall (λ ev, ¬ loads_robot ev) no_container_events →
   camera_position (run DEG2RAD_approx no_container_events (mount true false))
     = camera_position (mount true false) ∧
   controls_target (run DEG2RAD_approx no_container_events (mount true false))
     = controls_target (mount true false)).
Proof.
  split; [reflexivity|].
  apply (no_reset_without_container DEG2RAD_approx true false
           no_container_events).
  reflexivity.
Defined.

Lemma pointer_ignored_step (DEG2RAD : Qc) (ev : Event) (v : Viewer) :
  pointer_ignored v → pointer_ignored (step DEG2RAD ev v).
Proof.
  intros [He Hh].
  assert (∀ w : Viewer,
    enableInteraction w = enableInteraction v →
    headTargetRef (refs w) = headTargetRef (refs v) → pointer_ignored w)
    as Hext.
  { intros w E1 E2. unfold pointer_ignored. by rewrite E1, E2. }
  destruct ev; cbn [step].
  - by apply Hext.
  - destruct preloaded as [r|]; [|done].
    unfold onPreloaded, onReady, onIntroCamera. cbv zeta. vsimpl.
    destruct (cameraRef v); vsimpl; destruct (controlsRef v); vsimpl;
      by split.
  - destruct (pointer_listeners v); [|done]. unfold resetTimer.
    destruct (timeout v); by apply Hext.
  - destruct (mouse_listeners v); [|done]. unfold handleMove. by rewrite He.
  - destruct (mouse_listeners v); [|done]. by split.
  - destruct (timers v !! h) as [[cb d]|] eqn:Hx; [|done].
    destruct cb; [|by apply Hext].
    unfold smoothReset. vsimpl.
    destruct (defaultCamPosRef v); [|by apply Hext].
    destruct (cameraRef v && controlsRef v); [|by apply Hext].
    destruct (resetAnimRef v); by apply Hext.
  - destruct (animation_frames v !! h) as [cl|]; [|done].
    unfold animate. vsimpl.
    destruct (cameraRef v); [destruct (controlsRef v); [case_decide|]|];
      by apply Hext.
  - destruct (mounted v); [|done]. unfold renderFrame.
    rewrite He. unfold useFrame_hero, useFrame_follow.
    destruct (clipStep _ _) as [s1|] eqn:Hs; [|done]. cbn [mbind option_bind].
    assert (headTargetRef s1 = headTargetRef (refs v)) as Hs1.
    { unfold clipStep in Hs. destruct (robotRef (refs v)); [|by simplify_eq].
      destruct (clipRef (refs v)) as [pb|]; [|by simplify_eq].
      destruct (last (frames (clip pb))); [|done]. cbn [mbind option_bind] in Hs.
      destruct (finished _ _ _); [by simplify_eq|].
      destruct (head (frames (clip pb))); [|done]. cbn [mbind option_bind] in Hs.
      destruct (bracket _ _ _ _). by simplify_eq. }
    unfold captureDefaults. cbn [defaultCamPosRef set_refs].
    destruct (defaultCamPosRef v); cbn [defaultTargetRef set_defaultCamPosRef];
      case_decide; by apply Hext.
  - destruct (mounted v); [|done]. unfold unmount. cbv zeta.
    destruct (robotRef (refs v)); vsimpl;
      (destruct (pointer_listeners v); [destruct (timeout v)|]);
      by apply Hext.
Qed.

(** X11.  With interaction disabled the pointer never reaches the robot:
    over every sequence of events (mouse moves included) the head target
    stays at rest, and a rendered frame either leaves the joints alone or
    writes exactly what clip playback writes, head follow never running. *)
Theorem disabled_viewer_ignores_pointer
    (DEG2RAD : Qc) (node : bool) (evs : list Event) (now_ms : Qc) :
  pointer_ignored (run DEG2RAD evs (mount false node)) ∧
  (refs (step DEG2RAD (RenderFrame now_ms) (run DEG2RAD evs (mount false node)))
     = refs (run DEG2RAD evs (mount false node)) ∨
   clipStep (nowSec now_ms) (refs (run DEG2RAD evs (mount false node)))
     = Some (refs (step DEG2RAD (RenderFrame now_ms)
                     (run DEG2RAD evs (mount false node))))).
Proof.
  assert (pointer_ignored (run DEG2RAD evs (mount false node))) as Hpi.
  { assert (pointer_ignored (mount false node)) as H0 by done.
    revert H0. generalize (mount false node) as v.
    induction evs as [|ev evs IH]; intros v Hv; [done|].
    change (run DEG2RAD (ev :: evs) v)
      with (run DEG2RAD evs (step DEG2RAD ev v)).
    apply IH. by apply pointer_ignored_step. }
  split; [exact Hpi|].
  destruct Hpi as [He _]. cbn [step].
  destruct (mounted _); [|by left]. unfold renderFrame. rewrite He.
  unfold useFrame_hero, useFrame_follow.
  destruct (clipStep _ _) as [s1|]; [|by left]. right.
  cbn [mbind option_bind]. f_equal.
  unfold captureDefaults. cbn [defaultCamPosRef set_refs].
  destruct (defaultCamPosRef _); cbn [defaultTargetRef set_defaultCamPosRef];
    by case_decide.
Qed.

(** X12.  An inactivity timeout that fires before the default pose is
    captured, or before camera and controls exist, is dropped: the state
    changes only by the removal of the fired timer, no animation frame is
    requested, and no inactivity timeout is left pending, so the reset is
    not retried until the next pointer activity. *)
Theorem early_reset_is_dropped
    (DEG2RAD : Qc) (v : Viewer) (h : positive) (d now_ms : Qc) :
  well_scheduled v →
  timers v !! h = Some (ResetView, d) →
  defaultCamPosRef v = None ∨ cameraRef v = false ∨ controlsRef v = false →
  step DEG2RAD (TimerFired h now_ms) v = set_timers (delete h (timers v)) v ∧
  animation_frames (step DEG2RAD (TimerFired h now_ms) v) = animation_frames v ∧
  ∀ h' d', timers (step DEG2RAD (TimerFired h now_ms) v) !! h'
           ≠ Some (ResetView, d').
Proof.
  intros [_ [_ Hst]] Hh Hg.
  assert (step DEG2RAD (TimerFired h now_ms) v
          = set_timers (delete h (timers v)) v) as ->.
  { cbn [step]. rewrite Hh. unfold smoothReset. vsimpl.
    destruct (defaultCamPosRef v); [|done].
    destruct Hg as [|[->| ->]]; [done|done|].
    by rewrite andb_false_r. }
  split; [done|]. split; [done|]. vsimpl.
  intros h' d' Hx. apply lookup_delete_Some in Hx as [Hne Hx].
  destruct (Hst _ _ Hh) as [E1 _]. destruct (Hst _ _ Hx) as [E2 _].
  congruence.
Qed.

Lemma early_reset_is_dropped_witness :
  step DEG2RAD_approx (TimerFired 1 (Qc_of_Z 2000)) (mount true true)
    = set_timers (delete 1%positive (timers (mount true true))) (mount true true) ∧
  animation_frames
    (step DEG2RAD_approx (TimerFired 1 (Qc_of_Z 2000)) (mount true true))
    = animation_frames (mount true true) ∧
  ∀ h' d',
    timers (step DEG2RAD_approx (TimerFired 1 (Qc_of_Z 2000)) (mount true true))
      !! h' ≠ Some (ResetView, d').
Proof.
  apply (early_reset_is_dropped DEG2RAD_approx (mount true true) 1
           inactivity_delay (Qc_of_Z 2000)).
  - apply mount_well_scheduled.
  - reflexivity.
  - left. reflexivity.
Defined.

(** ** The easing and the segment *)

Lemma eased_range (t : Qc) : 0 ≤ t → t ≤ 1 → 0 ≤ eased t ∧ eased t ≤ 1.
Proof.
  intros H0 H1. unfold eased, dec.
  replace (Qc_of_Z 4) with (2 + 2) by by apply Qc_is_canon.
  case_decide as Hh.
  - clear -H0 H1 Hh. qc2q. split; nra.
  - apply Qcnot_lt_le in Hh. clear -H0 H1 Hh. qc2q. split; nra.
Qed.

Lemma lerpVectors_within_box (a b : Vector3.t) (e : Qc) :
  0 ≤ e → e ≤ 1 → within_box a b (Vector3.lerpVectors a b e).
Proof.
  intros H0 H1. destruct a as [ax ay az], b as [bx by' bz].
  unfold within_box, Vector3.lerpVectors. cbn [Vector3.x Vector3.y Vector3.z].
  assert (∀ p q : Qc, Qcmin p q ≤ p + (q - p) * e ∧ p + (q - p) * e ≤ Qcmax p q)
    as Hax.
  { intros p q. unfold Qcmin, Qcmax. case_decide as Hab.
    - clear -H0 H1 Hab. qc2q. split; nra.
    - apply Qcnot_le_lt in Hab. clear -H0 H1 Hab. qc2q. split; nra. }
  destruct (Hax ax bx), (Hax ay by'), (Hax az bz). by repeat split.
Qed.

(** ** The default pose *)

(** X14.  The pose the inactivity reset returns to is captured once: a
    frame that completes stores the camera position as the default position
    only if none is stored yet, makes sure the default target is not the
    zero vector, and, with interaction enabled, does not move the camera;
    and a stored default position is changed by no event except the load of
    a robot, whose intro camera registers its own. *)
Theorem default_pose_is_captured_once
    (DEG2RAD : Qc) (ev : Event) (now_ms : Qc) (v : Viewer) (p : Vector3.t) :
  (mounted v = true →
   is_Some (useFrame_hero DEG2RAD (enableInteraction v) (nowSec now_ms) (refs v)) →
   defaultCamPosRef (step DEG2RAD (RenderFrame now_ms) v)
     = Some (default (camera_position v) (defaultCamPosRef v)) ∧
   Vector3.lengthSq (defaultTargetRef (step DEG2RAD (RenderFrame now_ms) v)) ≠ 0 ∧
   (enableInteraction v = true →
    camera_position (step DEG2RAD (RenderFrame now_ms) v) = camera_position v)) ∧
  (defaultCamPosRef v = Some p → ¬ loads_robot ev →
   defaultCamPosRef (step DEG2RAD ev v) = Some p).
Proof.
  split.
  - intros Hm [r Hr]. cbn [step]. rewrite Hm. unfold renderFrame. rewrite Hr.
    unfold captureDefaults. cbn [defaultCamPosRef set_refs].
    destruct (defaultCamPosRef v) as [q|] eqn:Hd;
      cbn [defaultTargetRef set_defaultCamPosRef set_refs];
      case_decide as Hz; vsimpl; rewrite ?Hd;
      (split; [done|split; [|done]]); try done; by_compute.
  - intros Hp Hev. destruct ev; cbn [step]; try done.
    + destruct preloaded as [r|]; [|done]. destruct Hev. by eexists _, _.
    + destruct (pointer_listeners v); [|done]. unfold resetTimer.
      by destruct (timeout v).
    + destruct (mouse_listeners v); [|done]. unfold handleMove.
      by destruct (enableInteraction v).
    + by destruct (mouse_listeners v).
    + destruct (timers v !! h) as [[cb d]|]; [|done].
      destruct cb; [|done]. unfold smoothReset. vsimpl. rewrite Hp.
      destruct (cameraRef v && controlsRef v); [|done].
      by destruct (resetAnimRef v).
    + destruct (animation_frames v !! h) as [cl|]; [|done].
      unfold animate. vsimpl.
      by destruct (cameraRef v); [destruct (controlsRef v); [case_decide|]|].
    + destruct (mounted v); [|done]. unfold renderFrame.
      destruct (useFrame_hero _ _ _ _); [|done].
      unfold captureDefaults. cbn [defaultCamPosRef set_refs]. rewrite Hp.
      by case_decide.
    + destruct (mounted v); [|done]. unfold unmount. cbv zeta.
      destruct (robotRef (refs v)); vsimpl;
        (destruct (pointer_listeners v); [destruct (timeout v)|]); done.
Qed.

(** * Public URLs *)

Lemma append_cons (x : ascii) (a b : string) :
  String x a +:+ b = String x (a +:+ b).
Proof. reflexivity. Qed.

Lemma append_nil (b : string) : EmptyString +:+ b = b.
Proof. reflexivity. Qed.

Lemma append_assoc (a b c : string) : (a +:+ b) +:+ c = a +:+ (b +:+ c).
Proof.
  induction a as [|x a IH]; [done|]. by rewrite !append_cons, IH.
Qed.

Lemma endsWith_slash_spec (b : string) :
  endsWith_slash b = true ↔ ∃ pre, b = pre +:+ "/".
Proof.
  induction b as [|c rest IH].
  - split; [done|]. intros [[|? ?] H]; rewrite ?append_cons, ?append_nil in H;
      discriminate.
  - destruct rest as [|c' rest'].
    + cbn [endsWith_slash]. rewrite bool_decide_eq_true. split.
      * intros ->. by exists EmptyString.
      * intros [[|x [|y pre]] H]; rewrite ?append_cons, ?append_nil in H;
          by simplify_eq.
    + change (endsWith_slash (String c (String c' rest')))
        with (endsWith_slash (String c' rest')).
      rewrite IH. split.
      * intros [pre ->]. by exists (String c pre).
      * intros [[|x pre] H]; [rewrite append_nil in H; discriminate|].
        rewrite append_cons in H. injection H as -> H. by exists pre.
Qed.

Lemma baseUrl_ends_with_slash (B : option string) :
  ∃ pre, baseUrl B = pre +:+ "/".
Proof.
  unfold baseUrl. cbv zeta.
  destruct (endsWith_slash _) eqn:E.
  - by apply endsWith_slash_spec.
  - by eexists.
Qed.

Lemma strip_slashes_no_slash (p : string) :
  starts_with_slash (strip_slashes p) = false.
Proof.
  induction p as [|c rest IH]; [done|]. cbn [strip_slashes].
  case_decide as Hc; [done|]. cbn [starts_with_slash].
  by apply bool_decide_eq_false.
Qed.

Lemma strip_slashes_fixed (p : string) :
  starts_with_slash p = false → strip_slashes p = p.
Proof.
  destruct p as [|c rest]; [done|]. cbn [starts_with_slash strip_slashes].
  intros H%bool_decide_eq_false. by rewrite decide_False.
Qed.

Lemma strip_slashes_append (p q : string) :
  p ≠ EmptyString → starts_with_slash p = false →
  strip_slashes (p +:+ q) = p +:+ q.
Proof.
  destruct p as [|c rest]; [done|]. intros _ H. by apply strip_slashes_fixed.
Qed.

(** X15.  Whatever [BASE_URL] is (undefined and empty included) and
    whatever the path, the resolved URL is the base, which always ends
    with a slash, followed by the path without its leading slashes: base
    and path are joined by exactly one slash, leading slashes of the path
    make no difference, and a path under a relative directory resolves
    under the resolved directory, so the URDF lies under the loader's
    working path. *)
Theorem resolvePublic_joins_with_one_slash
    (BASE_URL : option string) (p q : string) :
  (∃ pre, baseUrl BASE_URL = pre +:+ "/" ∧
          resolvePublic BASE_URL p = pre +:+ "/" +:+ strip_slashes p) ∧
  starts_with_slash (strip_slashes p) = false ∧
  resolvePublic BASE_URL ("/" +:+ p) = resolvePublic BASE_URL p ∧
  (p ≠ EmptyString → starts_with_slash p = false →
   resolvePublic BASE_URL (p +:+ q) = resolvePublic BASE_URL p +:+ q) ∧
  urdfUrl BASE_URL = assetsBase BASE_URL +:+ "fetch.urdf".
Proof.
  split; [|split; [|split; [|split]]].
  - destruct (baseUrl_ends_with_slash BASE_URL) as [pre Hpre].
    exists pre. split; [done|]. unfold resolvePublic.
    by rewrite Hpre, append_assoc.
  - apply strip_slashes_no_slash.
  - unfold resolvePublic. rewrite append_cons. cbn [strip_slashes].
    by rewrite decide_True.
  - intros Hne Hp. unfold resolvePublic.
    rewrite strip_slashes_append, strip_slashes_fixed by done.
    by rewrite append_assoc.
  - unfold urdfUrl, assetsBase, resolvePublic. by rewrite append_assoc.
Qed.

(** * Loading *)

Lemma cache_run_app (evs1 evs2 : list CacheEvent) (st : Preload) :
  cache_run (evs1 ++ evs2) st
  = ((cache_run evs1 st).1 ++ (cache_run evs2 (cache_run evs1 st).2).1,
     (cache_run evs2 (cache_run evs1 st).2).2).
Proof.
  revert st. induction evs1 as [|ev evs1 IH]; intros st.
  - cbn [app cache_run fst snd]. by destruct (cache_run evs2 st).
  - cbn [app cache_run]. destruct (cache_step ev st) as [r st1].
    rewrite IH. destruct (cache_run evs1 st1) as [rs1 st2].
    cbn [fst snd]. destruct (cache_run evs2 st2) as [rs2 st3].
    cbn [fst snd]. by rewrite app_assoc.
Qed.

(** Calls alone change nothing once a promise is stored. *)
Lemma cache_run_ensures (evs : list CacheEvent) (st : Preload) (p : positive) :
  fetchPreload st = Some p → Forall is_ensure evs →
  (cache_run evs st).2 = st.
Proof.
  intros Hp Hall. induction Hall as [|ev evs Hev _ IH]; [done|].
  destruct ev as [a u|? ?]; [|done].
  cbn [cache_run cache_step]. unfold ensureFetchPreload. rewrite Hp.
  by destruct (cache_run evs st).
Qed.

(** X16.  The stored promise stays pending through any number of calls
    until the loader answers, and it settles with the loader's first
    answer, the robot or null: whatever follows (further calls, a second
    answer of the loader with another result) leaves that value in place. *)
Theorem preload_settles_with_first_answer
    (assetsBase urdfUrl : string) (calls later : list CacheEvent)
    (r : LoaderResult) :
  Forall is_ensure calls →
  promises (cache_run (Ensure assetsBase urdfUrl :: calls) Preload_init).2
    !! 1%positive = Some Pending ∧
  settled_value
    (cache_run (Ensure assetsBase urdfUrl :: calls ++ LoaderDone 1 r :: later)
               Preload_init).2 1%positive
  = Some (result_value r).
Proof.
  intros Hcalls.
  pose (st1 := (ensureFetchPreload assetsBase urdfUrl Preload_init).2).
  assert (∀ evs, (cache_run (Ensure assetsBase urdfUrl :: evs) Preload_init).2
                 = (cache_run evs st1).2) as Hhead.
  { intros evs. cbn [cache_run cache_step].
    unfold ensureFetchPreload, st1. cbn [fetchPreload Preload_init].
    cbv zeta. by destruct (cache_run evs _). }
  assert (fetchPreload st1 = Some 1%positive) as Hp by done.
  rewrite !Hhead. split.
  - by rewrite (cache_run_ensures calls st1 1 Hp Hcalls).
  - rewrite cache_run_app. cbn [snd].
    rewrite (cache_run_ensures calls st1 1 Hp Hcalls).
    cbn [cache_run cache_step].
    rewrite bool_decide_eq_true_2 by (simpl; apply list_elem_of_here).
    match goal with |- context [cache_run later ?st] =>
      pose proof (cache_run_settled later st 1%positive (result_value r)) as Hs;
      destruct (cache_run later st) as [rs st2] end.
    apply Hs; by destruct r.
Qed.

Lemma preload_settles_with_first_answer_witness :
  promises
    (cache_run (Ensure "/assets/fetch/" "/assets/fetch/fetch.urdf"
                  :: [Ensure "/assets/fetch/" "/assets/fetch/fetch.urdf"])
               Preload_init).2
    !! 1%positive = Some Pending ∧
  settled_value
    (cache_run (Ensure "/assets/fetch/" "/assets/fetch/fetch.urdf"
                  :: [Ensure "/assets/fetch/" "/assets/fetch/fetch.urdf"]
                  ++ LoaderDone 1 (Loaded demo_robot)
                  :: [LoaderDone 1 Failed;
                      Ensure "/assets/fetch/" "/assets/fetch/fetch.urdf"])
               Preload_init).2 1%positive
  = Some (result_value (Loaded demo_robot)).
Proof.
  apply (preload_settles_with_first_answer
           "/assets/fetch/" "/assets/fetch/fetch.urdf"
           [Ensure "/assets/fetch/" "/assets/fetch/fetch.urdf"]
           [LoaderDone 1 Failed;
            Ensure "/assets/fetch/" "/assets/fetch/fetch.urdf"]
           (Loaded demo_robot)).
  repeat constructor.
Defined.

(** ** A load that completes after the unmount *)

Lemma unmounted_step (DEG2RAD : Qc) (ev : Event) (v : Viewer) (o : nat) :
  mounted v = false → o ∈ scene v →
  mounted (step DEG2RAD ev v) = false ∧ o ∈ scene (step DEG2RAD ev v).
Proof.
  intros Hm Ho.
  assert (∀ w : Viewer, mounted w = mounted v → scene w = scene v →
            mounted w = false ∧ o ∈ scene w) as Hext.
  { intros w E1 E2. by rewrite E1, E2. }
  destruct ev; cbn [step]; rewrite ?Hm; try done.
  - destruct preloaded as [r|]; [|done].
    unfold onPreloaded, onReady, onIntroCamera. cbv zeta. vsimpl.
    destruct (cameraRef v); vsimpl; destruct (controlsRef v); vsimpl;
      (split; [done|]); apply elem_of_app; by left.
  - destruct (pointer_listeners v); [|done]. unfold resetTimer.
    destruct (timeout v); by apply Hext.
  - destruct (mouse_listeners v); [|done]. unfold handleMove.
    destruct (enableInteraction v); [|done]. by apply Hext.
  - destruct (mouse_listeners v); [|done]. by apply Hext.
  - destruct (timers v !! h) as [[cb d]|]; [|done].
    destruct cb; [|by apply Hext].
    unfold smoothReset. vsimpl.
    destruct (defaultCamPosRef v); [|by apply Hext].
    destruct (cameraRef v && controlsRef v); [|by apply Hext].
    destruct (resetAnimRef v); by apply Hext.
  - destruct (animation_frames v !! h) as [cl|]; [|done].
    unfold animate. vsimpl.
    destruct (cameraRef v); [destruct (controlsRef v); [case_decide|]|];
      by apply Hext.
Qed.

Lemma host_calls_grow (DEG2RAD : Qc) (ev : Event) (v : Viewer) (c : HostCall) :
  c ∈ host_calls v → c ∈ host_calls (step DEG2RAD ev v).
Proof.
  intros Hc.
  assert (∀ w : Viewer, host_calls w = host_calls v → c ∈ host_calls w)
    as Hext by (by intros w ->).
  destruct ev; cbn [step].
  - by apply Hext.
  - destruct preloaded as [r|]; [|done].
    unfold onPreloaded, onReady, onIntroCamera. cbv zeta. vsimpl.
    destruct (cameraRef v); vsimpl; destruct (controlsRef v); vsimpl;
      apply elem_of_app; by left.
  - destruct (pointer_listeners v); [|done]. unfold resetTimer.
    destruct (timeout v); by apply Hext.
  - destruct (mouse_listeners v); [|done]. unfold handleMove.
    destruct (enableInteraction v); [|done]. by apply Hext.
  - destruct (mouse_listeners v); [|done]. by apply Hext.
  - destruct (timers v !! h) as [[cb d]|]; [|done].
    destruct cb.
    + unfold smoothReset. vsimpl.
      destruct (defaultCamPosRef v); [|by apply Hext].
      destruct (cameraRef v && controlsRef v); [|by apply Hext].
      destruct (resetAnimRef v); by apply Hext.
    + vsimpl. apply elem_of_app; by left.
  - destruct (animation_frames v !! h) as [cl|]; [|done].
    unfold animate. vsimpl.
    destruct (cameraRef v); [destruct (controlsRef v); [case_decide|]|];
      by apply Hext.
  - destruct (mounted v); [|done]. unfold renderFrame.
    destruct (useFrame_hero _ _ _ _); [|done].
    unfold captureDefaults. cbn [defaultCamPosRef set_refs].
    destruct (defaultCamPosRef v); cbn [defaultTargetRef set_defaultCamPosRef];
      case_decide; by apply Hext.
  - destruct (mounted v); [|done]. unfold unmount. cbv zeta.
    destruct (robotRef (refs v)); vsimpl;
      (destruct (pointer_listeners v); [destruct (timeout v)|]);
      by apply Hext.
Qed.

(** X17.  The effect of the model component has no cancellation: when the
    preload settles with a robot after the viewer was unmounted, the clone
    is still added to the scene and registered, [onLoaded] is called, the
    intro pose is played and the completion timeout is armed; and since the
    cleanup has already run, that clone is never removed from the scene,
    whatever happens afterwards. *)
Theorem late_load_is_never_removed
    (DEG2RAD : Qc) (template : URDFRobot) (now_ms : Qc) (v : Viewer)
    (evs : list Event) :
  mounted v = false →
  robotRef (refs (step DEG2RAD (Preloaded (Some template) now_ms) v))
    = Some (next_object v) ∧
  clipRef (refs (step DEG2RAD (Preloaded (Some template) now_ms) v))
    = Some (mkPlayback introPoseClip (nowSec now_ms)) ∧
  timers (step DEG2RAD (Preloaded (Some template) now_ms) v) !! next_handle v
    = Some (WaveComplete, Qc_of_Z 6000) ∧
  next_object v
    ∈ scene (run DEG2RAD evs
               (step DEG2RAD (Preloaded (Some template) now_ms) v)) ∧
  OnLoaded
    ∈ host_calls (run DEG2RAD evs
                    (step DEG2RAD (Preloaded (Some template) now_ms) v)).
Proof.
  intros Hm.
  assert (mounted (step DEG2RAD (Preloaded (Some template) now_ms) v) = false ∧
          next_object v
            ∈ scene (step DEG2RAD (Preloaded (Some template) now_ms) v) ∧
          OnLoaded
            ∈ host_calls (step DEG2RAD (Preloaded (Some template) now_ms) v) ∧
          robotRef (refs (step DEG2RAD (Preloaded (Some template) now_ms) v))
            = Some (next_object v) ∧
          clipRef (refs (step DEG2RAD (Preloaded (Some template) now_ms) v))
            = Some (mkPlayback introPoseClip (nowSec now_ms)) ∧
          timers (step DEG2RAD (Preloaded (Some template) now_ms) v)
            !! next_handle v = Some (WaveComplete, Qc_of_Z 6000))
    as (Hm1 & Hs1 & Hc1 & Hr & Hcl & Ht).
  { cbn [step]. unfold onPreloaded, onReady, onIntroCamera. cbv zeta. vsimpl.
    destruct (cameraRef v); vsimpl; destruct (controlsRef v); vsimpl.
    all: repeat split; try done.
    all: try (apply elem_of_app; right; apply list_elem_of_here).
    all: rewrite lookup_insert_eq; f_equal; f_equal; by_compute. }
  split; [done|]. split; [done|]. split; [done|].
  revert Hm1 Hs1 Hc1.
  generalize (step DEG2RAD (Preloaded (Some template) now_ms) v) as w.
  induction evs as [|ev evs IH]; intros w Hm1 Hs1 Hc1; [done|].
  change (run DEG2RAD (ev :: evs) w) with (run DEG2RAD evs (step DEG2RAD ev w)).
  destruct (unmounted_step DEG2RAD ev w _ Hm1 Hs1) as [Hm2 Hs2].
  apply IH; [done|done|]. by apply host_calls_grow.
Qed.

Lemma late_load_is_never_removed_witness :
  robotRef
    (refs (step DEG2RAD_approx (Preloaded (Some demo_robot) (Qc_of_Z 900))
             unmounted_viewer))
    = Some (next_object unmounted_viewer) ∧
  clipRef
    (refs (step DEG2RAD_approx (Preloaded (Some demo_robot) (Qc_of_Z 900))
             unmounted_viewer))
    = Some (mkPlayback introPoseClip (nowSec (Qc_of_Z 900))) ∧
  timers (step DEG2RAD_approx (Preloaded (Some demo_robot) (Qc_of_Z 900))
            unmounted_viewer) !! next_handle unmounted_viewer
    = Some (WaveComplete, Qc_of_Z 6000) ∧
  next_object unmounted_viewer
    ∈ scene (run DEG2RAD_approx [Unmount; RenderFrame (Qc_of_Z 1000)]
               (step DEG2RAD_approx (Preloaded (Some demo_robot) (Qc_of_Z 900))
                  unmounted_viewer)) ∧
  OnLoaded
    ∈ host_calls (run DEG2RAD_approx [Unmount; RenderFrame (Qc_of_Z 1000)]
                    (step DEG2RAD_approx
                       (Preloaded (Some demo_robot) (Qc_of_Z 900))
                       unmounted_viewer)).
Proof.
  apply (late_load_is_never_removed DEG2RAD_approx demo_robot (Qc_of_Z 900)
           unmounted_viewer [Unmount; RenderFrame (Qc_of_Z 1000)]).
  reflexivity.
Defined.

(** * The demo pages *)

Lemma set_joint_lookup (nm : string) (v : number)
    (reg : gmap string URDFJoint) (n : string) :
  set_joint nm v reg !! n
  = if decide (n = nm)
    then (λ j, if setJointValue_is_function j then setJointValue j v else j)
           <$> reg !! n
    else reg !! n.
Proof.
  unfold set_joint. case_decide as Hn.
  - subst n. destruct (reg !! nm) as [j|] eqn:Hj; [|by rewrite Hj].
    destruct (setJointValue_is_function j) eqn:Hf.
    + rewrite lookup_insert_eq. cbn. by rewrite Hf.
    + rewrite Hj. cbn. by rewrite Hf.
  - destruct (reg !! nm) as [j|]; [|done].
    destruct (setJointValue_is_function j); [|done].
    by rewrite lookup_insert_ne.
Qed.

Lemma applyJointValues_lookup (values : gmap string number)
    (reg : gmap string URDFJoint) (n : string) :
  applyJointValues values reg !! n = posed values n <$> reg !! n.
Proof.
  unfold applyJointValues.
  apply (map_fold_weak_ind
           (λ r (m : gmap string number), r !! n = posed m n <$> reg !! n)).
  - unfold posed. rewrite lookup_empty. by destruct (reg !! n).
  - intros i x m r Hi IH. rewrite set_joint_lookup. case_decide as Hn.
    + subst i. rewrite IH. unfold posed. rewrite Hi, lookup_insert_eq.
      by destruct (reg !! n).
    + rewrite IH. unfold posed. by rewrite lookup_insert_ne.
Qed.

Lemma posed_function (values : gmap string number) (n : string) (j : URDFJoint) :
  setJointValue_is_function (posed values n j) = setJointValue_is_function j.
Proof.
  unfold posed. destruct (values !! n); [|done].
  by destruct (setJointValue_is_function j) eqn:E.
Qed.

Lemma posed_twice (values : gmap string number) (n : string) (j : URDFJoint) :
  posed values n (posed values n j) = posed values n j.
Proof.
  unfold posed. destruct (values !! n); [|done].
  by destruct (setJointValue_is_function j) eqn:E; cbn; rewrite ?E.
Qed.

Lemma detected_lookup (names : list string) (vals : gmap string number)
    (n : string) :
  foldl (λ next n0, if next !! n0 is Some _ then next else <[n0 := 0%num]> next)
        vals names !! n
  = match vals !! n with
    | Some v => Some v
    | None => if decide (n ∈ names) then Some 0%num else None
    end.
Proof.
  revert vals. induction names as [|a names IH]; intros vals.
  - cbn [foldl]. destruct (vals !! n); [done|].
    by rewrite decide_False by apply not_elem_of_nil.
  - cbn [foldl]. rewrite IH. destruct (vals !! a) as [va|] eqn:Ha.
    + destruct (vals !! n) as [v|] eqn:Hv; [done|].
      assert (n ≠ a) as Hne by congruence.
      destruct (decide (n ∈ names)) as [Hin|Hin].
      * by rewrite decide_True by by apply elem_of_cons; right.
      * rewrite decide_False; [done|]. rewrite elem_of_cons. tauto.
    + destruct (decide (n = a)) as [->|Hne].
      * rewrite lookup_insert_eq, Ha.
        by rewrite decide_True by apply list_elem_of_here.
      * rewrite lookup_insert_ne by done. destruct (vals !! n); [done|].
        destruct (decide (n ∈ names)) as [Hin|Hin].
        -- by rewrite decide_True by by apply elem_of_cons; right.
        -- rewrite decide_False; [done|]. rewrite elem_of_cons. tauto.
Qed.

Lemma zeroed_lookup (names : list string) (vals : gmap string number)
    (n : string) :
  foldl (λ next n0, <[n0 := 0%num]> next) vals names !! n
  = if decide (n ∈ names) then Some 0%num else vals !! n.
Proof.
  revert vals. induction names as [|a names IH]; intros vals.
  - cbn [foldl]. by rewrite decide_False by apply not_elem_of_nil.
  - cbn [foldl]. rewrite IH. destruct (decide (n ∈ names)) as [Hin|Hin].
    + by rewrite decide_True by by apply elem_of_cons; right.
    + destruct (decide (n = a)) as [->|Hne].
      * rewrite lookup_insert_eq.
        by rewrite decide_True by apply list_elem_of_here.
      * rewrite lookup_insert_ne by done.
        rewrite decide_False; [done|]. rewrite elem_of_cons. tauto.
Qed.

(** X18.  On the joint tweaks page a frame makes every registered joint
    that has a [setJointValue] and a slider value read exactly that value,
    and leaves every other joint as it is; it adds and removes no joint, and
    running it twice is the same as running it once. *)
Theorem frame_applies_slider_values (st : Tweaks.t) (n : string) :
  (is_Some (Tweaks.robotRef st) →
   Tweaks.jointMapRef (Tweaks.useFrame st) !! n
   = posed (Tweaks.jointValues st) n <$> Tweaks.jointMapRef st !! n) ∧
  (Tweaks.robotRef st = None → Tweaks.useFrame st = st) ∧
  dom (Tweaks.jointMapRef (Tweaks.useFrame st)) = dom (Tweaks.jointMapRef st) ∧
  Tweaks.useFrame (Tweaks.useFrame st) = Tweaks.useFrame st.
Proof.
  unfold Tweaks.useFrame. destruct st as [[r|] reg names vals];
    cbn [Tweaks.robotRef Tweaks.jointMapRef Tweaks.jointValues
         Tweaks.jointNames].
  - split; [|split; [done|split]].
    + intros _. apply applyJointValues_lookup.
    + apply set_eq. intros m. rewrite !elem_of_dom.
      rewrite applyJointValues_lookup. by rewrite fmap_is_Some.
    + f_equal. apply map_eq. intros m.
      rewrite !applyJointValues_lookup. destruct (reg !! m) as [j|]; [|done].
      cbn. by rewrite posed_twice.
  - split; [by intros [? [=]]|]. by repeat split.
Qed.

(** X19.  The base pose applied at load does not survive the first frame
    on any detected joint: the load reports the detected names, each of
    which gets the slider value 0 unless it already has one, and the next
    frame writes that 0 over the base pose.  Only a joint that is not
    reported keeps its base pose. *)
Theorem base_pose_is_overwritten
    (st : Tweaks.t) (robot : nat) (joints : gmap string URDFJoint)
    (basePose : gmap string Qc) (names : list string)
    (n : string) (j : URDFJoint) :
  joints !! n = Some j →
  setJointValue_is_function j = true →
  Tweaks.jointValues st !! n = None →
  Tweaks.jointMapRef (Tweaks.onLoad robot (Some joints) (Some basePose) names st)
    !! n = Some (posed (Fin <$> basePose) n j) ∧
  (n ∈ names →
   Tweaks.jointMapRef
     (Tweaks.useFrame
        (Tweaks.onLoad robot (Some joints) (Some basePose) names st)) !! n
   = Some (setJointValue j 0%num)) ∧
  (n ∉ names →
   Tweaks.jointMapRef
     (Tweaks.useFrame
        (Tweaks.onLoad robot (Some joints) (Some basePose) names st)) !! n
   = Some (posed (Fin <$> basePose) n j)).
Proof.
  intros Hj Hf Hv.
  unfold Tweaks.onLoad, Tweaks.onJointsDetected, Tweaks.useFrame.
  cbn [Tweaks.robotRef Tweaks.jointMapRef Tweaks.jointValues
       Tweaks.jointNames from_option].
  unfold id.
  assert (applyJointValues (Fin <$> basePose) joints !! n
          = Some (posed (Fin <$> basePose) n j)) as Hbase
    by by rewrite applyJointValues_lookup, Hj.
  split; [done|].
  assert (setJointValue_is_function (posed (Fin <$> basePose) n j) = true)
    as Hf' by by rewrite posed_function.
  split; intros Hn; rewrite applyJointValues_lookup, Hbase; cbn;
    f_equal; unfold posed at 1; rewrite detected_lookup, Hv.
  - rewrite decide_True by done. rewrite Hf'.
    unfold posed. destruct ((Fin <$> basePose) !! n); [|done].
    by rewrite Hf.
  - by rewrite decide_False by done.
Qed.

Lemma base_pose_is_overwritten_witness :
  Tweaks.jointMapRef
    (Tweaks.onLoad 0 (Some demo_joints) (Some demo_basePose)
       ["shoulder_pan_joint"; "elbow_flex_joint"] Tweaks.init)
    !! "shoulder_pan_joint"
  = Some (posed (Fin <$> demo_basePose) "shoulder_pan_joint" joint0) ∧
  ("shoulder_pan_joint" ∈ ["shoulder_pan_joint"; "elbow_flex_joint"] →
   Tweaks.jointMapRef
     (Tweaks.useFrame
        (Tweaks.onLoad 0 (Some demo_joints) (Some demo_basePose)
           ["shoulder_pan_joint"; "elbow_flex_joint"] Tweaks.init))
     !! "shoulder_pan_joint"
   = Some (setJointValue joint0 0%num)) ∧
  ("shoulder_pan_joint" ∉ ["shoulder_pan_joint"; "elbow_flex_joint"] →
   Tweaks.jointMapRef
     (Tweaks.useFrame
        (Tweaks.onLoad 0 (Some demo_joints) (Some demo_basePose)
           ["shoulder_pan_joint"; "elbow_flex_joint"] Tweaks.init))
     !! "shoulder_pan_joint"
   = Some (posed (Fin <$> demo_basePose) "shoulder_pan_joint" joint0)).
Proof.
  apply (base_pose_is_overwritten Tweaks.init 0%nat demo_joints demo_basePose
           ["shoulder_pan_joint"; "elbow_flex_joint"]
           "shoulder_pan_joint" joint0).
  - reflexivity.
  - reflexivity.
  - reflexivity.
Defined.

(** X20.  Detecting joints keeps every slider value already set and gives
    0 to exactly the new names; "Reset joints" leaves exactly the listed
    names, all at 0, dropping any value of a joint that is not listed; and
    moving a slider changes that one value only, which the next frame
    writes to the joint while every other joint gets what it would have
    got without the move. *)
Theorem slider_state_updates
    (st : Tweaks.t) (names : list string) (nm n : string) (value : number) :
  Tweaks.jointValues (Tweaks.onJointsDetected names st) !! n
    = match Tweaks.jointValues st !! n with
      | Some v => Some v
      | None => if decide (n ∈ names) then Some 0%num else None
      end ∧
  Tweaks.jointValues (Tweaks.resetJoints st) !! n
    = (if decide (n ∈ Tweaks.jointNames st) then Some 0%num else None) ∧
  Tweaks.jointValues (Tweaks.onChange nm value st) !! nm = Some value ∧
  (n ≠ nm →
   Tweaks.jointValues (Tweaks.onChange nm value st) !! n
     = Tweaks.jointValues st !! n ∧
   Tweaks.jointMapRef (Tweaks.useFrame (Tweaks.onChange nm value st)) !! n
     = Tweaks.jointMapRef (Tweaks.useFrame st) !! n) ∧
  (is_Some (Tweaks.robotRef st) →
   Tweaks.jointMapRef (Tweaks.useFrame (Tweaks.onChange nm value st)) !! nm
     = (λ j, if setJointValue_is_function j then setJointValue j value else j)
         <$> Tweaks.jointMapRef st !! nm).
Proof.
  split; [|split; [|split; [|split]]].
  - apply detected_lookup.
  - cbn [Tweaks.resetJoints Tweaks.jointValues]. rewrite zeroed_lookup.
    by rewrite lookup_empty.
  - cbn [Tweaks.onChange Tweaks.jointValues]. apply lookup_insert_eq.
  - intros Hne. cbn [Tweaks.onChange Tweaks.jointValues].
    split; [by apply lookup_insert_ne|].
    unfold Tweaks.useFrame.
    cbn [Tweaks.onChange Tweaks.robotRef Tweaks.jointMapRef
         Tweaks.jointValues].
    destruct (Tweaks.robotRef st); [|done].
    cbn [Tweaks.jointMapRef]. rewrite !applyJointValues_lookup.
    unfold posed. by rewrite lookup_insert_ne.
  - intros [r Hr]. unfold Tweaks.useFrame.
    cbn [Tweaks.onChange Tweaks.robotRef Tweaks.jointMapRef Tweaks.jointValues].
    rewrite Hr. cbn [Tweaks.jointMapRef]. rewrite applyJointValues_lookup.
    unfold posed. by rewrite lookup_insert_eq.
Qed.

(** * The intro cameras *)

Lemma unit_time_range (elapsed d : Qc) :
  0 < d → 0 ≤ elapsed →
  0 ≤ Qcmin 1 (elapsed / d) ∧ Qcmin 1 (elapsed / d) ≤ 1.
Proof.
  intros Hd H. unfold Qcmin. case_decide as Hle; [done|].
  apply Qcnot_le_lt in Hle. split; [|by apply Qclt_le_weak].
  by apply Qcdiv_nonneg.
Qed.

Lemma unit_time_done (elapsed d : Qc) :
  0 < d → d ≤ elapsed → Qcmin 1 (elapsed / d) = 1.
Proof.
  intros Hd H. unfold Qcmin. case_decide as Hle; [done|].
  exfalso. apply Hle. unfold Qcdiv.
  assert (0 < / d) as Hinv by by apply Qcinv_pos.
  replace 1 with (d * / d) by (apply Qcmult_inv_r; by intros ->).
  by apply Qcmult_le_mono_nonneg_r; [apply Qclt_le_weak|].
Qed.

Lemma unit_time_running (elapsed d : Qc) :
  0 < d → elapsed < d → ¬ 1 ≤ Qcmin 1 (elapsed / d).
Proof.
  intros Hd H. unfold Qcmin.
  assert (elapsed / d < 1) as Hlt.
  { unfold Qcdiv. assert (0 < / d) as Hinv by by apply Qcinv_pos.
    replace 1 with (d * / d) by (apply Qcmult_inv_r; by intros ->).
    by apply Qcmult_lt_mono_pos_r. }
  case_decide as Hle.
  - intros _. by apply Qcle_not_lt in Hle.
  - by apply Qclt_not_le.
Qed.

(** X21.  The intro drift of the hero viewer runs only while interaction
    is disabled.  After [onIntroCamera] at [now0], a frame at [now] puts the
    camera on the segment from the intro start to the intro end pose, at the
    eased fraction of the 3.5 s that have passed; from 3.5 s on the camera
    is at the intro end pose, which is the default pose [onIntroCamera]
    registers for the inactivity reset, the animation is switched off, and
    no later frame moves the camera.  With interaction enabled the frame
    leaves camera and animation state untouched. *)
Theorem intro_drift_ends_at_default_pose
    (now0 now : Qc) (camera : Vector3.t) (v : Viewer) :
  now0 ≤ now →
  (∃ a',
     introDrift false now (onIntroCamera_anim now0) camera
     = Some (a', Vector3.lerpVectors introCamStart introCamEnd
                   (eased (Qcmin 1 ((now - now0) / introCamDuration)))) ∧
     (now - now0 < introCamDuration → a' = onIntroCamera_anim now0) ∧
     (introCamDuration ≤ now - now0 →
      a' = IntroCamAnim.set_active false (onIntroCamera_anim now0) ∧
      ∀ now' camera', introDrift false now' a' camera' = Some (a', camera'))) ∧
  within_box introCamStart introCamEnd
    (Vector3.lerpVectors introCamStart introCamEnd
       (eased (Qcmin 1 ((now - now0) / introCamDuration)))) ∧
  (introCamDuration ≤ now - now0 →
   Vector3.lerpVectors introCamStart introCamEnd
     (eased (Qcmin 1 ((now - now0) / introCamDuration)))
   = introCamEnd ∧
   defaultCamPosRef (onIntroCamera v) = Some introCamEnd) ∧
  introDrift true now (onIntroCamera_anim now0) camera
  = Some (onIntroCamera_anim now0, camera).
Proof.
  intros Hle.
  assert (0 < introCamDuration) as Hd by by_compute.
  assert (0 ≤ now - now0) as Hel by (clear -Hle; qc2q; lra).
  destruct (unit_time_range _ _ Hd Hel) as [Ht0 Ht1].
  destruct (eased_range _ Ht0 Ht1) as [He0 He1].
  split; [|split; [|split]].
  - unfold introDrift, onIntroCamera_anim.
    cbn [negb andb IntroCamAnim.active IntroCamAnim.duration
         IntroCamAnim.start IntroCamAnim.from IntroCamAnim.to].
    rewrite decide_False by by_compute. cbv zeta.
    eexists. split; [reflexivity|]. split.
    + intros Hrun. by rewrite decide_False by by apply unit_time_running.
    + intros Hdone. rewrite unit_time_done by done.
      rewrite decide_True by done. split; [done|]. by intros now' camera'.
  - by apply lerpVectors_within_box.
  - intros Hdone. rewrite unit_time_done by done.
    rewrite eased_at_1, lerpVectors_at_1. split; [done|].
    unfold onIntroCamera. cbv zeta. reflexivity.
  - reflexivity.
Qed.

Lemma intro_drift_ends_at_default_pose_witness :
  (∃ a',
     introDrift false (Qc_of_Z 4000) (onIntroCamera_anim (Qc_of_Z 500))
                orbit_pose
     = Some (a', Vector3.lerpVectors introCamStart introCamEnd
                   (eased (Qcmin 1 ((Qc_of_Z 4000 - Qc_of_Z 500)
                                    / introCamDuration)))) ∧
     (Qc_of_Z 4000 - Qc_of_Z 500 < introCamDuration →
      a' = onIntroCamera_anim (Qc_of_Z 500)) ∧
     (introCamDuration ≤ Qc_of_Z 4000 - Qc_of_Z 500 →
      a' = IntroCamAnim.set_active false (onIntroCamera_anim (Qc_of_Z 500)) ∧
      ∀ now' camera', introDrift false now' a' camera' = Some (a', camera'))) ∧
  within_box introCamStart introCamEnd
    (Vector3.lerpVectors introCamStart introCamEnd
       (eased (Qcmin 1 ((Qc_of_Z 4000 - Qc_of_Z 500) / introCamDuration)))) ∧
  (introCamDuration ≤ Qc_of_Z 4000 - Qc_of_Z 500 →
   Vector3.lerpVectors introCamStart introCamEnd
     (eased (Qcmin 1 ((Qc_of_Z 4000 - Qc_of_Z 500) / introCamDuration)))
   = introCamEnd ∧
   defaultCamPosRef (onIntroCamera loaded_viewer) = Some introCamEnd) ∧
  introDrift true (Qc_of_Z 4000) (onIntroCamera_anim (Qc_of_Z 500))
             orbit_pose
  = Some (onIntroCamera_anim (Qc_of_Z 500), orbit_pose).
Proof.
  apply (intro_drift_ends_at_default_pose (Qc_of_Z 500) (Qc_of_Z 4000)
           orbit_pose loaded_viewer).
  by_compute.
Defined.

(** ** The intro camera of the demo page *)

Lemma demo_wf_step (ev : DemoCamera.Event) (st : DemoCamera.t) :
  DemoCamera.wf st → DemoCamera.wf (DemoCamera.step ev st).
Proof.
  intros [Ht Hd]. destruct ev; cbn [DemoCamera.step]; try (by split).
  - unfold DemoCamera.onIntroCamera, DemoCamera.wf. cbv zeta.
    cbn [DemoCamera.timers DemoCamera.introTimerRef DemoCamera.next_handle
         DemoCamera.cameraAnimRef].
    split; [|done]. intros h Hh.
    apply lookup_insert_is_Some in Hh as [<-|[Hne Hh]]; [split; [done|lia]|].
    exfalso. destruct (DemoCamera.introTimerRef st) as [h0|] eqn:Hr.
    + apply lookup_delete_is_Some in Hh as [Hne' Hh].
      destruct (Ht h Hh) as [[= ?] _]. congruence.
    + by destruct (Ht h Hh).
  - unfold DemoCamera.timerFired.
    destruct (DemoCamera.timers st !! h) as [cl|] eqn:Hh; [|by split].
    unfold DemoCamera.wf.
    cbn [DemoCamera.timers DemoCamera.introTimerRef DemoCamera.next_handle
         DemoCamera.cameraAnimRef DemoCamera.duration].
    split; [|done]. intros h' Hh'.
    apply lookup_delete_is_Some in Hh' as [_ Hh']. by apply Ht.
  - unfold DemoCamera.useFrame.
    destruct (DemoCamera.bounds st); [|by split]. cbv zeta.
    destruct (DemoCamera.active (DemoCamera.cameraAnimRef st)).
    + case_decide; [by split|]. cbn [default from_option id].
      unfold DemoCamera.set_pose, DemoCamera.wf.
      cbn [DemoCamera.timers DemoCamera.introTimerRef DemoCamera.next_handle
           DemoCamera.cameraAnimRef].
      split; [done|]. by case_decide.
    + destruct (DemoCamera.introHoldRef st) as [[sp c]|]; by split.
Qed.

Lemma demo_wf_run (evs : list DemoCamera.Event) (st : DemoCamera.t) :
  DemoCamera.wf st → DemoCamera.wf (DemoCamera.run evs st).
Proof.
  revert st. induction evs as [|ev evs IH]; intros st Hst; [done|].
  change (DemoCamera.run (ev :: evs) st)
    with (DemoCamera.run evs (DemoCamera.step ev st)).
  apply IH. by apply demo_wf_step.
Qed.

(** [useFrame] is [useFrame_with] for controls that leave the pose as
    written. *)
Lemma demo_useFrame_leaves_pose (now : Qc) (st : DemoCamera.t) :
  DemoCamera.useFrame now st = DemoCamera.useFrame_with leaves_pose now st.
Proof.
  unfold DemoCamera.useFrame, DemoCamera.useFrame_with, leaves_pose.
  destruct (DemoCamera.bounds st); [|done]. cbv zeta.
  unfold DemoCamera.set_pose, DemoCamera.set_pose_with. cbn [fst snd].
  destruct (DemoCamera.active _).
  - case_decide; [done|]. by destruct (DemoCamera.controlsRef st).
  - destruct (DemoCamera.introHoldRef st) as [[sp c]|]; [|done].
    by destruct (DemoCamera.controlsRef st).
Qed.

(** X22.  On the demo page at most one intro timeout is pending over every
    sequence of events (a new [onIntroCamera] call clears the one before),
    it is the one [introTimerRef] holds, and the animation's duration is
    2.5 s in every state, so that no frame ever divides by zero. *)
Theorem demo_intro_timeout_is_unique
    (evs : list DemoCamera.Event) (now : Qc) :
  (∀ h, is_Some (DemoCamera.timers (DemoCamera.run evs DemoCamera.init) !! h) →
        DemoCamera.introTimerRef (DemoCamera.run evs DemoCamera.init) = Some h) ∧
  (∀ h1 h2,
     is_Some (DemoCamera.timers (DemoCamera.run evs DemoCamera.init) !! h1) →
     is_Some (DemoCamera.timers (DemoCamera.run evs DemoCamera.init) !! h2) →
     h1 = h2) ∧
  DemoCamera.duration
    (DemoCamera.cameraAnimRef (DemoCamera.run evs DemoCamera.init))
    = dec 25 10 ∧
  is_Some (DemoCamera.useFrame now (DemoCamera.run evs DemoCamera.init)).
Proof.
  assert (DemoCamera.wf DemoCamera.init) as H0.
  { split; [|done]. intros h Hh. cbn in Hh. by rewrite lookup_empty in Hh. }
  destruct (demo_wf_run evs _ H0) as [Ht Hd].
  split; [|split; [|split]].
  - intros h Hh. by destruct (Ht h Hh).
  - intros h1 h2 H1 H2. destruct (Ht h1 H1) as [E1 _].
    destruct (Ht h2 H2) as [E2 _]. congruence.
  - done.
  - unfold DemoCamera.useFrame. destruct (DemoCamera.bounds _); [|done].
    cbv zeta. rewrite Hd.
    destruct (DemoCamera.active _).
    + by rewrite decide_False by by_compute.
    + by destruct (DemoCamera.introHoldRef _) as [[? ?]|].
Qed.



(** * The pages around the viewer *)

(** ** The wave auto-trigger *)

Lemma wave_wf_intro (w : bool) (c : option positive) (ts : gset positive)
    (n : positive) (p : nat) :
  (w = false → ts = ∅ ∧ p = 0%nat) →
  (∀ h, h ∈ ts → c = Some h ∧ p = 0%nat) →
  (p ≤ 1)%nat →
  WaveTrigger.wf (WaveTrigger.mk w c ts n p).
Proof. intros H1 H2 H3. by split; [|split]. Qed.

Lemma wave_cleanup_empty (st : WaveTrigger.t) :
  WaveTrigger.wf st → WaveTrigger.run_cleanup st = ∅.
Proof.
  intros (H0 & Ht & Hp). unfold WaveTrigger.run_cleanup.
  destruct (WaveTrigger.cleanup st) as [h|] eqn:Hc.
  - apply set_eq. intros x. split; [|set_solver].
    intros [Hx Hne]%elem_of_difference. destruct (Ht x Hx) as [E _].
    set_solver.
  - apply set_eq. intros x. split; [|set_solver].
    intros Hx. by destruct (Ht x Hx).
Qed.

Lemma wave_wf_step (ev : WaveTrigger.Event) (st : WaveTrigger.t) :
  WaveTrigger.wf st → WaveTrigger.wf (WaveTrigger.step ev st).
Proof.
  intros Hwf. pose proof (wave_cleanup_empty st Hwf) as Hclean.
  destruct Hwf as (H0 & Ht & Hp).
  destruct ev as [p b|h|]; cbn [WaveTrigger.step].
  - unfold WaveTrigger.effect. rewrite Hclean.
    destruct (WaveTrigger.waveTriggeredRef st) eqn:Hw; cbn [orb].
    + apply wave_wf_intro; [done|set_solver|done].
    + destruct (H0 eq_refl) as [Hte Hpl].
      destruct (negb p || negb b); apply wave_wf_intro; try done.
      intros h' Hh.
      assert (h' = WaveTrigger.next_handle st) as -> by set_solver. done.
  - unfold WaveTrigger.timerFired. case_decide as Hh; [|by split; [|split]].
    destruct (Ht h Hh) as [Hc Hpl].
    assert (WaveTrigger.timers st ∖ {[h]} = ∅) as He.
    { apply set_eq. intros x. split; [|set_solver].
      intros [Hx Hne]%elem_of_difference. destruct (Ht x Hx) as [E _].
      set_solver. }
    rewrite He, Hpl. apply wave_wf_intro; [|set_solver|lia].
    intros Hw. destruct (H0 Hw) as [E _]. set_solver.
  - unfold WaveTrigger.unmount. rewrite Hclean.
    apply wave_wf_intro; [|set_solver|done].
    intros Hw. by destruct (H0 Hw).
Qed.

Lemma wave_wf_run (evs : list WaveTrigger.Event) (st : WaveTrigger.t) :
  WaveTrigger.wf st → WaveTrigger.wf (WaveTrigger.run evs st).
Proof.
  revert st. induction evs as [|ev evs IH]; intros st Hst; [done|].
  change (WaveTrigger.run (ev :: evs) st)
    with (WaveTrigger.run evs (WaveTrigger.step ev st)).
  apply IH. by apply wave_wf_step.
Qed.

(** Once triggered with nothing pending, nothing ever plays again. *)
Lemma wave_spent_run (evs : list WaveTrigger.Event) (st : WaveTrigger.t) :
  WaveTrigger.waveTriggeredRef st = true → WaveTrigger.timers st = ∅ →
  WaveTrigger.played (WaveTrigger.run evs st) = WaveTrigger.played st.
Proof.
  revert st. induction evs as [|ev evs IH]; intros st Hw Ht; [done|].
  change (WaveTrigger.run (ev :: evs) st)
    with (WaveTrigger.run evs (WaveTrigger.step ev st)).
  assert (WaveTrigger.run_cleanup st = ∅) as Hclean.
  { unfold WaveTrigger.run_cleanup. rewrite Ht.
    destruct (WaveTrigger.cleanup st); set_solver. }
  destruct ev as [p b|h|]; cbn [WaveTrigger.step].
  - unfold WaveTrigger.effect. rewrite Hw, Hclean. cbn [orb].
    by rewrite IH.
  - unfold WaveTrigger.timerFired. rewrite Ht.
    rewrite decide_False by set_solver. by apply IH.
  - unfold WaveTrigger.unmount. rewrite Hclean. by rewrite IH.
Qed.

(** X24.  The demo page plays the wave by itself at most once; and the
    timeout that plays it is cleared by the cleanup of the effect, so if the
    effect runs again (after any change of its dependencies, the fresh pose
    object of a render among them) once the trigger is set, the count of
    automatic plays is frozen: a wave still pending at that moment is never
    played, whatever happens afterwards. *)
Theorem wave_autoplay_at_most_once
    (before after : list WaveTrigger.Event) (playClip bounds : bool) :
  (WaveTrigger.played (WaveTrigger.run before WaveTrigger.init) ≤ 1)%nat ∧
  (WaveTrigger.waveTriggeredRef (WaveTrigger.run before WaveTrigger.init) = true →
   WaveTrigger.played
     (WaveTrigger.run after
        (WaveTrigger.effect playClip bounds
           (WaveTrigger.run before WaveTrigger.init)))
   = WaveTrigger.played (WaveTrigger.run before WaveTrigger.init)).
Proof.
  assert (WaveTrigger.wf WaveTrigger.init) as H0.
  { apply wave_wf_intro; [done|set_solver|lia]. }
  pose proof (wave_wf_run before _ H0) as Hwf.
  pose proof (wave_cleanup_empty _ Hwf) as Hclean.
  destruct Hwf as (Hi & Ht & Hp). split; [done|]. intros Hw.
  unfold WaveTrigger.effect. rewrite Hw, Hclean. cbn [orb].
  by rewrite wave_spent_run.
Qed.

(** ** The media carousel *)

Lemma carousel_step_range (len : Z) (ev : Carousel.Event) (st : Carousel.t) :
  (0 ≤ Carousel.currentIndex st < len)%Z →
  (0 ≤ Carousel.currentIndex (Carousel.step len ev st) < len)%Z.
Proof.
  intros Hr. unfold Carousel.step. case_decide as Hlen; [done|].
  destruct ev as [| |idx|h].
  - unfold Carousel.goToPreviousSlide. destruct (Carousel.isSliding st); [done|].
    cbn [Carousel.currentIndex]. rewrite Z.rem_mod_nonneg by lia.
    apply Z.mod_pos_bound. lia.
  - unfold Carousel.goToNextSlide. destruct (Carousel.isSliding st); [done|].
    cbn [Carousel.currentIndex]. rewrite Z.rem_mod_nonneg by lia.
    apply Z.mod_pos_bound. lia.
  - by case_decide.
  - unfold Carousel.timerFired. by case_decide.
Qed.

(** X25.  The carousel's index always names a slide: over every sequence
    of arrow clicks, dot clicks and timeouts it stays within
    [0, media.length).  The next arrow wraps from the last slide to the
    first and the previous arrow from the first to the last, the previous
    arrow undoes the next one, and while a slide is in motion both arrows
    are ignored. *)
Theorem carousel_index_in_range
    (len : Z) (evs : list Carousel.Event) (st : Carousel.t) :
  (0 ≤ Carousel.currentIndex st < len)%Z →
  (0 ≤ Carousel.currentIndex (Carousel.run len evs st) < len)%Z ∧
  (Carousel.isSliding st = true →
   Carousel.goToNextSlide len st = st ∧ Carousel.goToPreviousSlide len st = st) ∧
  (Carousel.isSliding st = false →
   Carousel.currentIndex (Carousel.goToNextSlide len st)
     = (if decide (Carousel.currentIndex st = len - 1)%Z then 0
        else Carousel.currentIndex st + 1)%Z ∧
   Carousel.currentIndex (Carousel.goToPreviousSlide len st)
     = (if decide (Carousel.currentIndex st = 0)%Z then len - 1
        else Carousel.currentIndex st - 1)%Z ∧
   Carousel.currentIndex
     (Carousel.goToPreviousSlide len
        (Carousel.timerFired (Carousel.next_handle st)
           (Carousel.goToNextSlide len st)))
     = Carousel.currentIndex st).
Proof.
  intros Hr. split; [|split].
  - revert st Hr. induction evs as [|ev evs IH]; intros st Hr; [done|].
    change (Carousel.run len (ev :: evs) st)
      with (Carousel.run len evs (Carousel.step len ev st)).
    apply IH. by apply carousel_step_range.
  - intros Hs. unfold Carousel.goToNextSlide, Carousel.goToPreviousSlide.
    by rewrite Hs.
  - intros Hs.
    assert (Carousel.currentIndex (Carousel.goToNextSlide len st)
            = (if decide (Carousel.currentIndex st = len - 1)%Z then 0
               else Carousel.currentIndex st + 1)%Z) as Hnext.
    { unfold Carousel.goToNextSlide. rewrite Hs. cbn [Carousel.currentIndex].
      rewrite Z.rem_mod_nonneg by lia. case_decide as He.
      - rewrite He. replace (len - 1 + 1)%Z with len by lia.
        apply Z.mod_same. lia.
      - apply Z.mod_small. lia. }
    split; [done|]. split.
    + clear Hnext. unfold Carousel.goToPreviousSlide. rewrite Hs.
      cbn [Carousel.currentIndex]. rewrite Z.rem_mod_nonneg by lia.
      case_decide as He.
      * rewrite He. replace (0 - 1 + len)%Z with (len - 1)%Z by lia.
        apply Z.mod_small. lia.
      * replace (Carousel.currentIndex st - 1 + len)%Z
          with (Carousel.currentIndex st - 1 + 1 * len)%Z by lia.
        rewrite Z.mod_add by lia. apply Z.mod_small. lia.
    + unfold Carousel.goToPreviousSlide, Carousel.timerFired.
      unfold Carousel.goToNextSlide in *. rewrite Hs in *.
      cbn [Carousel.timers Carousel.isSliding Carousel.currentIndex
           Carousel.next_handle] in *.
      rewrite decide_True by set_solver.
      cbn [Carousel.isSliding Carousel.currentIndex]. rewrite Hnext.
      rewrite Z.rem_mod_nonneg by (case_decide; lia).
      case_decide as He.
      * replace (0 - 1 + len)%Z with (len - 1)%Z by lia.
        rewrite Z.mod_small by lia. lia.
      * replace (Carousel.currentIndex st + 1 - 1 + len)%Z
          with (Carousel.currentIndex st + 1 * len)%Z by lia.
        rewrite Z.mod_add by lia. apply Z.mod_small. lia.
Qed.

Lemma carousel_index_in_range_witness :
  (0 ≤ Carousel.currentIndex
         (Carousel.run 3 [Carousel.Next; Carousel.TimerFired 1; Carousel.Next;
                          Carousel.Previous; Carousel.Dot 2]
            Carousel.init) < 3)%Z ∧
  (Carousel.isSliding Carousel.init = true →
   Carousel.goToNextSlide 3 Carousel.init = Carousel.init ∧
   Carousel.goToPreviousSlide 3 Carousel.init = Carousel.init) ∧
  (Carousel.isSliding Carousel.init = false →
   Carousel.currentIndex (Carousel.goToNextSlide 3 Carousel.init)
     = (if decide (Carousel.currentIndex Carousel.init = 3 - 1)%Z then 0
        else Carousel.currentIndex Carousel.init + 1)%Z ∧
   Carousel.currentIndex (Carousel.goToPreviousSlide 3 Carousel.init)
     = (if decide (Carousel.currentIndex Carousel.init = 0)%Z then 3 - 1
        else Carousel.currentIndex Carousel.init - 1)%Z ∧
   Carousel.currentIndex
     (Carousel.goToPreviousSlide 3
        (Carousel.timerFired (Carousel.next_handle Carousel.init)
           (Carousel.goToNextSlide 3 Carousel.init)))
     = Carousel.currentIndex Carousel.init).
Proof.
  apply (carousel_index_in_range 3
           [Carousel.Next; Carousel.TimerFired 1; Carousel.Next;
            Carousel.Previous; Carousel.Dot 2] Carousel.init).
  cbn. lia.
Defined.

(** ** The scroll progress bar *)

Lemma Qc_pos_neq (x : Qc) : 0 < x → x ≠ 0.
Proof. intros H ->. by apply Qclt_not_le in H. Qed.

(** X26.  The progress bar's percentage is always within [0, 100]; it is 0
    on a page that cannot scroll (so nothing is ever divided by zero), the
    exact scrolled fraction in between, 100 from the end of the page on,
    and it never decreases when the page is scrolled further down. *)
Theorem scroll_progress_is_a_percentage
    (doc_scrollTop doc_scrollTop' body_scrollTop height client : Qc) :
  0 ≤ scroll_progress doc_scrollTop body_scrollTop height client ∧
  scroll_progress doc_scrollTop body_scrollTop height client ≤ Qc_of_Z 100 ∧
  (height ≤ client →
   scroll_progress doc_scrollTop body_scrollTop height client = 0) ∧
  (0 < doc_scrollTop → doc_scrollTop ≤ height - client →
   scroll_progress doc_scrollTop body_scrollTop height client
   = doc_scrollTop / (height - client) * Qc_of_Z 100) ∧
  (0 < height - client → height - client ≤ doc_scrollTop →
   scroll_progress doc_scrollTop body_scrollTop height client = Qc_of_Z 100) ∧
  (0 < doc_scrollTop → doc_scrollTop ≤ doc_scrollTop' →
   scroll_progress doc_scrollTop body_scrollTop height client
   ≤ scroll_progress doc_scrollTop' body_scrollTop height client).
Proof.
  assert (0 < Qc_of_Z 100) as H100 by by_compute.
  assert (∀ x, 0 ≤ Qcmin (Qc_of_Z 100) (Qcmax 0 x) ∧
               Qcmin (Qc_of_Z 100) (Qcmax 0 x) ≤ Qc_of_Z 100) as Hclamp.
  { intros x. unfold Qcmin, Qcmax.
    repeat case_decide;
      repeat match goal with
             | H : ¬ _ ≤ _ |- _ => apply Qcnot_le_lt in H
             end;
      split; qc2q; lra. }
  assert (∀ x y, x ≤ y →
            Qcmin (Qc_of_Z 100) (Qcmax 0 x) ≤ Qcmin (Qc_of_Z 100) (Qcmax 0 y))
    as Hmono.
  { intros x y Hxy. unfold Qcmin, Qcmax.
    repeat case_decide; try done;
      repeat match goal with
             | H : ¬ _ ≤ _ |- _ => apply Qcnot_le_lt in H
             end;
      clear Hclamp; qc2q; lra. }
  assert (∀ a b c : Qc, 0 < c → a ≤ b →
            a / c * Qc_of_Z 100 ≤ b / c * Qc_of_Z 100) as Hdiv.
  { intros a b c Hc Hab. apply Qcmult_le_compat_r; [|by apply Qclt_le_weak].
    unfold Qcdiv. apply Qcmult_le_compat_r; [done|].
    by apply Qclt_le_weak, Qcinv_pos. }
  unfold scroll_progress. cbv zeta.
  split; [|split; [|split; [|split; [|split]]]].
  - case_decide; [apply Hclamp|done].
  - case_decide; [apply Hclamp|by apply Qclt_le_weak].
  - intros Hh. rewrite decide_False; [done|].
    apply Qcle_not_lt. clear -Hh. qc2q. lra.
  - intros Hpos Hle.
    rewrite (decide_False (P := doc_scrollTop = 0))
      by by apply Qc_pos_neq.
    assert (0 < height - client) as Hsh by by eapply Qclt_le_trans.
    rewrite decide_True by done.
    assert (0 ≤ doc_scrollTop / (height - client) * Qc_of_Z 100) as Hlo.
    { replace 0 with (0 / (height - client) * Qc_of_Z 100) at 1
        by (unfold Qcdiv; ring).
      apply Hdiv; [done|by apply Qclt_le_weak]. }
    assert (doc_scrollTop / (height - client) * Qc_of_Z 100 ≤ Qc_of_Z 100)
      as Hhi.
    { replace (Qc_of_Z 100) with ((height - client) / (height - client)
                                  * Qc_of_Z 100) at 2.
      - by apply Hdiv.
      - unfold Qcdiv. rewrite Qcmult_inv_r; [ring|]. by apply Qc_pos_neq. }
    unfold Qcmin, Qcmax. rewrite (decide_True (P := 0 ≤ _)) by done.
    case_decide as Hc; [|done]. by apply Qcle_antisym.
  - intros Hsh Hle.
    rewrite decide_True by done.
    set (top := if decide (doc_scrollTop = 0) then body_scrollTop
                else doc_scrollTop).
    assert (doc_scrollTop ≠ 0) as Hne.
    { apply Qc_pos_neq. by eapply Qclt_le_trans. }
    assert (top = doc_scrollTop) as -> by (unfold top; by rewrite decide_False).
    assert (Qc_of_Z 100 ≤ doc_scrollTop / (height - client) * Qc_of_Z 100)
      as Hhi.
    { replace (Qc_of_Z 100) with ((height - client) / (height - client)
                                  * Qc_of_Z 100) at 1.
      - by apply Hdiv.
      - unfold Qcdiv. rewrite Qcmult_inv_r; [ring|]. by apply Qc_pos_neq. }
    unfold Qcmin, Qcmax.
    rewrite (decide_True (P := 0 ≤ _))
      by (etrans; [apply Qclt_le_weak, H100|done]).
    by rewrite decide_True.
  - intros Hpos Hle.
    assert (0 < doc_scrollTop') as Hpos' by by eapply Qclt_le_trans.
    rewrite (decide_False (P := doc_scrollTop = 0))
      by by apply Qc_pos_neq.
    rewrite (decide_False (P := doc_scrollTop' = 0))
      by by apply Qc_pos_neq.
    case_decide as Hsh; [|done]. apply Hmono. by apply Hdiv.
Qed.

(** * The frames of a reset *)

(** [animate] is [animate_with] for controls that leave the pose as
    written. *)
Lemma animate_leaves_pose (cl : AnimateClosure) (now : Qc) (v : Viewer) :
  animate cl now v = animate_with leaves_pose cl now v.
Proof.
  unfold animate, animate_with, leaves_pose. cbv zeta. cbn [fst snd].
  destruct (cameraRef v); [|done]. destruct (controlsRef v); [|done].
  case_decide; by destruct v.
Qed.

Lemma reset_frames_app (fs1 fs2 : list (Qc * ControlsUpdate)) (v : Viewer) :
  reset_frames (fs1 ++ fs2) v = reset_frames fs2 (reset_frames fs1 v).
Proof.
  revert v. induction fs1 as [|[now update] fs1 IH]; intros v; [done|].
  cbn [app reset_frames]. destruct (resetAnimRef v) eqn:Hr; [apply IH|].
  destruct fs2 as [|[now2 update2] fs2]; [done|].
  cbn [reset_frames]. by rewrite Hr.
Qed.

(** A frame before the duration has elapsed: the interpolated pose goes to
    the controls and the frame is requested again. *)
Lemma reset_frame_early (cl : AnimateClosure) (now : Qc)
    (update : ControlsUpdate) (w : Viewer) :
  in_flight cl w →
  now - anim_start cl < reset_duration →
  (camera_position (reset_frames [(now, update)] w),
   controls_target (reset_frames [(now, update)] w))
  = update
      (Vector3.lerpVectors (startPos cl) (endPos cl)
         (eased (Qcmin 1 ((now - anim_start cl) / reset_duration))))
      (Vector3.lerpVectors (startTarget cl) (endTarget cl)
         (eased (Qcmin 1 ((now - anim_start cl) / reset_duration)))) ∧
  in_flight cl (reset_frames [(now, update)] w).
Proof.
  intros (h & Hr & Hf & Hc & Ho) Hel.
  assert (Qcmin 1 ((now - anim_start cl) / reset_duration) < 1) as Ht.
  { apply Qcnot_le_lt. apply unit_time_running; [by_compute|done]. }
  cbn [reset_frames]. rewrite Hr. unfold animationFrame_with.
  rewrite Hf, lookup_singleton_eq. unfold animate_with. vsimpl.
  rewrite Hc, Ho. cbv zeta. rewrite decide_True by done. vsimpl.
  split; [by destruct (update _ _)|].
  eexists. split; [done|]. split; [|done].
  by rewrite delete_singleton_eq, insert_empty.
Qed.

(** The frame at which the duration has elapsed: the pose at the factor 1
    goes to the controls and nothing is requested. *)
Lemma reset_frame_last (cl : AnimateClosure) (now : Qc)
    (update : ControlsUpdate) (w : Viewer) :
  in_flight cl w →
  reset_duration ≤ now - anim_start cl →
  (camera_position (reset_frames [(now, update)] w),
   controls_target (reset_frames [(now, update)] w))
  = update (Vector3.lerpVectors (startPos cl) (endPos cl) 1)
           (Vector3.lerpVectors (startTarget cl) (endTarget cl) 1) ∧
  resetAnimRef (reset_frames [(now, update)] w) = None ∧
  animation_frames (reset_frames [(now, update)] w) = ∅.
Proof.
  intros (h & Hr & Hf & Hc & Ho) Hel.
  cbn [reset_frames]. rewrite Hr. unfold animationFrame_with.
  rewrite Hf, lookup_singleton_eq. unfold animate_with. vsimpl.
  rewrite Hc, Ho. cbv zeta. rewrite Qcmin_1_elapsed by done.
  rewrite eased_at_1. rewrite decide_False by by_compute. vsimpl.
  split; [by destruct (update _ _)|]. split; [done|].
  by rewrite delete_singleton_eq.
Qed.

Lemma reset_frames_early (cl : AnimateClosure)
    (fs : list (Qc * ControlsUpdate)) (w : Viewer) :
  in_flight cl w →
  Forall (λ f, f.1 - anim_start cl < reset_duration) fs →
  in_flight cl (reset_frames fs w).
Proof.
  intros Hw Hfs. revert w Hw. induction Hfs as [|[now update] fs Hf _ IH];
    intros w Hw; [done|].
  change ((now, update) :: fs) with ([(now, update)] ++ fs).
  rewrite reset_frames_app. apply IH.
  by apply reset_frame_early.
Qed.

(** [smoothReset] on a well scheduled viewer leaves its frame as the only
    one pending. *)
Lemma smoothReset_in_flight (v : Viewer) (now : Qc) (default_pos : Vector3.t) :
  well_scheduled v →
  defaultCamPosRef v = Some default_pos →
  cameraRef v = true → controlsRef v = true →
  in_flight
    {| startPos := camera_position v; endPos := default_pos;
       startTarget := controls_target v; endTarget := defaultTargetRef v;
       anim_start := now |}
    (smoothReset now v).
Proof.
  intros [_ [Hsf _]] Hd Hc Ho.
  assert (from_option (λ h0, delete h0 (animation_frames v))
            (animation_frames v) (resetAnimRef v) = ∅) as Hempty.
  { apply map_eq. intros h. rewrite lookup_empty.
    destruct (resetAnimRef v) as [h0|] eqn:Hr; cbn [from_option].
    - destruct (decide (h = h0)) as [->|Hne]; [apply lookup_delete_eq|].
      rewrite lookup_delete_ne by done.
      destruct (animation_frames v !! h) eqn:Hh; [|done].
      specialize (Hsf h ltac:(by eexists)). congruence.
    - destruct (animation_frames v !! h) eqn:Hh; [|done].
      specialize (Hsf h ltac:(by eexists)). congruence. }
  unfold smoothReset. rewrite Hd, Hc, Ho. cbn [andb].
  exists (next_handle v).
  destruct (resetAnimRef v) as [h0|] eqn:Hr; vsimpl; cbn [from_option] in Hempty;
    rewrite ?Hempty, ?Hc, ?Ho; repeat split; by rewrite ?insert_empty.
Qed.

(** * The camera reset: the claim *)

(** C8, as the code has it.  When the inactivity timeout fires, the reset
    captures the current pose and the recorded default pose, and its frames
    run until the duration of 1200 ms has elapsed: every frame writes the
    point of the segment from the captured to the default pose (position and
    look-target) at the factor given by the ease-in-out curve
    [t < 0.5 ? 2t² : 1 − (−2t + 2)² / 2], which is not the linear one, hands
    that pose to [controls.update()], and requests itself again while
    [t < 1]; on the frame at which the duration has elapsed the factor is
    exactly 1, the pose written is [from + (to − from) · 1], no further frame
    is requested and [resetAnimRef] is cleared.  The pose the camera holds
    after a frame is what [controls.update()] leaves, whatever the controls
    do. *)
Theorem reset_runs_to_the_default_pose
    (DEG2RAD : Qc) (v : Viewer) (h0 : positive) (delay now : Qc)
    (default_pos : Vector3.t)
    (early : list (Qc * ControlsUpdate)) (final : Qc * ControlsUpdate) :
  well_scheduled v →
  timers v !! h0 = Some (ResetView, delay) →
  defaultCamPosRef v = Some default_pos →
  cameraRef v = true →
  controlsRef v = true →
  Forall (λ f, f.1 - now < reset_duration) early →
  reset_duration ≤ final.1 - now →
  let v1 := step DEG2RAD (TimerFired h0 now) v in
  let cl := {| startPos := camera_position v; endPos := default_pos;
               startTarget := controls_target v;
               endTarget := defaultTargetRef v; anim_start := now |} in
  let position e := Vector3.lerpVectors (camera_position v) default_pos e in
  let target e :=
    Vector3.lerpVectors (controls_target v) (defaultTargetRef v) e in
  (∀ t, eased t = eased_spec t) ∧
  eased (dec 1 4) ≠ dec 1 4 ∧
  in_flight cl v1 ∧
  (∀ pre f post,
     early = pre ++ f :: post →
     (camera_position (reset_frames (pre ++ [f]) v1),
      controls_target (reset_frames (pre ++ [f]) v1))
     = f.2 (position (eased_spec (Qcmin 1 ((f.1 - now) / Qc_of_Z 1200))))
           (target (eased_spec (Qcmin 1 ((f.1 - now) / Qc_of_Z 1200)))) ∧
     in_flight cl (reset_frames (pre ++ [f]) v1)) ∧
  (camera_position (reset_frames (early ++ [final]) v1),
   controls_target (reset_frames (early ++ [final]) v1))
  = final.2 (position 1) (target 1) ∧
  resetAnimRef (reset_frames (early ++ [final]) v1) = None ∧
  animation_frames (reset_frames (early ++ [final]) v1) = ∅.
Proof.
  intros Hws Ht Hd Hc Ho Hearly Hfinal v1 cl position target.
  assert (v1 = smoothReset now (set_timers (delete h0 (timers v)) v)) as Hv1.
  { unfold v1, step. by rewrite Ht. }
  assert (well_scheduled (set_timers (delete h0 (timers v)) v)) as Hws1.
  { destruct Hws as [[Hft Hff] [Hsf Hst]]. ws_split; try done.
    - intros h' [x Hx]. apply lookup_delete_Some in Hx as [_ Hx].
      apply Hft. eauto.
    - apply lookup_delete_Some in H as [_ Hx]. by destruct (Hst _ _ Hx).
    - apply lookup_delete_Some in H as [_ Hx]. by destruct (Hst _ _ Hx). }
  assert (in_flight cl v1) as Hfl.
  { rewrite Hv1.
    apply (smoothReset_in_flight (set_timers (delete h0 (timers v)) v)
             now default_pos Hws1 Hd Hc Ho). }
  split; [exact eased_eq_spec|]. split; [by_compute|]. split; [exact Hfl|].
  split.
  - intros pre [fnow fupd] post ->.
    apply Forall_app in Hearly as [Hpre Hrest].
    apply Forall_cons in Hrest as [Hf _].
    rewrite reset_frames_app.
    pose proof (reset_frames_early cl pre v1 Hfl Hpre) as Hfl'.
    destruct (reset_frame_early cl fnow fupd _ Hfl' Hf) as [Hpose Hfl''].
    split; [|exact Hfl'']. rewrite Hpose. by rewrite <- !eased_eq_spec.
  - rewrite reset_frames_app.
    pose proof (reset_frames_early cl early v1 Hfl Hearly) as Hfl'.
    destruct final as [fnow fupd].
    by apply (reset_frame_last cl fnow fupd _ Hfl' Hfinal).
Qed.

Lemma reset_runs_to_the_default_pose_witness :
  in_flight
    {| startPos := camera_position loaded_viewer; endPos := introCamEnd;
       startTarget := controls_target loaded_viewer;
       endTarget := defaultTargetRef loaded_viewer;
       anim_start := Qc_of_Z 2000 |}
    (step DEG2RAD_approx (TimerFired 1 (Qc_of_Z 2000)) loaded_viewer) ∧
  resetAnimRef
    (reset_frames (one_early_frame ++ [last_frame])
       (step DEG2RAD_approx (TimerFired 1 (Qc_of_Z 2000)) loaded_viewer))
    = None ∧
  animation_frames
    (reset_frames (one_early_frame ++ [last_frame])
       (step DEG2RAD_approx (TimerFired 1 (Qc_of_Z 2000)) loaded_viewer))
    = ∅.
Proof.
  destruct (reset_runs_to_the_default_pose DEG2RAD_approx loaded_viewer
              1%positive (Qc_of_Z 2000) (Qc_of_Z 2000) introCamEnd
              one_early_frame last_frame)
    as (_ & _ & Hfl & _ & _ & Hr & Hf).
  - apply run_well_scheduled, mount_well_scheduled.
  - vm_compute; reflexivity.
  - reflexivity.
  - reflexivity.
  - reflexivity.
  - repeat constructor; by_compute.
  - by_compute.
  - split; [exact Hfl|]. split; [exact Hr|exact Hf].
Defined.

(** C8 as stated fails: the last frame does not pin the camera to the
    default pose, it writes [from + (to − from) · 1] in the program's
    floating-point arithmetic.  A reset that starts with the camera at
    x = −1.3 and goes to the default x = 2 has, 1200 ms after its start, the
    factor exactly 1 and writes x = 1.9999999999999998, which is not 2. *)
Lemma reset_misses_default_pose_by_rounding :
  F64.eased (F64.min 1 ((3200 - 2000) / 1200)%float) = 1%float ∧
  F64.animate_component (-0x1.4cccccccccccdp+0)%float 2%float
                        2000%float 3200%float
    = 0x1.fffffffffffffp+0%float ∧
  (F64.animate_component (-0x1.4cccccccccccdp+0)%float 2%float
                         2000%float 3200%float =? 2)%float = false.
Proof. repeat split; reflexivity. Qed.
